(** * composed-di: a shallow embedding of the resolution and validation engine

    The development follows [src/serviceKey.ts], [src/serviceScope.ts],
    [src/serviceFactory.ts] and [src/serviceModule.ts], and the exporter of
    the dependency graph in DOT notation.

    - Keys and scopes are records carrying the [Symbol] allocated by their
      constructor.
    - A factory is the object returned by [ServiceFactory.singleton] or
      [ServiceFactory.oneShot]; the closure variable [instance] of a
      singleton lives in a store indexed by the factory's identity.
    - Module construction ([ServiceModule.from] and the private constructor)
      is synchronous and is embedded as a function returning a completion.
    - [ServiceModule.get] is an [async] function.  Its synchronous part
      (locating the factory and calling [get] on every dependency) allocates
      one promise per call; the code after each [await] is a continuation
      that the event loop runs later.  Continuations of different calls may
      interleave, so they are embedded as a step function [resume] on a
      table of promises, and the properties are proved for every
      interleaving of steps.
    - [escapeDotString] and [createDotGraph] are pure functions on strings;
      the three loops of [createDotGraph] are folds over the factories of the
      module, on the sets, the map, the counter and the array of lines that
      the function keeps.

    What the embedding assumes of its surroundings:
    - a user callback acts on user state only, all at once when it is
      called, and does not call back into the module;
    - a continuation may run at any time after it has become ready; the
      event loop of the program runs them in the order in which they become
      ready, which is one of the orders considered here.  The statements
      about resolution are made for every order; [event_loop] and [resolve]
      follow one of them, the oldest call first, and [racingSchedule] is the
      order of the program on the module of the README;
    - the call stack is either taken as unbounded ([get_sync], where a depth
      that does not suffice gives no result) or as bounded ([get_sync_within],
      where the call that finds no room is rejected with the error of the
      engine); the two agree where the room suffices, as it does on a module
      without dependency cycles once it is the number of factories
      ([get_within_acyclic]);
    - when several inputs of [Promise.all] are rejected by the time the
      awaiting continuation runs, it sees the first of them in input order;
      the program sees the first in time, which is what the continuation
      sees here when it runs between the two rejections.

    The run is instrumented with a log of the calls of [initialize], of the
    user initializers and of the user teardowns, so that statements about
    what is invoked, on which arguments and how often can be made. *)

From stdpp Require Import base list gmap strings pretty.

Local Open Scope string_scope.
Local Open Scope list_scope.

(** ** JavaScript values, exceptions and completions *)

Inductive JsValue :=
| JUndefined
| JNum (n : Z)
| JStr (s : string)
| JObj (addr : nat).

#[global] Instance JsValue_eq_dec : EqDecision JsValue.
Proof. solve_decision. Defined.

(** A thrown value: [new Error(message)] or whatever user code throws. *)
Inductive Exn :=
| Error (message : string)
| Thrown (payload : JsValue).

#[global] Instance Exn_eq_dec : EqDecision Exn.
Proof. solve_decision. Defined.

Inductive Completion (A : Type) :=
| Normal (a : A)
| Throw (e : Exn).

Arguments Normal {A} a.
Arguments Throw {A} e.

Definition newline_char : Ascii.ascii := Ascii.ascii_of_nat 10.
Definition newline : string := String newline_char EmptyString.

(** [s.split(newline)]: the lines of a message. *)
Fixpoint split_lines (s : string) : list string :=
  match s with
  | EmptyString => [EmptyString]
  | String c s' =>
      if decide (c = newline_char) then EmptyString :: split_lines s'
      else
        match split_lines s' with
        | [] => [String c EmptyString]
        | l :: ls => String c l :: ls
        end
  end.

Fixpoint newline_free (s : string) : Prop :=
  match s with
  | EmptyString => True
  | String c s' => c ≠ newline_char ∧ newline_free s'
  end.

Definition indent_first (ls : list string) : list string :=
  match ls with
  | [] => []
  | l :: ls' => (" " +:+ l) :: ls'
  end.

(** A message names a service when the service's name occurs in it. *)
Definition mentions (service : string) (message : string) : bool :=
  bool_decide (is_Some (String.index 0 service message)).

(** ** serviceKey.ts and serviceScope.ts *)

Record ServiceKey := { name : string; symbol : positive }.

#[global] Instance ServiceKey_eq_dec : EqDecision ServiceKey.
Proof. solve_decision. Defined.

Record ServiceScope := { scope_name : string; scope_symbol : positive }.

#[global] Instance ServiceScope_eq_dec : EqDecision ServiceScope.
Proof. solve_decision. Defined.

(** [new ServiceKey(name)]: [Symbol(name)] is a symbol no earlier call has
    returned; [fresh] is the supply of unused symbols. *)
Definition new_ServiceKey (n : string) (fresh : positive) : ServiceKey * positive :=
  ({| name := n; symbol := fresh |}, Pos.succ fresh).

Definition new_ServiceScope (n : string) (fresh : positive) : ServiceScope * positive :=
  ({| scope_name := n; scope_symbol := fresh |}, Pos.succ fresh).

(** ** A JavaScript [Map]: insertion-ordered, [set] on a present key
    replaces the value where the key already stands. *)

Fixpoint Map_set {K V : Type} `{EqDecision K} (k : K) (v : V) (m : list (K * V)) : list (K * V) :=
  match m with
  | [] => [(k, v)]
  | (k', v') :: m' =>
      if decide (k' = k) then (k, v) :: m' else (k', v') :: Map_set k v m'
  end.

Definition Map_values {K V : Type} (m : list (K * V)) : list V := map snd m.

(** [Array.prototype.forEach] with a body that may throw. *)
Fixpoint forEach {A : Type} (body : A → Completion unit) (l : list A) : Completion unit :=
  match l with
  | [] => Normal tt
  | x :: l' =>
      match body x with
      | Normal _ => forEach body l'
      | Throw e => Throw e
      end
  end.

Section Model.

Context {World : Type}.

(** ** serviceFactory.ts *)

(** User code is outside the repository: the [initialize] and [dispose]
    callbacks given to a factory act on a state of their own and either
    return or throw (an asynchronous initializer whose promise rejects
    is a throw at the [await]). *)
Definition Initializer : Type := list JsValue → World → Completion JsValue * World.
Definition Teardown : Type := JsValue → World → Completion unit * World.

(** The two kinds of object the static methods return: [singleton] carries a
    [dispose] member, [oneShot] has none. *)
Inductive Lifetime :=
| Singleton (user_dispose : Teardown)
| OneShot.

(** [fid] is the identity of the factory object; for a singleton it is
    also the address of its closure variable [instance]. *)
Record ServiceFactory := {
  fid : nat;
  provides : ServiceKey;
  dependsOn : list ServiceKey;
  scope : option ServiceScope;
  user_initialize : Initializer;
  lifetime : Lifetime
}.

Definition singleton (self : nat) (sc : option ServiceScope) (p : ServiceKey)
    (d : list ServiceKey) (i : Initializer) (disp : Teardown) : ServiceFactory :=
  {| fid := self; provides := p; dependsOn := d; scope := sc;
     user_initialize := i; lifetime := Singleton disp |}.

Definition oneShot (self : nat) (p : ServiceKey) (d : list ServiceKey)
    (i : Initializer) : ServiceFactory :=
  {| fid := self; provides := p; dependsOn := d; scope := None;
     user_initialize := i; lifetime := OneShot |}.

(** ** serviceModule.ts: validation and composition *)

Record ServiceModule := { factories : list ServiceFactory }.

Definition isRegistered (key : ServiceKey) (fs : list ServiceFactory) : bool :=
  existsb (λ f, bool_decide (symbol (provides f) = symbol key)) fs.

Definition isSuitable (key : ServiceKey) (f : ServiceFactory) : bool :=
  bool_decide (symbol (provides f) = symbol key).

Definition recursive_message (f : ServiceFactory) : string :=
  "Recursive dependency detected on: " +:+ name (provides f).

(** [dependencyKey === factory.provides] compares the key objects. *)
Definition checkRecursiveDependencies (f : ServiceFactory) : Completion unit :=
  if existsb (λ dependencyKey, bool_decide (dependencyKey = provides f)) (dependsOn f)
  then Throw (Error (recursive_message f))
  else Normal tt.

Definition missingDependencies (f : ServiceFactory) (fs : list ServiceFactory) : list ServiceKey :=
  filter (λ dependencyKey, isRegistered dependencyKey fs = false) (dependsOn f).

Definition missing_message (f : ServiceFactory) (missing : list ServiceKey) : string :=
  name (provides f) +:+ " will fail because it depends on:" +:+ newline +:+ " "
    +:+ String.concat newline (map (λ dependencyKey, " -> " +:+ name dependencyKey) missing).

Definition checkMissingDependencies (f : ServiceFactory) (fs : list ServiceFactory) : Completion unit :=
  let missing := missingDependencies f fs in
  if decide (length missing = 0) then Normal tt
  else Throw (Error (missing_message f missing)).

Definition check (fs : list ServiceFactory) (f : ServiceFactory) : Completion unit :=
  match checkRecursiveDependencies f with
  | Normal _ => checkMissingDependencies f fs
  | Throw e => Throw e
  end.

(** The private constructor. *)
Definition new_ServiceModule (fs : list ServiceFactory) : Completion ServiceModule :=
  match forEach (check fs) fs with
  | Normal _ => Normal {| factories := fs |}
  | Throw e => Throw e
  end.

Inductive Entry :=
| ModuleEntry (m : ServiceModule)
| FactoryEntry (f : ServiceFactory).

Definition flatten (entries : list Entry) : list ServiceFactory :=
  flat_map (λ e, match e with ModuleEntry m => factories m | FactoryEntry f => [f] end) entries.

Definition byKey (flattened : list ServiceFactory) : list (positive * ServiceFactory) :=
  fold_left (λ m f, Map_set (symbol (provides f)) f m) flattened [].

Definition from (entries : list Entry) : Completion ServiceModule :=
  new_ServiceModule (Map_values (byKey (flatten entries))).

(** Vocabulary for the statements about validation. *)
Definition sym (f : ServiceFactory) : positive := symbol (provides f).

Definition survivors (entries : list Entry) : list ServiceFactory :=
  Map_values (byKey (flatten entries)).

(** The table built by [from] holds each symbol once, next to a factory
    providing it. *)
Definition keyed (mp : list (positive * ServiceFactory)) : Prop :=
  Forall (λ kf, kf.1 = sym kf.2) mp ∧ NoDup (mp.*1).

Definition self_dependent (f : ServiceFactory) : Prop := provides f ∈ dependsOn f.

#[global] Instance self_dependent_dec (f : ServiceFactory) : Decision (self_dependent f).
Proof. unfold self_dependent. apply _. Defined.

Definition registered (key : ServiceKey) (fs : list ServiceFactory) : Prop :=
  ∃ g, g ∈ fs ∧ sym g = symbol key.

Definition valid_in (fs : list ServiceFactory) (f : ServiceFactory) : Prop :=
  ¬ self_dependent f ∧ ∀ k, k ∈ dependsOn f → registered k fs.

(** ** The event loop: promises of in-flight [get] calls *)

Inductive Status :=
| Waiting                                (* at [await Promise.all(...)] *)
| Initializing (r : Completion JsValue)  (* singleton, at [await initialize(...)] *)
| Fulfilled (v : JsValue)
| Rejected (e : Exn).

(** The promise returned by one call of [get]: the factory the call found
    (none when it threw at once), how far the call has got, and the promises
    of the [get] calls it made for the dependencies, in [dependsOn] order. *)
Record Promise := {
  callee : option ServiceFactory;
  status : Status;
  deps : list nat
}.

(** What the instrumented run records. *)
Inductive Event :=
| EvInitialize (p : nat) (f : nat) (args : list JsValue)
    (* the call with promise [p] called [initialize(...args)] of factory [f] *)
| EvUserInit (p : nat) (f : nat) (args : list JsValue) (r : Completion JsValue)
    (* that call ran the user initializer of [f] on [args], which completed with [r] *)
| EvUserDispose (f : nat) (v : JsValue).
    (* the user teardown of factory [f] ran on the instance [v] *)

Record Sys := {
  instances : gmap nat JsValue;   (* the [instance] variable of every singleton *)
  world : World;
  log : list Event;
  promises : list Promise
}.

Definition instance (f : ServiceFactory) (sys : Sys) : JsValue :=
  default JUndefined (instances sys !! fid f).

Definition set_instance (f : ServiceFactory) (v : JsValue) (sys : Sys) : Sys :=
  {| instances := <[fid f := v]> (instances sys); world := world sys;
     log := log sys; promises := promises sys |}.

Definition set_world (w : World) (sys : Sys) : Sys :=
  {| instances := instances sys; world := w; log := log sys; promises := promises sys |}.

Definition record (ev : Event) (sys : Sys) : Sys :=
  {| instances := instances sys; world := world sys;
     log := log sys ++ [ev]; promises := promises sys |}.

Definition set_promises (ps : list Promise) (sys : Sys) : Sys :=
  {| instances := instances sys; world := world sys; log := log sys; promises := ps |}.

Definition set_status (p : nat) (st : Status) (sys : Sys) : Sys :=
  set_promises
    (alter (λ pr, {| callee := callee pr; status := st; deps := deps pr |}) p (promises sys))
    sys.

Definition not_found_message (key : ServiceKey) : string :=
  "Could not find a suitable factory for " +:+ name key.

(** [keys.map(k => this.get(k))], threading the promise table. *)
Fixpoint get_each (get1 : ServiceKey → list Promise → option (nat * list Promise))
    (keys : list ServiceKey) (ps : list Promise) : option (list nat * list Promise) :=
  match keys with
  | [] => Some ([], ps)
  | k :: keys' =>
      match get1 k ps with
      | None => None
      | Some (p, ps1) =>
          match get_each get1 keys' ps1 with
          | None => None
          | Some (rest, ps2) => Some (p :: rest, ps2)
          end
      end
  end.

(** The part of [get] that runs before its first [await]: it returns the
    promise of the call.  [fuel] bounds the depth of the nested calls, and
    the result is [None] when they go deeper: the stack is not bounded here,
    and [None] for every [fuel] means that no depth suffices.  What an engine
    makes of that is [get_sync_within], further down. *)
Fixpoint get_sync (fuel : nat) (fs : list ServiceFactory) (key : ServiceKey)
    (ps : list Promise) : option (nat * list Promise) :=
  match fuel with
  | 0 => None
  | S fuel' =>
      match find (isSuitable key) fs with
      | None =>
          Some (length ps,
                ps ++ [{| callee := None;
                          status := Rejected (Error (not_found_message key));
                          deps := [] |}])
      | Some f =>
          match get_each (get_sync fuel' fs) (dependsOn f) ps with
          | None => None
          | Some (ds, ps') =>
              Some (length ps', ps' ++ [{| callee := Some f; status := Waiting; deps := ds |}])
          end
      end
  end.

Definition get (fuel : nat) (m : ServiceModule) (key : ServiceKey) (sys : Sys) : option (nat * Sys) :=
  match get_sync fuel (factories m) key (promises sys) with
  | None => None
  | Some (p, ps) => Some (p, set_promises ps sys)
  end.

Definition status_of (ps : list Promise) (p : nat) : option Status :=
  status <$> ps !! p.

Definition fulfilled_value (ps : list Promise) (p : nat) : option JsValue :=
  match status_of ps p with
  | Some (Fulfilled v) => Some v
  | _ => None
  end.

Definition rejection (ps : list Promise) (p : nat) : option Exn :=
  match status_of ps p with
  | Some (Rejected e) => Some e
  | _ => None
  end.

(** [Promise.all(ds)] as seen by the continuation awaiting it: rejected as
    soon as one input is rejected, fulfilled with the values in input order
    once every input is fulfilled, pending ([None]) otherwise. *)
Definition Promise_all (ps : list Promise) (ds : list nat) : option (Completion (list JsValue)) :=
  match head (omap (rejection ps) ds) with
  | Some e => Some (Throw e)
  | None =>
      match mapM (fulfilled_value ps) ds with
      | Some vs => Some (Normal vs)
      | None => None
      end
  end.

Definition settled (r : Completion JsValue) : Status :=
  match r with
  | Normal v => Fulfilled v
  | Throw e => Rejected e
  end.

Definition call_user_initialize (p : nat) (f : ServiceFactory) (args : list JsValue) (sys : Sys)
    : Completion JsValue * Sys :=
  let '(r, w) := user_initialize f args (world sys) in
  (r, record (EvUserInit p (fid f) args r) (set_world w sys)).

(** [factory.initialize(...args)] up to its first suspension.  A one-shot
    factory's [initialize] is the user function itself.  A singleton's
    wrapper tests [instance === undefined]; when the test holds it calls the
    user function and suspends at the [await]. *)
Definition initialize_begin (p : nat) (f : ServiceFactory) (args : list JsValue) (sys : Sys)
    : Status * Sys :=
  let sys := record (EvInitialize p (fid f) args) sys in
  match lifetime f with
  | OneShot =>
      let '(r, sys') := call_user_initialize p f args sys in (settled r, sys')
  | Singleton _ =>
      if decide (instance f sys = JUndefined)
      then let '(r, sys') := call_user_initialize p f args sys in (Initializing r, sys')
      else (Fulfilled (instance f sys), sys)
  end.

(** The singleton wrapper after its [await]: [instance = <awaited>; return instance]. *)
Definition initialize_resume (f : ServiceFactory) (r : Completion JsValue) (sys : Sys)
    : Status * Sys :=
  match r with
  | Normal v => (Fulfilled v, set_instance f v sys)
  | Throw e => (Rejected e, sys)
  end.

(** Run the pending continuation of the call with promise [p]; [None] when
    the call has nothing to run (it is settled, or still waits for a
    dependency). *)
Definition resume (p : nat) (sys : Sys) : option Sys :=
  match promises sys !! p with
  | None => None
  | Some pr =>
      match callee pr with
      | None => None
      | Some f =>
          match status pr with
          | Waiting =>
              match Promise_all (promises sys) (deps pr) with
              | None => None
              | Some (Throw e) => Some (set_status p (Rejected e) sys)
              | Some (Normal args) =>
                  let '(st, sys') := initialize_begin p f args sys in
                  Some (set_status p st sys')
              end
          | Initializing r =>
              let '(st, sys') := initialize_resume f r sys in
              Some (set_status p st sys')
          | Fulfilled _ | Rejected _ => None
          end
      end
  end.

(** One turn of the event loop, and any number of them. *)
Definition step (sys sys' : Sys) : Prop := ∃ p, resume p sys = Some sys'.

Definition steps : Sys → Sys → Prop := rtc step.

(** An explicit schedule: the promises whose continuation runs, in order. *)
Fixpoint run (schedule : list nat) (sys : Sys) : option Sys :=
  match schedule with
  | [] => Some sys
  | p :: schedule' =>
      match resume p sys with
      | None => None
      | Some sys' => run schedule' sys'
      end
  end.

(** One scheduler among all: it always runs the oldest call that can
    continue.  The queue of the program runs the continuations in the order
    in which they become ready, which is another order as soon as two calls
    are ready at once. *)
Definition runnable (sys : Sys) : option nat :=
  snd <$> list_find (λ p, is_Some (resume p sys)) (seq 0 (length (promises sys))).

Fixpoint event_loop (turns : nat) (sys : Sys) : Sys :=
  match turns with
  | 0 => sys
  | S turns' =>
      match runnable sys with
      | None => sys
      | Some p =>
          match resume p sys with
          | None => sys
          | Some sys' => event_loop turns' sys'
          end
      end
  end.

(** ** [ServiceModule.dispose] *)

(** [factory.dispose?.()]: absent on a one-shot factory; on a singleton,
    the wrapper of lines 55-60. *)
Definition factory_dispose (f : ServiceFactory) (sys : Sys) : Completion unit * Sys :=
  match lifetime f with
  | OneShot => (Normal tt, sys)
  | Singleton user_dispose =>
      if decide (instance f sys = JUndefined) then (Normal tt, sys)
      else
        let '(r, w) := user_dispose (instance f sys) (world sys) in
        let sys' := record (EvUserDispose (fid f) (instance f sys)) (set_world w sys) in
        match r with
        | Normal _ => (Normal tt, set_instance f JUndefined sys')
        | Throw e => (Throw e, sys')
        end
  end.

Fixpoint dispose_each (fs : list ServiceFactory) (sys : Sys) : Completion unit * Sys :=
  match fs with
  | [] => (Normal tt, sys)
  | f :: fs' =>
      match factory_dispose f sys with
      | (Normal _, sys') => dispose_each fs' sys'
      | (Throw e, sys') => (Throw e, sys')
      end
  end.

Definition dispose (m : ServiceModule) (sc : option ServiceScope) (sys : Sys) : Completion unit * Sys :=
  let selected :=
    match sc with
    | Some s => filter (λ f, scope f = Some s) (factories m)
    | None => factories m
    end in
  dispose_each selected sys.

(** ** Vocabulary for the statements about resolution *)

(** The six ways a continuation runs. *)
Inductive Resumed (p : nat) (sys : Sys) : Sys → Prop :=
| resumed_abort pr f e :
    promises sys !! p = Some pr → callee pr = Some f → status pr = Waiting →
    Promise_all (promises sys) (deps pr) = Some (Throw e) →
    Resumed p sys (set_status p (Rejected e) sys)
| resumed_one_shot pr f args r w :
    promises sys !! p = Some pr → callee pr = Some f → status pr = Waiting →
    Promise_all (promises sys) (deps pr) = Some (Normal args) →
    lifetime f = OneShot →
    user_initialize f args (world sys) = (r, w) →
    Resumed p sys
      (set_status p (settled r)
         (record (EvUserInit p (fid f) args r)
            (set_world w (record (EvInitialize p (fid f) args) sys))))
| resumed_invoke pr f args r w user_dispose :
    promises sys !! p = Some pr → callee pr = Some f → status pr = Waiting →
    Promise_all (promises sys) (deps pr) = Some (Normal args) →
    lifetime f = Singleton user_dispose →
    instance f sys = JUndefined →
    user_initialize f args (world sys) = (r, w) →
    Resumed p sys
      (set_status p (Initializing r)
         (record (EvUserInit p (fid f) args r)
            (set_world w (record (EvInitialize p (fid f) args) sys))))
| resumed_cached pr f args user_dispose :
    promises sys !! p = Some pr → callee pr = Some f → status pr = Waiting →
    Promise_all (promises sys) (deps pr) = Some (Normal args) →
    lifetime f = Singleton user_dispose →
    instance f sys ≠ JUndefined →
    Resumed p sys
      (set_status p (Fulfilled (instance f sys))
         (record (EvInitialize p (fid f) args) sys))
| resumed_store pr f v :
    promises sys !! p = Some pr → callee pr = Some f →
    status pr = Initializing (Normal v) →
    Resumed p sys (set_status p (Fulfilled v) (set_instance f v sys))
| resumed_fail pr f e :
    promises sys !! p = Some pr → callee pr = Some f →
    status pr = Initializing (Throw e) →
    Resumed p sys (set_status p (Rejected e) sys).

Definition unsettled (st : Status) : Prop :=
  match st with
  | Waiting | Initializing _ => True
  | Fulfilled _ | Rejected _ => False
  end.

Definition with_status (st : Status) (pr : Promise) : Promise :=
  {| callee := callee pr; status := st; deps := deps pr |}.

(** How a promise came to its status. *)
Definition explained (sys : Sys) (p : nat) (pr : Promise)
    (f : ServiceFactory) : Prop :=
  match status pr with
  | Waiting => True
  | Initializing r => ∃ args, EvUserInit p (fid f) args r ∈ log sys
  | Fulfilled v =>
      (∃ args, EvInitialize p (fid f) args ∈ log sys) ∧
      ∃ q args, EvUserInit q (fid f) args (Normal v) ∈ log sys ∧
                (lifetime f = OneShot → q = p)
  | Rejected e =>
      (∃ args, EvUserInit p (fid f) args (Throw e) ∈ log sys) ∨
      (∃ d, d ∈ deps pr ∧ rejection (promises sys) d = Some e)
  end.

Record coherent (sys : Sys) : Prop := {
  coh_deps p pr :
    promises sys !! p = Some pr → Forall (λ d, d < p) (deps pr);
  coh_not_found p pr :
    promises sys !! p = Some pr → callee pr = None →
    ∃ k, status pr = Rejected (Error (not_found_message k));
  coh_initialize p c args :
    EvInitialize p c args ∈ log sys →
    ∃ pr f, promises sys !! p = Some pr ∧ callee pr = Some f ∧ fid f = c ∧
            status pr ≠ Waiting ∧
            Forall2 (λ d a, fulfilled_value (promises sys) d = Some a) (deps pr) args;
  coh_user_init p c args r :
    EvUserInit p c args r ∈ log sys → EvInitialize p c args ∈ log sys;
  coh_status p pr f :
    promises sys !! p = Some pr → callee pr = Some f → explained sys p pr f;
  coh_cache c v :
    instances sys !! c = Some v → v ≠ JUndefined →
    ∃ q args, EvUserInit q c args (Normal v) ∈ log sys
}.

(** The promise at index [i] belongs to a call made since the table had
    [lo] entries: it was rejected at once for want of a factory, or it holds
    a factory of the module and one promise per key of [dependsOn], each
    the promise of a call of [get] on that key made since then. *)
Definition node_ok (fs : list ServiceFactory) (ps : list Promise) (lo i : nat)
    (pr : Promise) : Prop :=
  match callee pr with
  | None => (∃ k, status pr = Rejected (Error (not_found_message k))) ∧ deps pr = []
  | Some f =>
      f ∈ fs ∧
      Forall2 (λ k (d : nat), (lo ≤ d < i)%nat ∧
                              callee <$> ps !! d = Some (find (isSuitable k) fs))
              (dependsOn f) (deps pr)
  end.

Definition spawned (fs : list ServiceFactory) (ps ps' : list Promise) : Prop :=
  (∃ new, ps' = ps ++ new) ∧
  ∀ (i : nat) pr, (length ps ≤ i)%nat → ps' !! i = Some pr →
          node_ok fs ps' (length ps) i pr ∧ (status pr = Waiting ∨ callee pr = None).

Definition empty_sys (w : World) : Sys :=
  {| instances := ∅; world := w; log := []; promises := [] |}.

Definition depends (fs : list ServiceFactory) (s t : positive) : Prop :=
  ∃ f k, f ∈ fs ∧ sym f = s ∧ k ∈ dependsOn f ∧ symbol k = t.

Definition acyclic (fs : list ServiceFactory) : Prop := ∀ s, ¬ tc (depends fs) s s.

Definition weight (st : Status) : nat :=
  match st with
  | Waiting => 2
  | Initializing _ => 1
  | Fulfilled _ | Rejected _ => 0
  end.

Definition work (sys : Sys) : nat :=
  foldr (λ pr n, weight (status pr) + n)%nat 0%nat (promises sys).

(** [module.get(key)] run to its end by that scheduler: the synchronous
    part, then the oldest continuation that can run, until none is left. *)
Definition resolve (m : ServiceModule) (key : ServiceKey) (sys : Sys) : option (nat * Sys) :=
  match get (S (length (factories m))) m key sys with
  | Some (p, sys') => Some (p, event_loop (work sys') sys')
  | None => None
  end.

Definition is_settled (st : Status) : Prop :=
  match st with
  | Fulfilled _ | Rejected _ => True
  | Waiting | Initializing _ => False
  end.

Definition is_singleton (f : ServiceFactory) : Prop :=
  match lifetime f with
  | Singleton _ => True
  | OneShot => False
  end.

(** Factories are distinct objects: within the calls in flight, the identity
    [fid g] belongs to [g] alone. *)
Definition identifies (g : ServiceFactory) (sys : Sys) : Prop :=
  ∀ q pr f, promises sys !! q = Some pr → callee pr = Some f → fid f = fid g → f = g.

(** The singleton [g] holds the instance [v] and no call is suspended inside
    its initializer. *)
Definition stable (g : ServiceFactory) (v : JsValue) (sys : Sys) : Prop :=
  is_singleton g ∧ instances sys !! fid g = Some v ∧ v ≠ JUndefined ∧ identifies g sys ∧
  ∀ q pr r, promises sys !! q = Some pr → callee pr = Some g → status pr ≠ Initializing r.

(** The call with promise [p] is the only unsettled call on [g]. *)
Definition sole (p : nat) (g : ServiceFactory) (sys : Sys) : Prop :=
  is_singleton g ∧ identifies g sys ∧
  ∀ q pr, promises sys !! q = Some pr → callee pr = Some g → q ≠ p → is_settled (status pr).

(** How far the only call on [g] has got, starting from an empty cache. *)
Definition producing (p : nat) (g : ServiceFactory) (sys : Sys) : Prop :=
  ∃ pr, promises sys !! p = Some pr ∧ callee pr = Some g ∧
    match status pr with
    | Waiting => instance g sys = JUndefined
    | Initializing r =>
        instance g sys = JUndefined ∧ ∃ args, EvUserInit p (fid g) args r ∈ log sys
    | Fulfilled v =>
        instance g sys = v ∧ ∃ args, EvUserInit p (fid g) args (Normal v) ∈ log sys
    | Rejected e => True
    end.

(** The call with promise [p] on the singleton [g], whose instance [v] is
    cached: it waits, or has returned [v], or was rejected with the rejection
    of a dependency. *)
Definition served (p : nat) (g : ServiceFactory) (v : JsValue) (sys : Sys) : Prop :=
  ∃ pr, promises sys !! p = Some pr ∧ callee pr = Some g ∧
    (status pr = Waiting ∨ status pr = Fulfilled v ∨
     ∃ e d, status pr = Rejected e ∧ d ∈ deps pr ∧ rejection (promises sys) d = Some e).

(** The factories [dispose] goes through. *)
Definition selected (sc : option ServiceScope) (f : ServiceFactory) : Prop :=
  match sc with
  | Some s => scope f = Some s
  | None => True
  end.

#[global] Instance selected_dec (sc : option ServiceScope) (f : ServiceFactory) :
  Decision (selected sc f).
Proof. destruct sc; simpl; apply _. Defined.

#[global] Instance is_singleton_dec (f : ServiceFactory) : Decision (is_singleton f).
Proof. unfold is_singleton. destruct (lifetime f); apply _. Defined.

(** The teardown call [dispose] makes for a factory, if any. *)
Definition teardown_event (sys : Sys) (f : ServiceFactory) : option Event :=
  match lifetime f with
  | Singleton _ =>
      if decide (instance f sys = JUndefined) then None
      else Some (EvUserDispose (fid f) (instance f sys))
  | OneShot => None
  end.

(** Every dependency of every factory is provided: what validation
    guarantees of a constructed module. *)
Definition resolvable (fs : list ServiceFactory) : Prop :=
  ∀ f k, f ∈ fs → k ∈ dependsOn f → registered k fs.

End Model.

Arguments Initializer World : clear implicits.
Arguments Teardown World : clear implicits.
Arguments Lifetime World : clear implicits.
Arguments ServiceFactory World : clear implicits.
Arguments ServiceModule World : clear implicits.
Arguments Entry World : clear implicits.
Arguments Promise World : clear implicits.
Arguments Sys World : clear implicits.

(** ** Further vocabulary for composition and resolution *)

(** The error an engine throws when a call finds no room on the stack: a
    [RangeError], kept here by its message. *)
Definition stack_overflow : Exn := Error "Maximum call stack size exceeded".

(** The elements of a list in the order in which they first occur. *)
Fixpoint first_occurrences (l : list positive) : list positive :=
  match l with
  | [] => []
  | x :: l' => x :: filter (λ y, y ≠ x) (first_occurrences l')
  end.

Section Further.

Context {World : Type}.

(** The loop of [from], started on any table. *)
Definition set_each (flattened : list (ServiceFactory World))
    (mp : list (positive * ServiceFactory World)) : list (positive * ServiceFactory World) :=
  fold_left (λ m f, Map_set (symbol (provides f)) f m) flattened mp.

(** In the log, a call of [initialize] comes after the call of [initialize]
    made for each of its dependencies. *)
Definition ordered (sys : Sys World) : Prop :=
  ∀ (i p : nat) c args pr (d : nat),
    log sys !! i = Some (EvInitialize p c args) →
    promises sys !! p = Some pr → d ∈ deps pr →
    ∃ (j : nat) c' args', (j < i)%nat ∧ log sys !! j = Some (EvInitialize d c' args').

(** *** Whatever happens next *)

(** The queue of the event loop is empty: no continuation can run. *)
Definition quiescent (sys : Sys World) : Prop := ∀ p : nat, resume p sys = None.

(** What happens to the system around a module: a continuation runs, or the
    program calls [get] or [dispose]. *)
Inductive move (m : ServiceModule World) (sys sys' : Sys World) : Prop :=
| move_resume (p : nat) : resume p sys = Some sys' → move m sys sys'
| move_get fuel K (p : nat) : get fuel m K sys = Some (p, sys') → move m sys sys'
| move_dispose sc r : dispose m sc sys = (r, sys') → move m sys sys'.

Definition moves (m : ServiceModule World) : Sys World → Sys World → Prop := rtc (move m).

(** *** Calls that fail *)

(** The call with promise [p] waits for the call with promise [d]. *)
Definition awaits (ps : list (Promise World)) (p d : nat) : Prop :=
  ∃ pr, ps !! p = Some pr ∧ d ∈ deps pr.

(** The calls made since the table had [lo] entries: each holds a factory of
    the module and, per key of [dependsOn], the promise of a call of [get]
    on that key made since then. *)
Definition made_since (m : ServiceModule World) (lo : nat) (sys : Sys World) : Prop :=
  (lo ≤ length (promises sys))%nat ∧
  ∀ (i : nat) pr f, (lo ≤ i)%nat → promises sys !! i = Some pr → callee pr = Some f →
    f ∈ factories m ∧
    Forall2 (λ k (d : nat), (lo ≤ d < i)%nat ∧
               callee <$> promises sys !! d = Some (find (isSuitable k) (factories m)))
            (dependsOn f) (deps pr).

(** A call that will not be fulfilled: it is rejected, or its user
    initializer has thrown and the wrapper is at its [await], or it waits
    for such a call. *)
Inductive doomed (ps : list (Promise World)) : nat → Prop :=
| doomed_rejected (p : nat) pr e :
    ps !! p = Some pr → status pr = Rejected e → doomed ps p
| doomed_failing (p : nat) pr e :
    ps !! p = Some pr → status pr = Initializing (Throw e) → doomed ps p
| doomed_waiting (p : nat) pr (d : nat) :
    ps !! p = Some pr → status pr = Waiting → d ∈ deps pr → doomed ps d → doomed ps p.

(** The call with promise [q] is rejected with [e], or will be when the
    wrapper of its singleton resumes. *)
Definition failed_with (e : Exn) (sys : Sys World) (q : nat) : Prop :=
  ∃ pr, promises sys !! q = Some pr ∧
        (status pr = Rejected e ∨ status pr = Initializing (Throw e)).

(** No failure of a user initializer in a call made since the table had
    [lo] entries is lost. *)
Definition failures_kept (lo : nat) (sys : Sys World) : Prop :=
  ∀ (q : nat) c args e, (lo ≤ q)%nat →
    EvUserInit q c args (Throw e) ∈ log sys → failed_with e sys q.

(** A call that has something left to run found its factory. *)
Definition live (sys : Sys World) : Prop :=
  ∀ (p : nat) pr, promises sys !! p = Some pr → unsettled (status pr) → is_Some (callee pr).

(** *** [ServiceModule.get] on a bounded stack *)

(** [keys.map(k => this.get(k))] when every call returns its promise. *)
Fixpoint get_all (get1 : ServiceKey → list (Promise World) → nat * list (Promise World))
    (keys : list ServiceKey) (ps : list (Promise World)) : list nat * list (Promise World) :=
  match keys with
  | [] => ([], ps)
  | k :: keys' =>
      let '(p, ps1) := get1 k ps in
      let '(rest, ps2) := get_all get1 keys' ps1 in
      (p :: rest, ps2)
  end.

(** The synchronous part of [get] on a stack with room for [room] more
    nested calls of [get]; the frames of [find], [map] and [Promise.all] are
    counted with the call of [get] that makes them.  A call whose factory
    has dependencies and that finds no room for the call of [get] on the
    first of them is ended by the error of the engine.  [get] being an
    [async] function, the error rejects the promise of that call, which is
    returned to its caller like any other; no promise has been made for its
    dependencies.  Where the depth suffices this is [get_sync]. *)
Fixpoint get_sync_within (room : nat) (fs : list (ServiceFactory World)) (key : ServiceKey)
    (ps : list (Promise World)) : nat * list (Promise World) :=
  match find (isSuitable key) fs with
  | None =>
      (length ps,
       ps ++ [{| callee := None;
                 status := Rejected (Error (not_found_message key));
                 deps := [] |}])
  | Some f =>
      match room with
      | 0 =>
          match dependsOn f with
          | [] => (length ps, ps ++ [{| callee := Some f; status := Waiting; deps := [] |}])
          | _ :: _ =>
              (length ps,
               ps ++ [{| callee := Some f; status := Rejected stack_overflow; deps := [] |}])
          end
      | S room' =>
          let '(ds, ps') := get_all (get_sync_within room' fs) (dependsOn f) ps in
          (length ps', ps' ++ [{| callee := Some f; status := Waiting; deps := ds |}])
      end
  end.

Definition get_within (room : nat) (m : ServiceModule World) (key : ServiceKey)
    (sys : Sys World) : nat * Sys World :=
  let '(p, ps) := get_sync_within room (factories m) key (promises sys) in
  (p, set_promises ps sys).

(** A promise allocated on a bounded stack for a key that has a factory. *)
Definition node_within (fs : list (ServiceFactory World)) (lo i : nat)
    (pr : Promise World) : Prop :=
  ∃ f, callee pr = Some f ∧ f ∈ fs ∧
       Forall (λ d : nat, (lo ≤ d < i)%nat) (deps pr) ∧
       (status pr = Waiting ∨ status pr = Rejected stack_overflow).

Definition spawned_within (fs : list (ServiceFactory World))
    (ps ps' : list (Promise World)) : Prop :=
  (∃ new, ps' = ps ++ new) ∧
  ∀ (i : nat) pr, (length ps ≤ i)%nat → ps' !! i = Some pr → node_within fs (length ps) i pr.

(** Where the failures of the calls made since the table had [lo] entries
    come from: the stack, or a user initializer. *)
Definition sourced (lo : nat) (sys : Sys World) : Prop :=
  ∀ (q : nat) pr, (lo ≤ q)%nat → promises sys !! q = Some pr →
    is_Some (callee pr) ∧
    Forall (λ d : nat, (lo ≤ d)%nat) (deps pr) ∧
    ∀ e, status pr = Rejected e ∨ status pr = Initializing (Throw e) →
         e = stack_overflow ∨
         ∃ (q' : nat) c args, (lo ≤ q')%nat ∧ EvUserInit q' c args (Throw e) ∈ log sys.

End Further.

(** ** The DOT exporter

    [createDotGraph] renders the factories of a module as a graph in DOT
    notation.  A string is taken as the sequence of its UTF-8 bytes: the
    three characters [escapeDotString] looks for are single bytes that occur
    in no longer encoding. *)

Definition quote_char : Ascii.ascii := Ascii.ascii_of_nat 34.
Definition backslash_char : Ascii.ascii := Ascii.ascii_of_nat 92.
Definition quote : string := String quote_char EmptyString.
Definition backslash : string := String backslash_char EmptyString.

(** [str.replace(/c/g, replacement)] for a pattern of one character and a
    replacement without dollar sign. *)
Fixpoint replace_all (c : Ascii.ascii) (replacement : string) (str : string) : string :=
  match str with
  | EmptyString => EmptyString
  | String x rest =>
      if decide (x = c) then replacement +:+ replace_all c replacement rest
      else String x (replace_all c replacement rest)
  end.

Definition escapeDotString (str : string) : string :=
  replace_all newline_char (backslash +:+ "n")
    (replace_all quote_char (backslash +:+ quote)
       (replace_all backslash_char (backslash +:+ backslash) str)).

Inductive Direction := TB | LR | BT | RL.

(** Every member of [DotGraphOptions] is optional. *)
Record DotGraphOptions := {
  direction : option Direction;
  title : option string;
  highlightLeaves : option bool;
  highlightRoots : option bool
}.

(** The default value of the second parameter, used when the argument is
    left out. *)
Definition defaultOptions : DotGraphOptions :=
  {| direction := Some TB; title := Some "Service Dependency Graph";
     highlightLeaves := Some true; highlightRoots := Some true |}.

(** A member inside a template literal; a member that is absent reads
    [undefined]. *)
Definition template_direction (d : option Direction) : string :=
  match d with
  | Some TB => "TB"
  | Some LR => "LR"
  | Some BT => "BT"
  | Some RL => "RL"
  | None => "undefined"
  end.

Definition template_string (s : option string) : string := default "undefined" s.

(** A member used as a condition. *)
Definition truthy (b : option bool) : bool := default false b.

(** The lines pushed before the first loop. *)
Definition preamble (o : DotGraphOptions) : list string :=
  [ "digraph ServiceDependencies {";
    "  label=" +:+ quote +:+ template_string (title o) +:+ quote +:+ ";";
    "  labelloc=" +:+ quote +:+ "t" +:+ quote +:+ ";";
    "  fontsize=16;";
    "  rankdir=" +:+ template_direction (direction o) +:+ ";";
    "";
    "  node [";
    "    shape=box,";
    "    style=" +:+ quote +:+ "rounded,filled" +:+ quote +:+ ",";
    "    fillcolor=" +:+ quote +:+ "#e1f5ff" +:+ quote +:+ ",";
    "    color=" +:+ quote +:+ "#0288d1" +:+ quote +:+ ",";
    "    fontname=" +:+ quote +:+ "Arial" +:+ quote +:+ ",";
    "    fontsize=12";
    "  ];";
    "";
    "  edge [";
    "    color=" +:+ quote +:+ "#666666" +:+ quote +:+ ",";
    "    arrowsize=0.8";
    "  ];";
    "" ].

Definition leaf_style : string :=
  " [fillcolor=" +:+ quote +:+ "#c8e6c9" +:+ quote +:+ ", color=" +:+ quote +:+ "#388e3c"
    +:+ quote +:+ "]".

Definition root_style : string :=
  " [fillcolor=" +:+ quote +:+ "#ffccbc" +:+ quote +:+ ", color=" +:+ quote +:+ "#d84315"
    +:+ quote +:+ "]".

Section Dot.

Context {World : Type}.

(** The first loop: the names of the services that have dependencies, and
    the names that some service depends on. *)
Definition dependency_sets (fs : list (ServiceFactory World)) : gset string * gset string :=
  fold_left
    (λ '(hasDependencies, hasDependents) factory,
       let serviceName := name (provides factory) in
       (if decide (0 < length (dependsOn factory))%nat
        then {[serviceName]} ∪ hasDependencies else hasDependencies,
        fold_left (λ s dependency, {[name dependency]} ∪ s) (dependsOn factory) hasDependents))
    fs (∅, ∅).

(** The body of the second loop, on [nodeIds], [nodeCounter] and [lines]. *)
Definition define_node (o : DotGraphOptions) (hasDependencies hasDependents : gset string)
    (st : gmap string string * nat * list string) (factory : ServiceFactory World)
    : gmap string string * nat * list string :=
  let '(nodeIds, nodeCounter, lines) := st in
  let serviceName := name (provides factory) in
  let nodeId := "node" +:+ pretty nodeCounter in
  let isLeaf := bool_decide (serviceName ∉ hasDependencies) in
  let isRoot := bool_decide (serviceName ∉ hasDependents) in
  let nodeStyle :=
    if truthy (highlightLeaves o) && isLeaf then leaf_style
    else if truthy (highlightRoots o) && isRoot then root_style
    else "" in
  (<[serviceName := nodeId]> nodeIds, S nodeCounter,
   lines ++ ["  " +:+ nodeId +:+ " [label=" +:+ quote +:+ escapeDotString serviceName
               +:+ quote +:+ "]" +:+ nodeStyle +:+ ";"]).

(** The body of the third loop.  [nodeIds.get(serviceName)!] is the entry
    the second loop made for this factory, and [if (depNodeId)] holds for an
    identifier that is present and not the empty string. *)
Definition define_edges (nodeIds : gmap string string) (lines : list string)
    (factory : ServiceFactory World) : list string :=
  let serviceName := name (provides factory) in
  let serviceNodeId := default "undefined" (nodeIds !! serviceName) in
  fold_left
    (λ lines dependency,
       match nodeIds !! name dependency with
       | Some depNodeId =>
           if decide (depNodeId = "") then lines
           else lines ++ ["  " +:+ serviceNodeId +:+ " -> " +:+ depNodeId +:+ ";"]
       | None => lines
       end)
    (dependsOn factory) lines.

Definition createDotGraph (module : ServiceModule World) (options : option DotGraphOptions)
    : string :=
  let o := default defaultOptions options in
  let fs := factories module in
  let lines := preamble o in
  let '(hasDependencies, hasDependents) := dependency_sets fs in
  let '(nodeIds, _, lines) :=
    fold_left (define_node o hasDependencies hasDependents) fs (∅, 0%nat, lines) in
  let lines := lines ++ [""] in
  let lines := fold_left (define_edges nodeIds) fs lines in
  let lines := lines ++ ["}"] in
  String.concat newline lines.

(** *** Vocabulary for the statements about the graph *)

(** What the three replacements make of one character. *)
Definition escape_char (c : Ascii.ascii) : string :=
  if decide (c = backslash_char) then backslash +:+ backslash
  else if decide (c = quote_char) then backslash +:+ quote
  else if decide (c = newline_char) then backslash +:+ "n"
  else String c EmptyString.

Fixpoint escape_each (str : string) : string :=
  match str with
  | EmptyString => EmptyString
  | String c rest => escape_char c +:+ escape_each rest
  end.

Fixpoint plain (str : string) : Prop :=
  match str with
  | EmptyString => True
  | String c rest =>
      c ≠ backslash_char ∧ c ≠ quote_char ∧ c ≠ newline_char ∧ plain rest
  end.

(** Reading a double-quoted string of DOT from behind its opening quote: a
    backslash takes the next character with it, and the first double quote
    that no backslash has taken closes the string.  The result is the
    position of that quote. *)
Fixpoint closing_quote (s : string) : option nat :=
  match s with
  | EmptyString => None
  | String c s' =>
      if decide (c = quote_char) then Some 0%nat
      else if decide (c = backslash_char) then
        match s' with
        | EmptyString => None
        | String _ s'' => (λ n, S (S n)) <$> closing_quote s''
        end
      else S <$> closing_quote s'
  end.

(** A decimal numeral. *)
Definition digit (c : Ascii.ascii) : Prop :=
  (48 ≤ Ascii.nat_of_ascii c ≤ 57)%nat.

Fixpoint numeral (s : string) : Prop :=
  match s with
  | EmptyString => True
  | String c s' => digit c ∧ numeral s'
  end.

Definition service_name (f : ServiceFactory World) : string := name (provides f).

Definition node_id (i : nat) : string := "node" +:+ pretty i.

(** The position, counted from [i], of the last factory of the list whose
    service has the name [s]. *)
Fixpoint last_named (s : string) (fs : list (ServiceFactory World)) (i : nat) : option nat :=
  match fs with
  | [] => None
  | f :: fs' =>
      match last_named s fs' (S i) with
      | Some j => Some j
      | None => if decide (service_name f = s) then Some i else None
      end
  end.

Definition has_dependencies (fs : list (ServiceFactory World)) (s : string) : Prop :=
  Exists (λ f, service_name f = s ∧ dependsOn f ≠ []) fs.

Definition has_dependents (fs : list (ServiceFactory World)) (s : string) : Prop :=
  Exists (λ f, Exists (λ k, name k = s) (dependsOn f)) fs.

Definition node_style (o : DotGraphOptions) (fs : list (ServiceFactory World)) (s : string)
    : string :=
  if truthy (highlightLeaves o) && bool_decide (¬ has_dependencies fs s) then leaf_style
  else if truthy (highlightRoots o) && bool_decide (¬ has_dependents fs s) then root_style
  else "".

Definition node_line (o : DotGraphOptions) (fs : list (ServiceFactory World)) (i : nat)
    (f : ServiceFactory World) : string :=
  "  " +:+ node_id i +:+ " [label=" +:+ quote +:+ escapeDotString (service_name f)
    +:+ quote +:+ "]" +:+ node_style o fs (service_name f) +:+ ";".

Definition edge_line (i j : nat) : string :=
  "  " +:+ node_id i +:+ " -> " +:+ node_id j +:+ ";".

(** The edges drawn for a factory: one per dependency whose name is the
    name of a service of the module. *)
Definition edge_lines (fs : list (ServiceFactory World)) (f : ServiceFactory World)
    : list string :=
  omap (λ k, i ← last_named (service_name f) fs 0; j ← last_named (name k) fs 0;
             Some (edge_line i j))
       (dependsOn f).

(** The lines of the graph. *)
Definition graph_lines (o : DotGraphOptions) (fs : list (ServiceFactory World)) : list string :=
  preamble o ++ imap (node_line o fs) fs ++ [""] ++ flat_map (edge_lines fs) fs ++ ["}"].

(** The dependencies of the factories of a list, each with the position of
    the factory that has it, counted from [i]. *)
Fixpoint dependencies_from (i : nat) (fs : list (ServiceFactory World))
    : list (nat * ServiceKey) :=
  match fs with
  | [] => []
  | f :: fs' => map (pair i) (dependsOn f) ++ dependencies_from (S i) fs'
  end.

(** What [createDotGraph] reads of a factory: the name of its service and
    the names of its dependencies. *)
Definition names_of (f : ServiceFactory World) : string * list string :=
  (name (provides f), name <$> dependsOn f).

End Dot.

(** ** Concrete modules used to exercise the statements

    The keys are built by the constructor, each on a symbol of its own.  The
    user state is a counter; [fresh_object] returns a new object at every
    call. *)

Definition ConfigKey : ServiceKey := (new_ServiceKey "Config" 1).1.
Definition LoggerKey : ServiceKey := (new_ServiceKey "Logger" 2).1.
Definition AppKey : ServiceKey := (new_ServiceKey "App" 3).1.
Definition CacheKey : ServiceKey := (new_ServiceKey "Cache" 4).1.

Definition fresh_object : Initializer nat := λ _ w, (Normal (JObj w), S w).
Definition no_teardown : Teardown nat := λ _ w, (Normal tt, w).

Definition configFactory : ServiceFactory nat :=
  singleton 0 None ConfigKey [] fresh_object no_teardown.
Definition loggerFactory : ServiceFactory nat :=
  singleton 1 None LoggerKey [ConfigKey] fresh_object no_teardown.
Definition appFactory : ServiceFactory nat :=
  oneShot 2 AppKey [ConfigKey; LoggerKey] fresh_object.

(** An alternative provider of [ConfigKey], appended to override the first. *)
Definition configOverride : ServiceFactory nat :=
  singleton 3 None ConfigKey [] fresh_object no_teardown.

(** A provider of [ConfigKey] that depends on itself and on a key nothing
    provides. *)
Definition brokenConfig : ServiceFactory nat :=
  singleton 4 None ConfigKey [ConfigKey; CacheKey] fresh_object no_teardown.

Definition selfishApp : ServiceFactory nat :=
  oneShot 5 AppKey [AppKey] fresh_object.
Definition orphanLogger : ServiceFactory nat :=
  singleton 6 None LoggerKey [ConfigKey] fresh_object no_teardown.
Definition orphanApp : ServiceFactory nat :=
  oneShot 7 AppKey [CacheKey] fresh_object.

Definition baseModule : ServiceModule nat :=
  {| factories := [configFactory; loggerFactory] |}.

(** A base module, the application, and an override of the configuration. *)
Definition overrideEntries : list (Entry nat) :=
  [ModuleEntry baseModule; FactoryEntry appFactory; FactoryEntry configOverride].
Definition overrideModule : ServiceModule nat :=
  {| factories := [configOverride; loggerFactory; appFactory] |}.

Definition selfishEntries : list (Entry nat) :=
  [FactoryEntry configFactory; FactoryEntry selfishApp].
Definition twoViolations : list (Entry nat) :=
  [FactoryEntry orphanLogger; FactoryEntry selfishApp].
Definition orphanEntries : list (Entry nat) := [FactoryEntry appFactory].
Definition twoOrphans : list (Entry nat) :=
  [FactoryEntry orphanLogger; FactoryEntry orphanApp].
Definition repairedEntries : list (Entry nat) :=
  [FactoryEntry brokenConfig; FactoryEntry configOverride].

(** The module of the README. *)
Definition readmeEntries : list (Entry nat) :=
  [FactoryEntry configFactory; FactoryEntry loggerFactory; FactoryEntry appFactory].
Definition readmeModule : ServiceModule nat :=
  {| factories := [configFactory; loggerFactory; appFactory] |}.

(** A singleton whose initializer returns [undefined], as a service
    of type [void] does. *)
Definition VoidKey : ServiceKey := (new_ServiceKey "Void" 5).1.
Definition voidFactory : ServiceFactory nat :=
  singleton 10 None VoidKey [] (λ _ w, (Normal JUndefined, S w)) no_teardown.
Definition voidModule : ServiceModule nat := {| factories := [voidFactory] |}.

(** A singleton depending on a one-shot service whose initializer succeeds
    the first time only, next to a service whose initializer always throws. *)
Definition ProbeKey : ServiceKey := (new_ServiceKey "Probe" 6).1.
Definition StoreKey : ServiceKey := (new_ServiceKey "Store" 7).1.
Definition BadKey : ServiceKey := (new_ServiceKey "Bad" 8).1.
Definition MainKey : ServiceKey := (new_ServiceKey "Main" 9).1.

Definition probeFactory : ServiceFactory nat :=
  oneShot 20 ProbeKey []
    (λ _ w, (if decide (w = 0) then Normal (JObj 100)
             else Throw (Thrown (JStr "unavailable")), S w)).
Definition storeFactory : ServiceFactory nat :=
  singleton 21 None StoreKey [ProbeKey] fresh_object no_teardown.
Definition badFactory : ServiceFactory nat :=
  oneShot 22 BadKey [] (λ _ w, (Throw (Thrown (JStr "boom")), S w)).
Definition mainFactory : ServiceFactory nat :=
  oneShot 23 MainKey [StoreKey; BadKey] fresh_object.
Definition flakyEntries : list (Entry nat) :=
  [FactoryEntry probeFactory; FactoryEntry storeFactory; FactoryEntry badFactory;
   FactoryEntry mainFactory].
Definition flakyModule : ServiceModule nat :=
  {| factories := [probeFactory; storeFactory; badFactory; mainFactory] |}.

(** Two services that depend on each other. *)
Definition PingKey : ServiceKey := (new_ServiceKey "Ping" 10).1.
Definition PongKey : ServiceKey := (new_ServiceKey "Pong" 11).1.
Definition pingFactory : ServiceFactory nat := oneShot 40 PingKey [PongKey] fresh_object.
Definition pongFactory : ServiceFactory nat := oneShot 41 PongKey [PingKey] fresh_object.
Definition cyclicEntries : list (Entry nat) := [FactoryEntry pingFactory; FactoryEntry pongFactory].
Definition cyclicModule : ServiceModule nat := {| factories := [pingFactory; pongFactory] |}.

(** Two scopes, one singleton in each, and a one-shot service. *)
Definition requestScope : ServiceScope := (new_ServiceScope "request" 1).1.
Definition sessionScope : ServiceScope := (new_ServiceScope "session" 2).1.
Definition recording_teardown : Teardown nat := λ _ w, (Normal tt, w + 100).
Definition requestFactory : ServiceFactory nat :=
  singleton 30 (Some requestScope) ConfigKey [] fresh_object recording_teardown.
Definition sessionFactory : ServiceFactory nat :=
  singleton 31 (Some sessionScope) LoggerKey [] fresh_object recording_teardown.
Definition scopedApp : ServiceFactory nat :=
  oneShot 32 AppKey [ConfigKey; LoggerKey] fresh_object.
Definition scopedModule : ServiceModule nat :=
  {| factories := [requestFactory; sessionFactory; scopedApp] |}.

(** The state right after the synchronous part of [get]. *)
Definition called (m : ServiceModule nat) (key : ServiceKey) (sys : Sys nat) : Sys nat :=
  match get (S (length (factories m))) m key sys with
  | Some (_, sys') => sys'
  | None => sys
  end.

(** The state a resolution ends in. *)
Definition resolved (m : ServiceModule nat) (key : ServiceKey) (sys : Sys nat) : Sys nat :=
  match resolve m key sys with
  | Some (_, sys') => sys'
  | None => sys
  end.

(** The state an explicit schedule ends in. *)
Definition ran (schedule : list nat) (sys : Sys nat) : Sys nat :=
  default sys (run schedule sys).

(** The resolution of [MainKey] allocates the promises 0 (probe), 1 (store),
    2 (bad) and 3 (main); the continuations run in the order in which they
    become ready: the probe, the failing service, the store up to its
    [await], the rejection of the main call, the rest of the store. *)
Definition failingSchedule : list nat := [0; 2; 1; 3; 1].
Definition afterFailure : Sys nat :=
  ran failingSchedule (called flakyModule MainKey (empty_sys 0)).

(** The resolution of [AppKey] in the module of the README allocates the
    promises 0 and 1 for the two calls on [ConfigKey], 2 for the logger and 3
    for the application; the continuations run in the order in which they
    become ready, so that both calls on [ConfigKey] reach the test of the
    cache before either has stored its instance. *)
Definition racingSchedule : list nat := [0; 1; 0; 1; 2; 2; 3].

(** The module of the README once that resolution has run to its end. *)
Definition readmeRaced : Sys nat :=
  ran racingSchedule (called readmeModule AppKey (empty_sys 0)).
Definition scopedResolved : Sys nat := resolved scopedModule AppKey (empty_sys 0).
Definition scopedDisposed : Sys nat :=
  (dispose scopedModule (Some requestScope) scopedResolved).2.

(** Options that give a title and nothing else. *)
Definition titleOnly : DotGraphOptions :=
  {| direction := None; title := Some "Services"; highlightLeaves := None;
     highlightRoots := None |}.

(** A name with a double quote, a backslash and a line feed in it. *)
Definition oddName : string := "a" +:+ quote +:+ "b" +:+ backslash +:+ newline +:+ "c".

(** Three singletons, the second with a teardown that throws, and a service
    that depends on the three. *)
Definition busy_teardown : Teardown nat := λ _ w, (Throw (Thrown (JStr "busy")), S w).
Definition lockedFactory : ServiceFactory nat :=
  singleton 33 None ConfigKey [] fresh_object busy_teardown.
Definition cacheFactory : ServiceFactory nat :=
  singleton 34 None CacheKey [] fresh_object recording_teardown.
Definition lockedApp : ServiceFactory nat :=
  oneShot 35 AppKey [LoggerKey; ConfigKey; CacheKey] fresh_object.
Definition lockedModule : ServiceModule nat :=
  {| factories := [sessionFactory; lockedFactory; cacheFactory; lockedApp] |}.
Definition lockedResolved : Sys nat := resolved lockedModule AppKey (empty_sys 0).

(** The resolution of [ConfigKey] in the module of the README, stopped when
    the user initializer has been called and the wrapper is at its [await]. *)
Definition initializing : Sys nat := ran [0] (called readmeModule ConfigKey (empty_sys 0)).

(** A singleton whose initializer throws. *)
Definition DownKey : ServiceKey := (new_ServiceKey "Down" 12).1.
Definition downFactory : ServiceFactory nat :=
  singleton 36 None DownKey [] (λ _ w, (Throw (Thrown (JStr "down")), S w)) no_teardown.

(** The resolution of [MainKey] in the flaky module when the failing
    service has thrown and the store has not started. *)
Definition halfFailed : Sys nat := ran [2] (called flakyModule MainKey (empty_sys 0)).

(** The services of the README once more, under keys of their own and with
    other lifetimes. *)
Definition TwinConfigKey : ServiceKey := (new_ServiceKey "Config" 13).1.
Definition TwinLoggerKey : ServiceKey := (new_ServiceKey "Logger" 14).1.
Definition TwinAppKey : ServiceKey := (new_ServiceKey "App" 15).1.
Definition twinConfig : ServiceFactory nat := oneShot 50 TwinConfigKey [] fresh_object.
Definition twinLogger : ServiceFactory nat :=
  oneShot 51 TwinLoggerKey [TwinConfigKey] fresh_object.
Definition twinApp : ServiceFactory nat :=
  singleton 52 (Some requestScope) TwinAppKey [TwinConfigKey; TwinLoggerKey] fresh_object
    recording_teardown.
Definition twinEntries : list (Entry nat) :=
  [FactoryEntry twinConfig; FactoryEntry twinLogger; FactoryEntry twinApp].
Definition twinModule : ServiceModule nat :=
  {| factories := [twinConfig; twinLogger; twinApp] |}.

(** The module of two services that are both named Config, under keys of
    their own, and of a service that depends on the first of them. *)
Definition homonymEntries : list (Entry nat) :=
  [FactoryEntry configFactory; FactoryEntry loggerFactory; FactoryEntry twinConfig].
Definition homonymModule : ServiceModule nat :=
  {| factories := [configFactory; loggerFactory; twinConfig] |}.

(** * Properties *)

(** ** Lines of a message *)

Lemma split_lines_free s : newline_free s → split_lines s = [s].
Proof.
  induction s as [|c s IH]; [done|]. simpl. intros [Hc Hs].
  rewrite decide_False by done. by rewrite IH.
Qed.

Lemma split_lines_append a b :
  newline_free a → split_lines (a +:+ newline +:+ b) = a :: split_lines b.
Proof.
  induction a as [|c a IH]; simpl.
  - intros _. done.
  - intros [Hc Ha]. rewrite decide_False by done. by rewrite IH.
Qed.

Lemma append_assoc (a b c : string) : (a +:+ b) +:+ c = a +:+ (b +:+ c).
Proof.
  induction a as [|x a IH]; [done|].
  change ((String x a +:+ b) +:+ c) with (String x ((a +:+ b) +:+ c)).
  by rewrite IH.
Qed.

Lemma newline_free_append a b : newline_free a → newline_free b → newline_free (a +:+ b).
Proof. induction a as [|c a IH]; simpl; [done|]. intros [? ?] ?. auto. Qed.

Lemma split_lines_concat l ls :
  Forall newline_free (l :: ls) → split_lines (String.concat newline (l :: ls)) = l :: ls.
Proof.
  revert l. induction ls as [|l' ls IH]; intros l Hall.
  - simpl. apply split_lines_free. by apply Forall_inv in Hall.
  - apply Forall_cons in Hall as [Hl Hall].
    change (String.concat newline (l :: l' :: ls))
      with (l +:+ newline +:+ String.concat newline (l' :: ls)).
    rewrite split_lines_append by done. by rewrite IH.
Qed.

Lemma concat_indent_first l ls :
  " " +:+ String.concat newline (l :: ls) = String.concat newline (indent_first (l :: ls)).
Proof. destruct ls; done. Qed.

(** ** Validation and composition *)

Section Construction.

Context {World : Type}.

Implicit Types (f g : ServiceFactory World) (fs : list (ServiceFactory World))
  (m : ServiceModule World) (entries : list (Entry World)) (K : ServiceKey).

Lemma forEach_Normal {A} (body : A → Completion unit) (l : list A) :
  forEach body l = Normal tt ↔ ∀ x, x ∈ l → body x = Normal tt.
Proof.
  induction l as [|x l IH]; simpl.
  - split; [intros _ y Hy; inversion Hy | done].
  - destruct (body x) as [[]|e] eqn:Hx.
    + rewrite IH. split.
      * intros H y Hy. apply elem_of_cons in Hy as [->|Hy]; auto.
      * intros H y Hy. apply H. by right.
    + split; [done|]. intros H. specialize (H x (list_elem_of_here _ _)). congruence.
Qed.

Lemma forEach_Throw {A} (body : A → Completion unit) (l : list A) e :
  forEach body l = Throw e ↔
  ∃ pre x post, l = pre ++ x :: post ∧ (∀ y, y ∈ pre → body y = Normal tt) ∧ body x = Throw e.
Proof.
  induction l as [|x l IH]; simpl.
  - split; [done|]. intros (pre & y & post & H & _). by destruct pre.
  - destruct (body x) as [[]|e'] eqn:Hx.
    + rewrite IH. split.
      * intros (pre & y & post & -> & Hpre & Hy). exists (x :: pre), y, post.
        split_and!; [done| |done]. intros z Hz. apply elem_of_cons in Hz as [->|Hz]; auto.
      * intros (pre & y & post & Heq & Hpre & Hy). destruct pre as [|z pre].
        -- injection Heq as <- ->. congruence.
        -- injection Heq as <- ->. exists pre, y, post.
           split_and!; [done| |done]. intros w Hw. apply Hpre. by right.
    + split.
      * intros [= ->]. exists [], x, l. split_and!; [done| |done]. intros y Hy. inversion Hy.
      * intros (pre & y & post & Heq & Hpre & Hy). destruct pre as [|z pre].
        -- injection Heq as <- ->. congruence.
        -- injection Heq as <- ->. specialize (Hpre x (list_elem_of_here _ _)). congruence.
Qed.

Lemma byKey_snoc (l : list (ServiceFactory World)) f :
  byKey (l ++ [f]) = Map_set (sym f) f (byKey l).
Proof. unfold byKey. by rewrite fold_left_app. Qed.

Lemma Map_set_fst (mp : list (positive * ServiceFactory World)) k f x :
  x ∈ (Map_set k f mp).*1 → x = k ∨ x ∈ mp.*1.
Proof.
  induction mp as [|[k' v'] mp IH]; simpl.
  - intros Hx. apply list_elem_of_singleton in Hx. by left.
  - destruct (decide (k' = k)) as [->|Hne]; simpl; intros Hx;
      apply elem_of_cons in Hx as [->|Hx].
    + by left.
    + right. by right.
    + right. by left.
    + destruct (IH Hx); [by left|]. right. by right.
Qed.

Lemma Map_set_keyed mp f : keyed mp → keyed (Map_set (sym f) f mp).
Proof.
  intros [Hk Hnd]. induction mp as [|[k' v'] mp IH]; simpl.
  - split; [by repeat constructor|]. simpl. apply NoDup_singleton.
  - apply Forall_cons in Hk as [Hk1 Hk].
    simpl in Hnd. apply NoDup_cons in Hnd as [Hnotin Hnd].
    destruct (decide (k' = sym f)) as [->|Hne].
    + split; [by constructor|]. simpl. by apply NoDup_cons.
    + destruct (IH Hk Hnd) as [IH1 IH2]. split; [by constructor|].
      simpl. apply NoDup_cons. split; [|done].
      intros Hin. apply Map_set_fst in Hin as [?|?]; done.
Qed.

Lemma keyed_byKey (l : list (ServiceFactory World)) : keyed (byKey l).
Proof.
  induction l as [|f l IH] using rev_ind.
  - split; [constructor | apply NoDup_nil_2].
  - rewrite byKey_snoc. by apply Map_set_keyed.
Qed.

Lemma keyed_filter_absent mp s :
  keyed mp → s ∉ mp.*1 → filter (λ g, sym g = s) (Map_values mp) = [].
Proof.
  intros [Hk _] Hs. induction mp as [|[k v] mp IH]; [done|].
  apply Forall_cons in Hk as [Hk1 Hk]. simpl in *.
  apply not_elem_of_cons in Hs as [Hne Hs].
  rewrite filter_cons_False; [by apply IH|]. congruence.
Qed.

Lemma Map_set_filter mp f s :
  keyed mp →
  filter (λ g, sym g = s) (Map_values (Map_set (sym f) f mp)) =
  if decide (sym f = s) then [f] else filter (λ g, sym g = s) (Map_values mp).
Proof.
  intros Hkeyed. unfold Map_values. induction mp as [|[k v] mp IH]; simpl.
  - destruct (decide (sym f = s)); [by rewrite filter_cons_True | by rewrite filter_cons_False].
  - destruct Hkeyed as [Hk Hnd].
    apply Forall_cons in Hk as [Hk1 Hk]. simpl in Hk1, Hnd.
    apply NoDup_cons in Hnd as [Hnotin Hnd].
    destruct (decide (k = sym f)) as [->|Hne]; simpl.
    + destruct (decide (sym f = s)) as [<-|Hs].
      * rewrite filter_cons_True; [|done]. f_equal. by apply keyed_filter_absent.
      * rewrite filter_cons_False; [|done]. rewrite filter_cons_False; [done|congruence].
    + specialize (IH (conj Hk Hnd)). rewrite filter_cons, IH.
      destruct (decide (sym f = s)) as [<-|Hs].
      * rewrite decide_False; [done|congruence].
      * by rewrite filter_cons.
Qed.

(** Of the factories providing a symbol, deduplication keeps the last one
    of the flattened sequence and nothing else. *)
Lemma byKey_filter (l : list (ServiceFactory World)) s :
  filter (λ g, sym g = s) (Map_values (byKey l)) =
  option_list (last (filter (λ g, sym g = s) l)).
Proof.
  induction l as [|f l IH] using rev_ind; [done|].
  rewrite byKey_snoc, Map_set_filter by apply keyed_byKey.
  rewrite filter_app. destruct (decide (sym f = s)) as [Hs|Hs].
  - rewrite filter_cons_True, filter_nil by done. by rewrite last_snoc.
  - rewrite filter_cons_False, filter_nil, app_nil_r by done. done.
Qed.

Lemma find_isSuitable K fs :
  find (isSuitable K) fs = head (filter (λ g, sym g = symbol K) fs).
Proof.
  induction fs as [|f fs IH]; [done|]. simpl. unfold isSuitable at 1.
  rewrite filter_cons. fold (sym f). case_bool_decide; [by rewrite decide_True|]. rewrite decide_False by done. exact IH.
Qed.

Lemma isRegistered_true K fs : isRegistered K fs = true ↔ registered K fs.
Proof.
  unfold isRegistered, registered. rewrite existsb_exists. split.
  - intros (g & Hg & Hs). exists g. apply list_elem_of_In in Hg.
    by apply bool_decide_eq_true in Hs.
  - intros (g & Hg & Hs). exists g. split; [by apply list_elem_of_In|].
    by apply bool_decide_eq_true.
Qed.

Lemma isRegistered_false K fs : isRegistered K fs = false ↔ ¬ registered K fs.
Proof. rewrite <- isRegistered_true. by destruct (isRegistered K fs). Qed.

Lemma checkRecursiveDependencies_Throw f :
  self_dependent f → checkRecursiveDependencies f = Throw (Error (recursive_message f)).
Proof.
  intros Hself. unfold checkRecursiveDependencies.
  destruct (existsb _ _) eqn:Hex; [done|].
  assert (existsb (λ d, bool_decide (d = provides f)) (dependsOn f) = true) as Hcontra; [|congruence].
  apply existsb_exists. exists (provides f). split; [by apply list_elem_of_In|by apply bool_decide_eq_true].
Qed.

Lemma checkRecursiveDependencies_Normal f :
  ¬ self_dependent f → checkRecursiveDependencies f = Normal tt.
Proof.
  intros Hself. unfold checkRecursiveDependencies.
  destruct (existsb _ _) eqn:Hex; [|done]. exfalso. apply Hself.
  apply existsb_exists in Hex as (d & Hd & Heq).
  apply bool_decide_eq_true in Heq as ->. by apply list_elem_of_In.
Qed.

Lemma elem_of_missingDependencies f fs k :
  k ∈ missingDependencies f fs ↔ k ∈ dependsOn f ∧ ¬ registered k fs.
Proof.
  unfold missingDependencies. rewrite list_elem_of_filter, isRegistered_false. tauto.
Qed.

Lemma missingDependencies_nil f fs :
  missingDependencies f fs = [] ↔ ∀ k, k ∈ dependsOn f → registered k fs.
Proof.
  split.
  - intros Hnil k Hk. destruct (isRegistered k fs) eqn:Hreg; [by apply isRegistered_true|].
    assert (k ∈ missingDependencies f fs) as Hin.
    { apply elem_of_missingDependencies. split; [done|]. by apply isRegistered_false. }
    rewrite Hnil in Hin. inversion Hin.
  - intros Hall. destruct (missingDependencies f fs) as [|k l] eqn:Hm; [done|].
    assert (k ∈ missingDependencies f fs) as Hin by (rewrite Hm; left).
    apply elem_of_missingDependencies in Hin as [Hk Hnot]. destruct Hnot. auto.
Qed.

Lemma check_Normal fs f : check fs f = Normal tt ↔ valid_in fs f.
Proof.
  unfold check, valid_in. split.
  - destruct (decide (self_dependent f)) as [Hs|Hs].
    + by rewrite checkRecursiveDependencies_Throw.
    + rewrite checkRecursiveDependencies_Normal by done.
      unfold checkMissingDependencies. simpl. case_decide as Hlen; [|done].
      intros _. split; [done|]. apply missingDependencies_nil. by apply length_zero_iff_nil.
  - intros [Hs Hreg]. rewrite checkRecursiveDependencies_Normal by done.
    unfold checkMissingDependencies. simpl.
    apply missingDependencies_nil in Hreg. rewrite Hreg. done.
Qed.

Lemma check_self_dependent fs f :
  self_dependent f → check fs f = Throw (Error (recursive_message f)).
Proof. intros Hs. unfold check. by rewrite checkRecursiveDependencies_Throw. Qed.

Lemma check_missing fs f :
  ¬ self_dependent f → missingDependencies f fs ≠ [] →
  check fs f = Throw (Error (missing_message f (missingDependencies f fs))).
Proof.
  intros Hs Hm. unfold check. rewrite checkRecursiveDependencies_Normal by done.
  unfold checkMissingDependencies. simpl. case_decide as Hlen; [|done].
  by apply length_zero_iff_nil in Hlen.
Qed.

Lemma new_ServiceModule_Normal fs :
  (∀ f, f ∈ fs → valid_in fs f) → new_ServiceModule fs = Normal {| factories := fs |}.
Proof.
  intros Hall. unfold new_ServiceModule.
  assert (forEach (check fs) fs = Normal tt) as ->; [|done].
  apply forEach_Normal. intros f Hf. apply check_Normal. auto.
Qed.

Lemma new_ServiceModule_inv fs m :
  new_ServiceModule fs = Normal m →
  m = {| factories := fs |} ∧ ∀ f, f ∈ fs → valid_in fs f.
Proof.
  unfold new_ServiceModule. destruct (forEach _ _) as [[]|e] eqn:Hfe; [|done].
  intros [= <-]. split; [done|]. intros f Hf. apply check_Normal.
  by eapply forEach_Normal in Hfe.
Qed.

(** The constructor reports the first factory, in list order, that fails a
    check, and only that one. *)
Lemma new_ServiceModule_first_violation pre f post e :
  (∀ g, g ∈ pre → valid_in (pre ++ f :: post) g) →
  check (pre ++ f :: post) f = Throw e →
  new_ServiceModule (pre ++ f :: post) = Throw e.
Proof.
  intros Hpre Hf. unfold new_ServiceModule.
  assert (forEach (check (pre ++ f :: post)) (pre ++ f :: post) = Throw e) as ->; [|done].
  apply forEach_Throw. exists pre, f, post. split_and!; [done| |done].
  intros g Hg. apply check_Normal. auto.
Qed.

Lemma new_ServiceModule_invalid fs f :
  f ∈ fs → ¬ valid_in fs f → ∃ e, new_ServiceModule fs = Throw e.
Proof.
  intros Hf Hinv. destruct (new_ServiceModule fs) as [m|e] eqn:Hnew; [|by eauto].
  apply new_ServiceModule_inv in Hnew as [_ Hall]. destruct Hinv. auto.
Qed.

Lemma elem_of_survivors entries f :
  f ∈ survivors entries ↔ last (filter (λ g, sym g = sym f) (flatten entries)) = Some f.
Proof.
  unfold survivors. split.
  - intros Hf.
    assert (f ∈ filter (λ g, sym g = sym f) (Map_values (byKey (flatten entries)))) as Hin.
    { by apply list_elem_of_filter. }
    rewrite byKey_filter in Hin. destruct (last _) as [g|]; simpl in Hin.
    + apply list_elem_of_singleton in Hin. by subst.
    + inversion Hin.
  - intros Hlast.
    assert (f ∈ filter (λ g, sym g = sym f) (Map_values (byKey (flatten entries)))) as Hin.
    { rewrite byKey_filter, Hlast. simpl. left. }
    by apply list_elem_of_filter in Hin as [_ Hin].
Qed.

Lemma from_Normal_factories entries m :
  from entries = Normal m → factories m = survivors entries.
Proof. intros Hm. by apply new_ServiceModule_inv in Hm as [-> _]. Qed.

Lemma get_sync_callee fuel fs K ps p ps' f :
  get_sync fuel fs K ps = Some (p, ps') →
  find (isSuitable K) fs = Some f →
  ∃ ds, ps' !! p = Some {| callee := Some f; status := Waiting; deps := ds |}.
Proof.
  destruct fuel as [|fuel]; [done|]. simpl. intros Hget Hfind. rewrite Hfind in Hget.
  destruct (get_each _ _ _) as [[ds ps1]|]; [|done]. injection Hget as <- <-.
  exists ds. by rewrite list_lookup_middle.
Qed.

(** Keys built by the constructor: every call allocates its own symbol. *)
Lemma new_ServiceKey_symbol n fresh :
  symbol (new_ServiceKey n fresh).1 = fresh ∧ (fresh < (new_ServiceKey n fresh).2)%positive.
Proof. split; [done|]. simpl. lia. Qed.

(** [checkRecursiveDependencies] compares key objects, [isSuitable] compares
    symbols.  Among keys that have one symbol each, as the keys the
    constructor builds, a dependency with the symbol of [provides] is
    [provides] itself. *)
Lemma self_dependent_by_symbol f k :
  (∀ k', k' ∈ dependsOn f → symbol k' = symbol (provides f) → k' = provides f) →
  k ∈ dependsOn f → symbol k = symbol (provides f) → self_dependent f.
Proof. intros Hkeys Hk Hsym. unfold self_dependent. by rewrite <- (Hkeys k Hk Hsym). Qed.

(** C4, as the code has it.  A module whose deduplicated factory list holds a
    factory with its own [provides] key among its [dependsOn] is never
    created: [from] throws.  The error is the one of the first factory, in
    list order, that fails a check; it is the recursive-dependency error
    naming this factory when every factory before it passes both checks. *)
Theorem self_dependency_rejected entries f :
  f ∈ survivors entries →
  provides f ∈ dependsOn f →
  (∃ e, from entries = Throw e) ∧
  ∀ pre post,
    survivors entries = pre ++ f :: post →
    (∀ g, g ∈ pre → valid_in (survivors entries) g) →
    from entries =
      Throw (Error ("Recursive dependency detected on: " +:+ name (provides f))).
Proof.
  intros Hf Hself. split.
  - apply (new_ServiceModule_invalid _ f); [done|]. by intros [Hno _].
  - intros pre post Hsplit Hpre. unfold from. fold (survivors entries).
    rewrite Hsplit in Hpre |- *.
    apply new_ServiceModule_first_violation; [done|]. by apply check_self_dependent.
Qed.

Lemma split_lines_missing_message f (missing : list ServiceKey) :
  missing ≠ [] →
  newline_free (name (provides f)) →
  Forall (λ k, newline_free (name k)) missing →
  split_lines (missing_message f missing) =
    (name (provides f) +:+ " will fail because it depends on:")
      :: indent_first (map (λ k, " -> " +:+ name k) missing).
Proof.
  intros Hne Hname Hall. destruct missing as [|k missing]; [done|].
  unfold missing_message. rewrite map_cons, concat_indent_first.
  rewrite <- append_assoc, split_lines_append.
  - f_equal. apply split_lines_concat. simpl.
    apply Forall_cons in Hall as [Hk Hall]. constructor.
    + repeat split; try done.
    + apply Forall_map. eapply Forall_impl; [exact Hall|].
      intros k' Hk'. simpl. repeat split; try done.
  - by apply newline_free_append.
Qed.

(** C3, as the code has it.  A module whose deduplicated factory list holds a
    factory depending on a key that no factory of the list provides is never
    created: [from] throws.  The error is the one of the first factory, in
    list order, that fails a check.  When every factory before this one
    passes both checks and this one does not depend on its own key, the
    message starts with the name of the service this factory provides and
    goes on with one line per missing dependency, all of them, in
    [dependsOn] order. *)
Theorem missing_dependencies_reported entries f k :
  f ∈ survivors entries →
  k ∈ dependsOn f →
  ¬ registered k (survivors entries) →
  (∃ e, from entries = Throw e) ∧
  ∀ pre post,
    survivors entries = pre ++ f :: post →
    (∀ g, g ∈ pre → valid_in (survivors entries) g) →
    ¬ self_dependent f →
    ∃ missing,
      from entries = Throw (Error (missing_message f missing)) ∧
      (∀ k', k' ∈ missing ↔ k' ∈ dependsOn f ∧ ¬ registered k' (survivors entries)) ∧
      (newline_free (name (provides f)) →
       Forall (λ k', newline_free (name k')) missing →
       split_lines (missing_message f missing) =
         (name (provides f) +:+ " will fail because it depends on:")
           :: indent_first (map (λ k', " -> " +:+ name k') missing)).
Proof.
  intros Hf Hk Hunreg.
  assert (k ∈ missingDependencies f (survivors entries)) as Hmiss.
  { by apply elem_of_missingDependencies. }
  assert (missingDependencies f (survivors entries) ≠ []) as Hne.
  { intros Hnil. rewrite Hnil in Hmiss. inversion Hmiss. }
  split.
  - apply (new_ServiceModule_invalid _ f); [done|]. intros [_ Hreg]. auto.
  - intros pre post Hsplit Hpre Hself.
    exists (missingDependencies f (survivors entries)). split_and!.
    + unfold from. fold (survivors entries). rewrite Hsplit at 1.
      apply new_ServiceModule_first_violation; rewrite <- Hsplit; [done|].
      by apply check_missing.
    + intros k'. apply elem_of_missingDependencies.
    + by apply split_lines_missing_message.
Qed.

(** C10. [from] validates the deduplicated list only: it returns the module
    of the surviving factories as soon as each of them passes both checks,
    whatever the overridden entries depend on.  A factory survives exactly
    when it is the last of the flattened sequence to provide its key. *)
Theorem from_validates_survivors_only entries :
  (∀ f, f ∈ survivors entries → valid_in (survivors entries) f) →
  from entries = Normal {| factories := survivors entries |} ∧
  ∀ f, f ∈ survivors entries ↔
       last (filter (λ g, sym g = sym f) (flatten entries)) = Some f.
Proof.
  intros Hall. split.
  - by apply new_ServiceModule_Normal.
  - apply elem_of_survivors.
Qed.

End Construction.

(** ** Resolution *)

Section Resolution.

Context {World : Type}.

Implicit Types (fs : list (ServiceFactory World)) (ps : list (Promise World)).
Implicit Types (f g : ServiceFactory World) (pr : Promise World).

Lemma resume_Resumed p (sys sys' : Sys World) :
  resume p sys = Some sys' ↔ Resumed p sys sys'.
Proof.
  split.
  - unfold resume. destruct (promises sys !! p) as [pr|] eqn:Hp; [|done].
    destruct (callee pr) as [f|] eqn:Hf; [|done].
    destruct (status pr) as [|r|v|e] eqn:Hst; [| |done|done].
    + destruct (Promise_all _ _) as [[args|e]|] eqn:Hall; [| |done].
      * unfold initialize_begin, call_user_initialize.
        destruct (lifetime f) as [ud|] eqn:Hlt.
        -- change (instance f (record (EvInitialize p (fid f) args) sys))
             with (instance f sys).
           case_decide as Hinst.
           ++ simpl. destruct (user_initialize f args (world sys)) as [r w] eqn:Hu.
              intros [= <-]. by eapply resumed_invoke.
           ++ intros [= <-]. by eapply resumed_cached.
        -- simpl. destruct (user_initialize f args (world sys)) as [r w] eqn:Hu.
           intros [= <-]. by eapply resumed_one_shot.
      * intros [= <-]. by eapply resumed_abort.
    + destruct r as [v|e]; simpl; intros [= <-].
      * by eapply resumed_store.
      * by eapply resumed_fail.
  - intros H. unfold resume. destruct H as [pr f e Hp Hf Hst Hall | pr f args r w Hp Hf Hst Hall Hlt Hu
      | pr f args r w ud Hp Hf Hst Hall Hlt Hinst Hu | pr f args ud Hp Hf Hst Hall Hlt Hinst
      | pr f v Hp Hf Hst | pr f e Hp Hf Hst]; rewrite Hp, Hf, Hst; try rewrite Hall; try done.
    + unfold initialize_begin, call_user_initialize. rewrite Hlt. simpl. by rewrite Hu.
    + unfold initialize_begin, call_user_initialize. rewrite Hlt.
      change (instance f (record (EvInitialize p (fid f) args) sys)) with (instance f sys).
      rewrite decide_True by done. simpl. by rewrite Hu.
    + unfold initialize_begin. rewrite Hlt.
      change (instance f (record (EvInitialize p (fid f) args) sys)) with (instance f sys).
      by rewrite decide_False.
Qed.

(** What every step does to the table: one unsettled promise moves on. *)
Lemma Resumed_promises p (sys sys' : Sys World) :
  Resumed p sys sys' →
  ∃ pr st,
    promises sys !! p = Some pr ∧ is_Some (callee pr) ∧ unsettled (status pr) ∧
    st ≠ Waiting ∧ promises sys' = alter (with_status st) p (promises sys).
Proof.
  intros [pr f e Hp Hf Hst Hall | pr f args r w Hp Hf Hst Hall Hlt Hu
    | pr f args r w ud Hp Hf Hst Hall Hlt Hinst Hu | pr f args ud Hp Hf Hst Hall Hlt Hinst
    | pr f v Hp Hf Hst | pr f e Hp Hf Hst];
    eexists pr, _; (split_and!; [done|by rewrite Hf|by rewrite Hst| |reflexivity]); try done.
  by destruct r.
Qed.

Lemma Resumed_lookup_ne p q (sys sys' : Sys World) :
  Resumed p sys sys' → q ≠ p → promises sys' !! q = promises sys !! q.
Proof.
  intros (pr & st & _ & _ & _ & _ & ->)%Resumed_promises Hne.
  by apply list_lookup_alter_ne.
Qed.

Lemma Resumed_lookup p q (sys sys' : Sys World) pr :
  Resumed p sys sys' → promises sys !! q = Some pr →
  ∃ pr', promises sys' !! q = Some pr' ∧ callee pr' = callee pr ∧ deps pr' = deps pr ∧
         (status pr' = status pr ∨
          (q = p ∧ unsettled (status pr) ∧ status pr' ≠ Waiting)).
Proof.
  intros Hstep Hq. destruct (decide (q = p)) as [->|Hne].
  - apply Resumed_promises in Hstep as (pr0 & st & Hp & _ & Hun & Hst & ->).
    rewrite Hq in Hp. injection Hp as <-.
    exists (with_status st pr). rewrite list_lookup_alter, decide_True, Hq by done.
    split_and!; auto.
  - exists pr. rewrite (Resumed_lookup_ne p q sys sys') by done. split_and!; auto.
Qed.

Lemma Resumed_lookup_inv p q (sys sys' : Sys World) pr' :
  Resumed p sys sys' → promises sys' !! q = Some pr' →
  ∃ pr, promises sys !! q = Some pr ∧ callee pr' = callee pr ∧ deps pr' = deps pr ∧
        (q ≠ p → status pr' = status pr).
Proof.
  intros Hstep Hq. destruct (decide (q = p)) as [->|Hne].
  - apply Resumed_promises in Hstep as (pr0 & st & Hp & _ & Hun & _ & Heq).
    rewrite Heq, list_lookup_alter, decide_True, Hp in Hq by done. injection Hq as <-.
    exists pr0. split_and!; auto. done.
  - exists pr'. rewrite <- (Resumed_lookup_ne p q sys sys') by done. split_and!; auto.
Qed.

Lemma Resumed_length p (sys sys' : Sys World) :
  Resumed p sys sys' → length (promises sys') = length (promises sys).
Proof.
  intros (pr & st & _ & _ & _ & _ & ->)%Resumed_promises. apply length_alter.
Qed.

Lemma Resumed_fulfilled_value p q v (sys sys' : Sys World) :
  Resumed p sys sys' →
  fulfilled_value (promises sys) q = Some v → fulfilled_value (promises sys') q = Some v.
Proof.
  intros Hstep. unfold fulfilled_value, status_of.
  destruct (promises sys !! q) as [pr|] eqn:Hq; [|done]. simpl.
  destruct (Resumed_lookup p q sys sys' pr Hstep Hq) as (pr' & -> & _ & _ & Hst). simpl.
  destruct Hst as [->|(_ & Hun & _)]; [done|]. by destruct (status pr).
Qed.

Lemma Resumed_rejection p q e (sys sys' : Sys World) :
  Resumed p sys sys' →
  rejection (promises sys) q = Some e → rejection (promises sys') q = Some e.
Proof.
  intros Hstep. unfold rejection, status_of.
  destruct (promises sys !! q) as [pr|] eqn:Hq; [|done]. simpl.
  destruct (Resumed_lookup p q sys sys' pr Hstep Hq) as (pr' & -> & _ & _ & Hst). simpl.
  destruct Hst as [->|(_ & Hun & _)]; [done|]. by destruct (status pr).
Qed.

(** The log only grows. *)
Lemma Resumed_log p (sys sys' : Sys World) :
  Resumed p sys sys' → ∃ new, log sys' = log sys ++ new.
Proof.
  intros [pr f e Hp Hf Hst Hall | pr f args r w Hp Hf Hst Hall Hlt Hu
    | pr f args r w ud Hp Hf Hst Hall Hlt Hinst Hu | pr f args ud Hp Hf Hst Hall Hlt Hinst
    | pr f v Hp Hf Hst | pr f e Hp Hf Hst]; simpl;
    try (by exists []; rewrite app_nil_r); try (by eexists [_]);
    by eexists [_; _]; rewrite <- app_assoc.
Qed.

Lemma Resumed_log_mono p (sys sys' : Sys World) ev :
  Resumed p sys sys' → ev ∈ log sys → ev ∈ log sys'.
Proof.
  intros [new ->]%Resumed_log Hev. apply elem_of_app. by left.
Qed.

Lemma explained_mono (sys sys' : Sys World) q pr pr' f :
  (∀ ev, ev ∈ log sys → ev ∈ log sys') →
  (∀ d e, rejection (promises sys) d = Some e → rejection (promises sys') d = Some e) →
  status pr' = status pr → deps pr' = deps pr →
  explained sys q pr f → explained sys' q pr' f.
Proof.
  intros Hlog Hrej Hst Hdeps. unfold explained. rewrite Hst, Hdeps.
  destruct (status pr) as [|r|v|e]; [done|..].
  - intros (args & H). eauto.
  - intros [(args & H) (q' & args' & H' & Hq)]. split; eauto 6.
  - intros [(args & H)|(d & Hd & H)]; [left|right]; eauto.
Qed.

Lemma Promise_all_Normal (ps : list (Promise World)) ds args :
  Promise_all ps ds = Some (Normal args) →
  Forall2 (λ d a, fulfilled_value ps d = Some a) ds args.
Proof.
  unfold Promise_all. destruct (head _); [done|].
  destruct (mapM _ _) as [vs|] eqn:Hm; [|done]. intros [= <-]. by apply mapM_Some.
Qed.

Lemma Promise_all_Throw (ps : list (Promise World)) ds e :
  Promise_all ps ds = Some (Throw e) → ∃ d, d ∈ ds ∧ rejection ps d = Some e.
Proof.
  unfold Promise_all. destruct (head _) as [e'|] eqn:Hh.
  - intros [= <-]. apply head_Some_elem_of in Hh. apply list_elem_of_omap in Hh.
    destruct Hh as (d & Hd & He). eauto.
  - by destruct (mapM _ _).
Qed.

Lemma Resumed_lookup_self p (sys sys' : Sys World) :
  Resumed p sys sys' →
  ∃ pr pr', promises sys !! p = Some pr ∧ promises sys' !! p = Some pr' ∧
            callee pr' = callee pr ∧ deps pr' = deps pr ∧
            unsettled (status pr) ∧ status pr' ≠ Waiting.
Proof.
  intros (pr & st & Hp & _ & Hun & Hst & ->)%Resumed_promises.
  exists pr, (with_status st pr).
  rewrite list_lookup_alter, decide_True, Hp by done. split_and!; auto.
Qed.

(** The events a step adds: the call of [initialize] by the resumed
    continuation, and the call of the user function within it. *)
Lemma Resumed_event p (sys sys' : Sys World) ev :
  Resumed p sys sys' → ev ∈ log sys' →
  ev ∈ log sys ∨
  ∃ pr f args,
    promises sys !! p = Some pr ∧ callee pr = Some f ∧ status pr = Waiting ∧
    Promise_all (promises sys) (deps pr) = Some (Normal args) ∧
    EvInitialize p (fid f) args ∈ log sys' ∧
    (ev = EvInitialize p (fid f) args ∨ ∃ r, ev = EvUserInit p (fid f) args r).
Proof.
  intros [pr f e Hp Hf Hst Hall | pr f args r w Hp Hf Hst Hall Hlt Hu
    | pr f args r w ud Hp Hf Hst Hall Hlt Hinst Hu | pr f args ud Hp Hf Hst Hall Hlt Hinst
    | pr f v Hp Hf Hst | pr f e Hp Hf Hst]; simpl; intros Hev; auto.
  - apply elem_of_app in Hev as [Hev|Hev%list_elem_of_singleton];
      [apply elem_of_app in Hev as [Hev|Hev%list_elem_of_singleton]|]; [by left|..];
      right; exists pr, f, args; split_and!; eauto;
      apply elem_of_app; left; apply elem_of_app; right; apply list_elem_of_here.
  - apply elem_of_app in Hev as [Hev|Hev%list_elem_of_singleton];
      [apply elem_of_app in Hev as [Hev|Hev%list_elem_of_singleton]|]; [by left|..];
      right; exists pr, f, args; split_and!; eauto;
      apply elem_of_app; left; apply elem_of_app; right; apply list_elem_of_here.
  - apply elem_of_app in Hev as [Hev|Hev%list_elem_of_singleton]; [by left|].
    right. exists pr, f, args. split_and!; eauto.
    apply elem_of_app. right. apply list_elem_of_here.
Qed.

Lemma coherent_Resumed p (sys sys' : Sys World) :
  coherent sys → Resumed p sys sys' → coherent sys'.
Proof.
  intros Hcoh Hstep.
  pose proof (λ ev, Resumed_log_mono p sys sys' ev Hstep) as Hlog.
  pose proof (λ d e, Resumed_rejection p d e sys sys' Hstep) as Hrej.
  pose proof (λ d v, Resumed_fulfilled_value p d v sys sys' Hstep) as Hful.
  constructor.
  - intros q pr' Hq.
    destruct (Resumed_lookup_inv p q sys sys' pr' Hstep Hq) as (pr & Hq0 & _ & -> & _).
    by eapply coh_deps.
  - intros q pr' Hq Hnone.
    destruct (Resumed_lookup_inv p q sys sys' pr' Hstep Hq) as (pr & Hq0 & Hc & _ & Hst).
    rewrite Hc in Hnone. destruct (decide (q = p)) as [->|Hne].
    + apply Resumed_promises in Hstep as (pr0 & st & Hp & [f Hf] & _). congruence.
    + rewrite Hst by done. by eapply coh_not_found.
  - intros q c args Hev.
    destruct (Resumed_event p sys sys' _ Hstep Hev)
      as [Hold|(pr & f & args' & Hp & Hf & Hst & Hall & _ & [Heq|[r Heq]])]; [| |done].
    + destruct (coh_initialize sys Hcoh q c args Hold) as (pr & f & Hq & Hf & Hfid & Hst & Hargs).
      destruct (Resumed_lookup p q sys sys' pr Hstep Hq) as (pr' & Hq' & Hc & Hd & Hst').
      exists pr', f. split_and!; [done|congruence|done| |].
      * destruct Hst' as [->|(_ & _ & ?)]; done.
      * rewrite Hd. eapply Forall2_impl; [exact Hargs|]. eauto.
    + injection Heq as -> -> ->.
      destruct (Resumed_lookup_self p sys sys' Hstep)
        as (pr0 & pr' & Hp0 & Hp' & Hc & Hd & _ & Hst').
      rewrite Hp in Hp0. injection Hp0 as <-.
      exists pr', f. split_and!; [done|congruence|done|done|].
      rewrite Hd. apply Promise_all_Normal in Hall.
      eapply Forall2_impl; [exact Hall|]. eauto.
  - intros q c args r Hev.
    destruct (Resumed_event p sys sys' _ Hstep Hev)
      as [Hold|(pr & f & args' & Hp & Hf & Hst & Hall & Hinit & [Heq|[r' Heq]])]; [|done|].
    + apply Hlog. by eapply coh_user_init.
    + by injection Heq as -> -> -> ->.
  - intros q pr' f Hq Hf. destruct (decide (q = p)) as [->|Hne].
    + clear Hful.
      destruct Hstep as [pr f0 e Hp Hf0 Hst Hall | pr f0 args r w Hp Hf0 Hst Hall Hlt Hu
        | pr f0 args r w ud Hp Hf0 Hst Hall Hlt Hinst Hu
        | pr f0 args ud Hp Hf0 Hst Hall Hlt Hinst
        | pr f0 v Hp Hf0 Hst | pr f0 e Hp Hf0 Hst];
        simpl in Hq; rewrite list_lookup_alter, decide_True, Hp in Hq by done;
        injection Hq as <-; simpl in Hf; rewrite Hf0 in Hf; injection Hf as ->;
        unfold explained; simpl.
      * right. apply Promise_all_Throw in Hall as (d & Hd & He). eauto.
      * destruct r as [v|e]; simpl.
        -- split; [exists args|exists p, args; split; [|done]]; set_solver.
        -- left. exists args. set_solver.
      * exists args. set_solver.
      * split; [exists args; set_solver|].
        unfold instance in Hinst |- *.
        destruct (instances sys !! fid f) as [v|] eqn:Hv; [|done]. simpl in *.
        destruct (coh_cache sys Hcoh _ _ Hv Hinst) as (q & args' & Hev).
        exists q, args'. split; [set_solver|congruence].
      * pose proof (coh_status sys Hcoh p pr f Hp Hf0) as Hex.
        unfold explained in Hex. rewrite Hst in Hex. destruct Hex as [args Hev].
        split; [exists args; eapply coh_user_init; eauto|]. eauto.
      * pose proof (coh_status sys Hcoh p pr f Hp Hf0) as Hex.
        unfold explained in Hex. rewrite Hst in Hex. auto.
    + rewrite (Resumed_lookup_ne p q sys sys') in Hq by done.
      eapply explained_mono; [exact Hlog|exact Hrej|done|done|]. by eapply coh_status.
  - intros c v Hc Hv. clear Hful Hrej.
    destruct Hstep as [pr f0 e Hp Hf0 Hst Hall | pr f0 args r w Hp Hf0 Hst Hall Hlt Hu
      | pr f0 args r w ud Hp Hf0 Hst Hall Hlt Hinst Hu
      | pr f0 args ud Hp Hf0 Hst Hall Hlt Hinst
      | pr f0 v0 Hp Hf0 Hst | pr f0 e Hp Hf0 Hst]; simpl in Hc;
      try (destruct (coh_cache sys Hcoh c v Hc Hv) as (q & args' & Hev);
           exists q, args'; by apply Hlog).
    destruct (decide (c = fid f0)) as [->|Hne].
    + rewrite lookup_insert_eq in Hc. injection Hc as ->.
      pose proof (coh_status sys Hcoh p pr f0 Hp Hf0) as Hex.
      unfold explained in Hex. rewrite Hst in Hex. destruct Hex as [args Hev]. eauto.
    + rewrite lookup_insert_ne in Hc by done.
      destruct (coh_cache sys Hcoh c v Hc Hv) as (q & args' & Hev). eauto.
Qed.

(** *** The promises allocated by the synchronous part of [get] *)

Lemma node_ok_mono fs ps ps' lo lo' i pr :
  node_ok fs ps lo i pr → (∃ new, ps' = ps ++ new) → (lo' ≤ lo)%nat → node_ok fs ps' lo' i pr.
Proof.
  unfold node_ok. intros Hok [new ->] Hlo. destruct (callee pr) as [f|]; [|done].
  destruct Hok as [Hf Hds]. split; [done|].
  eapply Forall2_impl; [exact Hds|]. simpl. intros k d [Hd Hc]. split; [lia|].
  destruct (ps !! d) as [prd|] eqn:Hlk; [|done].
  by rewrite (lookup_app_l_Some _ _ _ _ Hlk).
Qed.

Lemma spawned_refl fs ps : spawned fs ps ps.
Proof.
  split; [exists []; by rewrite app_nil_r|].
  intros i pr Hi Hlk. apply lookup_lt_Some in Hlk. lia.
Qed.

Lemma spawned_trans fs ps ps1 ps2 :
  spawned fs ps ps1 → spawned fs ps1 ps2 → spawned fs ps ps2.
Proof.
  intros [[new1 ->] H1] [[new2 ->] H2]. split.
  - exists (new1 ++ new2). by rewrite app_assoc.
  - intros i pr Hi Hlk. destruct (decide (i < length (ps ++ new1))) as [Hlt|Hge].
    + rewrite lookup_app_l in Hlk by done. destruct (H1 i pr Hi Hlk) as [Hok Hst].
      split; [|done]. eapply node_ok_mono; [exact Hok|by eexists|done].
    + destruct (H2 i pr) as [Hok Hst]; [lia|done|]. split; [|done].
      eapply node_ok_mono; [exact Hok|by exists []; rewrite app_nil_r|].
      rewrite length_app. lia.
Qed.

Lemma get_each_spawned fs (get1 : ServiceKey → list (Promise World) → option (nat * list (Promise World))) :
  (∀ k ps p ps', get1 k ps = Some (p, ps') →
     spawned fs ps ps' ∧ (length ps ≤ p < length ps')%nat ∧
     callee <$> ps' !! p = Some (find (isSuitable k) fs)) →
  ∀ keys ps ds ps', get_each get1 keys ps = Some (ds, ps') →
     spawned fs ps ps' ∧
     Forall2 (λ k (d : nat), (length ps ≤ d < length ps')%nat ∧
                     callee <$> ps' !! d = Some (find (isSuitable k) fs)) keys ds.
Proof.
  intros Hget1 keys. induction keys as [|k keys IH]; simpl; intros ps ds ps' Heach.
  - injection Heach as <- <-. split; [apply spawned_refl|constructor].
  - destruct (get1 k ps) as [[p ps1]|] eqn:H1; [|done].
    destruct (get_each get1 keys ps1) as [[rest ps2]|] eqn:H2; [|done].
    injection Heach as <- <-.
    destruct (Hget1 _ _ _ _ H1) as (Hs1 & Hp & Hc).
    destruct (IH _ _ _ H2) as (Hs2 & Hrest).
    split; [by eapply spawned_trans|].
    destruct Hs1 as [[new1 ->] _]. destruct Hs2 as [[new2 ->] _].
    rewrite !length_app in *. constructor.
    + split; [lia|]. destruct ((ps ++ new1) !! p) as [prp|] eqn:Hlk; [|done].
      by rewrite (lookup_app_l_Some _ _ _ _ Hlk).
    + eapply Forall2_impl; [exact Hrest|]. simpl. intros k' d [Hd Hcd]. split; [lia|done].
Qed.

Lemma spawned_snoc fs ps ps1 pr :
  spawned fs ps ps1 →
  node_ok fs (ps1 ++ [pr]) (length ps) (length ps1) pr →
  status pr = Waiting ∨ callee pr = None →
  spawned fs ps (ps1 ++ [pr]).
Proof.
  intros [[new ->] Hnodes] Hok Hst. split.
  - exists (new ++ [pr]). by rewrite app_assoc.
  - intros i pr' Hi Hlk. destruct (decide (i < length (ps ++ new))%nat) as [Hlt|Hge].
    + rewrite lookup_app_l in Hlk by done. destruct (Hnodes i pr' Hi Hlk) as [Hok' Hst'].
      split; [|done]. eapply node_ok_mono; [exact Hok'|by eexists|done].
    + assert (i = length (ps ++ new)) as ->.
      { apply lookup_lt_Some in Hlk. rewrite length_app in Hlk. simpl in Hlk. lia. }
      rewrite list_lookup_middle in Hlk by done. by injection Hlk as <-.
Qed.

Lemma get_sync_spawned fuel fs K ps p ps' :
  get_sync fuel fs K ps = Some (p, ps') →
  spawned fs ps ps' ∧ (length ps ≤ p < length ps')%nat ∧
  callee <$> ps' !! p = Some (find (isSuitable K) fs).
Proof.
  revert K ps p ps'. induction fuel as [|fuel IH]; [done|]. simpl. intros K ps p ps'.
  destruct (find (isSuitable K) fs) as [f|] eqn:Hfind.
  - destruct (get_each _ _ _) as [[ds ps1]|] eqn:Heach; [|done]. intros [= <- <-].
    destruct (get_each_spawned fs _ IH _ _ _ _ Heach) as (Hs & Hds).
    assert (length ps ≤ length ps1)%nat as Hlen.
    { destruct Hs as [[new ->] _]. rewrite length_app. lia. }
    rewrite length_app. simpl. split_and!; [|lia|lia|by rewrite list_lookup_middle].
    apply spawned_snoc; [done| |by left]. unfold node_ok. simpl. split.
    + apply list_elem_of_In. by eapply find_some.
    + eapply Forall2_impl; [exact Hds|]. simpl. intros k d [Hd Hc]. split; [lia|].
      destruct (ps1 !! d) as [prd|] eqn:Hlk; [|done].
      by rewrite (lookup_app_l_Some _ _ _ _ Hlk).
  - intros [= <- <-]. rewrite length_app. simpl.
    split_and!; [|lia|lia|by rewrite list_lookup_middle].
    apply spawned_snoc; [apply spawned_refl| |by right]. unfold node_ok. simpl. eauto.
Qed.

Lemma status_of_app_l ps new d st :
  status_of ps d = Some st → status_of (ps ++ new) d = Some st.
Proof.
  unfold status_of. destruct (ps !! d) as [pr|] eqn:Hd; [|done].
  by rewrite (lookup_app_l_Some _ _ _ _ Hd).
Qed.

Lemma fulfilled_value_app_l ps new d v :
  fulfilled_value ps d = Some v → fulfilled_value (ps ++ new) d = Some v.
Proof.
  unfold fulfilled_value. destruct (status_of ps d) as [st|] eqn:Hst; [|done].
  by rewrite (status_of_app_l _ _ _ _ Hst).
Qed.

Lemma rejection_app_l ps new d e :
  rejection ps d = Some e → rejection (ps ++ new) d = Some e.
Proof.
  unfold rejection. destruct (status_of ps d) as [st|] eqn:Hst; [|done].
  by rewrite (status_of_app_l _ _ _ _ Hst).
Qed.

Lemma coherent_empty (w : World) : coherent (empty_sys w).
Proof.
  constructor; simpl; try done.
  - intros p c args H. inversion H.
  - intros p c args r H. inversion H.
Qed.

Lemma get_inv fuel (m : ServiceModule World) K (sys : Sys World) p sys' :
  get fuel m K sys = Some (p, sys') →
  ∃ ps', get_sync fuel (factories m) K (promises sys) = Some (p, ps') ∧
         sys' = set_promises ps' sys.
Proof.
  unfold get. destruct (get_sync _ _ _ _) as [[p' ps']|]; [|done].
  intros [= <- <-]. eauto.
Qed.

Lemma coherent_get fuel (m : ServiceModule World) K (sys : Sys World) p sys' :
  coherent sys → get fuel m K sys = Some (p, sys') → coherent sys'.
Proof.
  intros Hcoh (ps' & Hget & ->)%get_inv.
  apply get_sync_spawned in Hget as ([[new ->] Hnodes] & _ & _).
  constructor; simpl.
  - intros i pr Hi. destruct (decide (i < length (promises sys))%nat) as [Hlt|Hge].
    + rewrite lookup_app_l in Hi by done. by eapply coh_deps.
    + destruct (Hnodes i pr) as [Hok _]; [lia|done|]. unfold node_ok in Hok.
      destruct (callee pr) as [f|].
      * destruct Hok as [_ Hds]. clear -Hds.
        induction Hds as [|k d ks ds [Hd _] _ IH]; constructor; [lia|done].
      * destruct Hok as [_ ->]. constructor.
  - intros i pr Hi Hnone. destruct (decide (i < length (promises sys))%nat) as [Hlt|Hge].
    + rewrite lookup_app_l in Hi by done. by eapply coh_not_found.
    + destruct (Hnodes i pr) as [Hok _]; [lia|done|]. unfold node_ok in Hok.
      rewrite Hnone in Hok. by destruct Hok.
  - intros q c args Hev.
    destruct (coh_initialize sys Hcoh q c args Hev) as (pr & f & Hq & Hf & Hfid & Hst & Hargs).
    exists pr, f. split_and!; [by apply lookup_app_l_Some|done..|].
    eapply Forall2_impl; [exact Hargs|]. intros d a. apply fulfilled_value_app_l.
  - by apply coh_user_init.
  - intros i pr f Hi Hf. destruct (decide (i < length (promises sys))%nat) as [Hlt|Hge].
    + rewrite lookup_app_l in Hi by done.
      eapply (explained_mono sys); [done| |done|done|by eapply coh_status].
      simpl. intros d e. apply rejection_app_l.
    + destruct (Hnodes i pr) as [_ [Hst|Hnone]]; [lia|done| |congruence].
      unfold explained. by rewrite Hst.
  - by apply coh_cache.
Qed.

(** *** What [dispose] leaves behind *)

Lemma factory_dispose_frame (f : ServiceFactory World) (sys : Sys World) r sys' :
  factory_dispose f sys = (r, sys') →
  promises sys' = promises sys ∧
  (∀ ev, ev ∈ log sys → ev ∈ log sys') ∧
  (∀ ev, ev ∈ log sys' → ev ∈ log sys ∨ ∃ c v, ev = EvUserDispose c v) ∧
  (∀ c v, instances sys' !! c = Some v → v ≠ JUndefined → instances sys !! c = Some v).
Proof.
  unfold factory_dispose. destruct (lifetime f) as [ud|]; [|by intros [= <- <-]; auto].
  case_decide as Hinst; [by intros [= <- <-]; auto|].
  destruct (ud _ _) as [[[]|e] w]; intros [= <- <-]; simpl; split_and!; try done.
  - intros ev Hev. apply elem_of_app. by left.
  - intros ev [Hev|Hev%list_elem_of_singleton]%elem_of_app; eauto.
  - intros c v Hc Hv. destruct (decide (c = fid f)) as [->|Hne].
    + rewrite lookup_insert_eq in Hc. congruence.
    + by rewrite lookup_insert_ne in Hc.
  - intros ev Hev. apply elem_of_app. by left.
  - intros ev [Hev|Hev%list_elem_of_singleton]%elem_of_app; eauto.
Qed.

Lemma dispose_each_frame fs (sys : Sys World) r sys' :
  dispose_each fs sys = (r, sys') →
  promises sys' = promises sys ∧
  (∀ ev, ev ∈ log sys → ev ∈ log sys') ∧
  (∀ ev, ev ∈ log sys' → ev ∈ log sys ∨ ∃ c v, ev = EvUserDispose c v) ∧
  (∀ c v, instances sys' !! c = Some v → v ≠ JUndefined → instances sys !! c = Some v).
Proof.
  revert sys. induction fs as [|f fs IH]; simpl; intros sys.
  - intros [= <- <-]. auto.
  - destruct (factory_dispose f sys) as [[[]|e] sys1] eqn:Hf.
    + intros Hrest. apply factory_dispose_frame in Hf as (Hp1 & Hl1 & Hn1 & Hi1).
      apply IH in Hrest as (Hp2 & Hl2 & Hn2 & Hi2).
      split_and!; [congruence|auto| |auto].
      intros ev Hev. destruct (Hn2 ev Hev); auto.
    + intros [= <- <-]. by apply factory_dispose_frame in Hf.
Qed.

Lemma coherent_dispose (m : ServiceModule World) sc (sys : Sys World) r sys' :
  coherent sys → dispose m sc sys = (r, sys') → coherent sys'.
Proof.
  intros Hcoh (Hps & Hlog & Hnew & Hinst)%dispose_each_frame.
  constructor; rewrite ?Hps.
  - by apply coh_deps.
  - by apply coh_not_found.
  - intros q c args Hev. destruct (Hnew _ Hev) as [Hold|(c' & v & Heq)]; [|done].
    by apply coh_initialize.
  - intros q c args rr Hev. destruct (Hnew _ Hev) as [Hold|(c' & v & Heq)]; [|done].
    apply Hlog. by eapply coh_user_init.
  - intros q pr f Hq Hf. eapply (explained_mono sys); [done| |done|done|by eapply coh_status].
    by rewrite Hps.
  - intros c v Hc Hv. destruct (coh_cache sys Hcoh c v) as (q & args & Hev); eauto.
Qed.

(** *** Any number of steps *)

Lemma step_Resumed (sys sys' : Sys World) : step sys sys' ↔ ∃ p, Resumed p sys sys'.
Proof. unfold step. by setoid_rewrite resume_Resumed. Qed.

Lemma coherent_steps (sys sys' : Sys World) : coherent sys → steps sys sys' → coherent sys'.
Proof.
  intros Hcoh Hsteps. induction Hsteps as [|sys1 sys2 sys3 [p Hstep]%step_Resumed _ IH]; [done|].
  apply IH. by eapply coherent_Resumed.
Qed.

Lemma steps_lookup q (sys sys' : Sys World) pr :
  steps sys sys' → promises sys !! q = Some pr →
  ∃ pr', promises sys' !! q = Some pr' ∧ callee pr' = callee pr ∧ deps pr' = deps pr.
Proof.
  intros Hsteps. revert pr.
  induction Hsteps as [|sys1 sys2 sys3 [p Hstep]%step_Resumed _ IH]; intros pr Hq; [by eauto|].
  destruct (Resumed_lookup p q _ _ pr Hstep Hq) as (pr1 & Hq1 & Hc1 & Hd1 & _).
  destruct (IH pr1 Hq1) as (pr' & Hq' & Hc' & Hd'). exists pr'. split_and!; congruence.
Qed.

Lemma steps_callee q (sys sys' : Sys World) c :
  steps sys sys' → callee <$> promises sys !! q = Some c →
  callee <$> promises sys' !! q = Some c.
Proof.
  intros Hsteps Hc. destruct (promises sys !! q) as [pr|] eqn:Hq; [|done].
  destruct (steps_lookup q sys sys' pr Hsteps Hq) as (pr' & -> & Hc' & _).
  simpl in *. congruence.
Qed.


Lemma Promise_all_fulfilled ps ds args :
  Forall2 (λ d a, fulfilled_value ps d = Some a) ds args →
  Promise_all ps ds = Some (Normal args).
Proof.
  intros Hall. unfold Promise_all.
  assert (omap (rejection ps) ds = []) as ->.
  { induction Hall as [|d a ds args Hd _ IH]; [done|]. simpl.
    unfold rejection, fulfilled_value in *. destruct (status_of ps d) as [[]|]; try done. }
  simpl. apply mapM_Some in Hall. by rewrite Hall.
Qed.


(** A singleton whose initializer returns [undefined] is left without an
    instance, and its next call runs the user initializer again. *)
Lemma singleton_undefined_not_cached p g args (sys sys1 : Sys World) :
  is_singleton g →
  initialize_begin p g args sys = (Initializing (Normal JUndefined), sys1) →
  ∃ sys2,
    initialize_resume g (Normal JUndefined) sys1 = (Fulfilled JUndefined, sys2) ∧
    instance g sys2 = JUndefined ∧
    ∀ p' args', ∃ r sys3,
      initialize_begin p' g args' sys2 = (Initializing r, sys3) ∧
      EvUserInit p' (fid g) args' r ∈ log sys3.
Proof.
  intros Hsing Hbegin. eexists. split; [reflexivity|].
  assert (instance g (set_instance g JUndefined sys1) = JUndefined) as Hinst.
  { unfold instance. simpl. by rewrite lookup_insert_eq. }
  split; [done|]. intros p' args'.
  unfold initialize_begin, call_user_initialize. unfold is_singleton in Hsing.
  destruct (lifetime g) as [ud|]; [|done].
  change (instance g (record (EvInitialize p' (fid g) args') (set_instance g JUndefined sys1)))
    with (instance g (set_instance g JUndefined sys1)).
  rewrite decide_True by done. simpl.
  destruct (user_initialize g args' (world sys1)) as [r w]. eexists _, _. split; [done|].
  simpl. apply elem_of_app. right. left.
Qed.

Lemma find_isSuitable_None K fs :
  (∀ f, f ∈ fs → symbol (provides f) ≠ symbol K) → find (isSuitable K) fs = None.
Proof.
  intros Hnone. destruct (find (isSuitable K) fs) as [f|] eqn:Hfind; [|done].
  apply find_some in Hfind as [Hin Hsuit]. apply list_elem_of_In in Hin.
  apply bool_decide_eq_true in Hsuit. by destruct (Hnone f Hin).
Qed.

Lemma get_each_is_Some (get1 : ServiceKey → list (Promise World) → option (nat * list (Promise World))) keys ps :
  (∀ k ps, k ∈ keys → is_Some (get1 k ps)) → is_Some (get_each get1 keys ps).
Proof.
  revert ps. induction keys as [|k keys IH]; simpl; intros ps Hall; [by eexists|].
  destruct (Hall k ps) as [[p ps1] ->]; [left|].
  destruct (IH ps1) as [[rest ps2] ->]; [|by eexists].
  intros k' ps' Hk'. apply Hall. by right.
Qed.

Lemma get_sync_descends fs fuel (visited : list positive) K ps :
  acyclic fs →
  NoDup visited →
  (∀ v, v ∈ visited → (∃ f, f ∈ fs ∧ sym f = v) ∧ tc (depends fs) v (symbol K)) →
  (length fs < length visited + fuel)%nat →
  is_Some (get_sync fuel fs K ps).
Proof.
  intros Hacyc. revert visited K ps.
  induction fuel as [|fuel IH]; intros visited K ps Hnd Hvis Hlen.
  - exfalso. assert (length visited ≤ length (sym <$> fs))%nat as Hle.
    { apply submseteq_length, NoDup_submseteq; [done|].
      intros v Hv. destruct (Hvis v Hv) as [(f & Hf & <-) _]. by apply list_elem_of_fmap_2. }
    rewrite length_fmap in Hle. lia.
  - simpl. destruct (find (isSuitable K) fs) as [f|] eqn:Hfind; [|by eexists].
    apply find_some in Hfind as [Hin Hsuit]. apply list_elem_of_In in Hin.
    apply bool_decide_eq_true in Hsuit.
    destruct (get_each_is_Some (get_sync fuel fs) (dependsOn f) ps) as [[ds ps1] ->];
      [|by eexists].
    intros k ps' Hk. apply (IH (symbol K :: visited)).
    + apply NoDup_cons. split; [|done]. intros Hv.
      destruct (Hvis _ Hv) as [_ Hcycle]. by apply (Hacyc (symbol K)).
    + assert (depends fs (symbol K) (symbol k)) as Hedge by (exists f, k; done).
      intros v [->|Hv]%elem_of_cons.
      * split; [by exists f|]. by apply tc_once.
      * destruct (Hvis v Hv) as [Hprov Hpath]. split; [done|].
        eapply tc_r; eauto.
    + simpl. lia.
Qed.

(** With an acyclic dependency graph the nested calls of [get] unwind:
    a depth of one more than the number of factories is never reached. *)
Lemma get_sync_acyclic fs fuel K ps :
  acyclic fs → (length fs < fuel)%nat → is_Some (get_sync fuel fs K ps).
Proof.
  intros Hacyc Hlen. apply (get_sync_descends fs fuel []); [done|constructor| |simpl; lia].
  intros v Hv. inversion Hv.
Qed.

Lemma acyclic_of_rank fs (rank : positive → nat) :
  (∀ s t, depends fs s t → (rank t < rank s)%nat) → acyclic fs.
Proof.
  intros Hrank s Hcycle.
  assert (∀ a b, tc (depends fs) a b → (rank b < rank a)%nat) as Hdesc.
  { intros a b Hab. induction Hab as [a b Hab|a b c Hab _ IH].
    - by apply Hrank.
    - apply Hrank in Hab. lia. }
  specialize (Hdesc s s Hcycle). lia.
Qed.

(** *** Progress and bound of the event loop *)

Lemma resume_Initializing p (sys : Sys World) pr f r :
  promises sys !! p = Some pr → callee pr = Some f → status pr = Initializing r →
  is_Some (resume p sys).
Proof.
  intros Hp Hf Hst. unfold resume. rewrite Hp, Hf, Hst.
  destruct (initialize_resume f r sys). by eexists.
Qed.

Lemma resume_Waiting p (sys : Sys World) pr f c :
  promises sys !! p = Some pr → callee pr = Some f → status pr = Waiting →
  Promise_all (promises sys) (deps pr) = Some c →
  is_Some (resume p sys).
Proof.
  intros Hp Hf Hst Hall. unfold resume. rewrite Hp, Hf, Hst, Hall.
  destruct c as [args|e]; [|by eexists].
  destruct (initialize_begin p f args sys). by eexists.
Qed.

Lemma Promise_all_pending ps ds :
  Promise_all ps ds = None →
  ∃ d, d ∈ ds ∧ fulfilled_value ps d = None ∧ rejection ps d = None.
Proof.
  unfold Promise_all. destruct (head _) eqn:Hhead; [done|].
  destruct (mapM _ _) eqn:Hm; [done|]. intros _.
  apply head_None in Hhead.
  apply mapM_None, Exists_exists in Hm as (d & Hd & Hful).
  exists d. split_and!; [done..|].
  destruct (rejection ps d) as [e|] eqn:Hrej; [|done].
  assert (e ∈ omap (rejection ps) ds) as Hin by (apply list_elem_of_omap; eauto).
  rewrite Hhead in Hin. inversion Hin.
Qed.

(** While a promise is unsettled, some continuation can run. *)
Lemma progress (sys : Sys World) p pr :
  coherent sys → promises sys !! p = Some pr → unsettled (status pr) →
  ∃ q, (q ≤ p)%nat ∧ is_Some (resume q sys).
Proof.
  intros Hcoh. revert pr. induction (lt_wf p) as [p _ IH]. intros pr Hp Hun.
  destruct (callee pr) as [f|] eqn:Hf.
  - destruct (status pr) as [|r|v|e] eqn:Hst; [| |done|done].
    + destruct (Promise_all (promises sys) (deps pr)) as [c|] eqn:Hall.
      * exists p. split; [done|]. by eapply resume_Waiting.
      * apply Promise_all_pending in Hall as (d & Hd & Hful & Hrej).
        pose proof (coh_deps sys Hcoh p pr Hp) as Hlt.
        rewrite Forall_forall in Hlt. specialize (Hlt d Hd).
        destruct (lookup_lt_is_Some_2 (promises sys) d) as [prd Hprd].
        { apply lookup_lt_Some in Hp. lia. }
        destruct (IH d Hlt prd Hprd) as (q & Hq & Hres).
        { unfold fulfilled_value, rejection, status_of in Hful, Hrej.
          rewrite Hprd in Hful, Hrej. simpl in *. by destruct (status prd). }
        exists q. split; [lia|done].
    + exists p. split; [done|]. by eapply resume_Initializing.
  - destruct (coh_not_found sys Hcoh p pr Hp Hf) as [k Hst]. by rewrite Hst in Hun.
Qed.

Lemma work_alter ps p pr st :
  ps !! p = Some pr → (weight st < weight (status pr))%nat →
  (foldr (λ pr n, weight (status pr) + n) 0 (alter (with_status st) p ps)
   < foldr (λ pr n, weight (status pr) + n) 0 ps)%nat.
Proof.
  revert p. induction ps as [|pr0 ps IH]; intros [|p] Hp Hw; simpl in *; try done.
  - injection Hp as ->. by apply Nat.add_lt_mono_r.
  - specialize (IH p Hp Hw). by apply Nat.add_lt_mono_l.
Qed.

Lemma Resumed_weight p (sys sys' : Sys World) :
  Resumed p sys sys' → (work sys' < work sys)%nat.
Proof.
  intros Hstep. unfold work.
  destruct Hstep as [pr f e Hp Hf Hst Hall | pr f args r w Hp Hf Hst Hall Hlt Hu
    | pr f args r w ud Hp Hf Hst Hall Hlt Hinst Hu | pr f args ud Hp Hf Hst Hall Hlt Hinst
    | pr f v Hp Hf Hst | pr f e Hp Hf Hst]; simpl;
    (eapply work_alter; [exact Hp|rewrite Hst; simpl; try lia]).
  destruct r; simpl; lia.
Qed.

Lemma run_bound schedule (sys sys' : Sys World) :
  run schedule sys = Some sys' → (length schedule + work sys' ≤ work sys)%nat.
Proof.
  revert sys. induction schedule as [|p schedule IH]; simpl; intros sys.
  - intros [= ->]. lia.
  - destruct (resume p sys) as [sys1|] eqn:Hres; [|done]. intros Hrun.
    apply resume_Resumed, Resumed_weight in Hres. specialize (IH _ Hrun). lia.
Qed.

Lemma run_steps schedule (sys sys' : Sys World) :
  run schedule sys = Some sys' → steps sys sys'.
Proof.
  revert sys. induction schedule as [|p schedule IH]; simpl; intros sys.
  - intros [= ->]. apply rtc_refl.
  - destruct (resume p sys) as [sys1|] eqn:Hres; [|done]. intros Hrun.
    eapply rtc_l; [by exists p|by apply IH].
Qed.

Lemma runnable_Some (sys : Sys World) p : runnable sys = Some p → is_Some (resume p sys).
Proof.
  unfold runnable. destruct (list_find _ _) as [[i q]|] eqn:Hfind; [|done].
  intros [= <-]. by apply list_find_Some in Hfind as (_ & Hq & _).
Qed.

Lemma runnable_None (sys : Sys World) p : runnable sys = None → resume p sys = None.
Proof.
  unfold runnable. destruct (list_find _ _) as [[i q]|] eqn:Hfind; [done|]. intros _.
  destruct (resume p sys) as [sys'|] eqn:Hres; [|done]. exfalso.
  assert (p < length (promises sys))%nat as Hlt.
  { unfold resume in Hres. destruct (promises sys !! p) eqn:Hp; [|done].
    by apply lookup_lt_Some in Hp. }
  eapply (list_find_None (λ q, is_Some (resume q sys))) in Hfind.
  rewrite Forall_forall in Hfind. apply (Hfind p); [|by rewrite Hres].
  apply list_elem_of_In, in_seq. lia.
Qed.

Lemma steps_event_loop n (sys : Sys World) : steps sys (event_loop n sys).
Proof.
  revert sys. induction n as [|n IH]; simpl; intros sys; [apply rtc_refl|].
  destruct (runnable sys) as [p|]; [|apply rtc_refl].
  destruct (resume p sys) as [sys'|] eqn:Hres; [|apply rtc_refl].
  eapply rtc_l; [by exists p|apply IH].
Qed.

(** Given as many turns as there is work, the event loop settles every
    promise. *)
Lemma event_loop_settles n (sys : Sys World) p pr :
  coherent sys → (work sys ≤ n)%nat →
  promises (event_loop n sys) !! p = Some pr → ¬ unsettled (status pr).
Proof.
  revert sys. induction n as [|n IH]; simpl; intros sys Hcoh Hwork Hp Hun.
  - destruct (progress sys p pr Hcoh Hp Hun) as (q & _ & [sys' Hres]).
    apply resume_Resumed, Resumed_weight in Hres. lia.
  - destruct (runnable sys) as [q|] eqn:Hrun.
    + destruct (runnable_Some sys q Hrun) as [sys' Hres]. rewrite Hres in Hp.
      pose proof Hres as Hstep. apply resume_Resumed in Hstep.
      apply (IH sys'); [by eapply coherent_Resumed| |done|done].
      apply Resumed_weight in Hstep. lia.
    + destruct (progress sys p pr Hcoh Hp Hun) as (q & _ & [sys' Hres]).
      by rewrite (runnable_None sys q Hrun) in Hres.
Qed.

(** C9. With an acyclic dependency graph, [get(K)] terminates: the nested
    synchronous calls return a promise within a depth of one more than the
    number of factories; from then on every continuation that runs uses up
    work, so no schedule is longer than the work there is; as long as a
    promise is unsettled some continuation can run; and the event loop that
    keeps running continuations settles the promise of the call. *)
Theorem get_terminates (m : ServiceModule World) K (sys : Sys World) fuel :
  coherent sys →
  acyclic (factories m) →
  registered K (factories m) →
  (length (factories m) < fuel)%nat →
  ∃ p sys1,
    get fuel m K sys = Some (p, sys1) ∧
    (∀ schedule sys2, run schedule sys1 = Some sys2 →
       (length schedule ≤ work sys1)%nat ∧
       ∀ q pr, promises sys2 !! q = Some pr → unsettled (status pr) →
               ∃ q', (q' ≤ q)%nat ∧ is_Some (resume q' sys2)) ∧
    ∃ st, status_of (promises (event_loop (work sys1) sys1)) p = Some st ∧ is_settled st.
Proof.
  intros Hcoh Hacyc _ Hfuel.
  destruct (get_sync_acyclic (factories m) fuel K (promises sys) Hacyc Hfuel)
    as [[p ps1] Hsync].
  assert (get fuel m K sys = Some (p, set_promises ps1 sys)) as Hget.
  { unfold get. by rewrite Hsync. }
  pose proof (coherent_get _ _ _ _ _ _ Hcoh Hget) as Hcoh1.
  exists p, (set_promises ps1 sys). split_and!; [done| |].
  - intros schedule sys2 Hrun. split.
    + apply run_bound in Hrun. lia.
    + intros q pr Hq Hun. eapply progress; [|done..].
      eapply coherent_steps; [exact Hcoh1|]. by eapply run_steps.
  - apply get_sync_spawned in Hsync as (_ & Hp & _).
    destruct (lookup_lt_is_Some_2 ps1 p) as [pr1 Hp1]; [lia|].
    destruct (steps_lookup p (set_promises ps1 sys) _ pr1
                (steps_event_loop (work (set_promises ps1 sys)) _) Hp1)
      as (pr & Hpr & _ & _).
    exists (status pr). unfold status_of. rewrite Hpr. split; [done|].
    pose proof (event_loop_settles _ _ p pr Hcoh1 (Nat.le_refl _) Hpr) as Hset.
    by destruct (status pr).
Qed.

Lemma identifies_Resumed g p (sys sys' : Sys World) :
  identifies g sys → Resumed p sys sys' → identifies g sys'.
Proof.
  intros Hid Hstep q pr' f Hq Hf Hfid.
  destruct (Resumed_lookup_inv p q sys sys' pr' Hstep Hq) as (pr & Hq0 & Hc & _).
  eapply Hid; [done|congruence|done].
Qed.

Lemma instance_lookup (g : ServiceFactory World) (sys : Sys World) v :
  instances sys !! fid g = Some v → instance g sys = v.
Proof. unfold instance. by intros ->. Qed.

(** A step of a call on another factory leaves the cell of [g] and its
    calls alone. *)
Lemma Resumed_other g p (sys sys' : Sys World) pr f :
  Resumed p sys sys' → promises sys !! p = Some pr → callee pr = Some f → fid f ≠ fid g →
  instances sys' !! fid g = instances sys !! fid g ∧
  (∀ q args r, EvUserInit q (fid g) args r ∈ log sys' → EvUserInit q (fid g) args r ∈ log sys).
Proof.
  intros Hstep Hp Hf Hfid.
  destruct Hstep as [pr0 f0 e Hp0 Hf0 Hst Hall | pr0 f0 args r w Hp0 Hf0 Hst Hall Hlt Hu
    | pr0 f0 args r w ud Hp0 Hf0 Hst Hall Hlt Hinst Hu
    | pr0 f0 args ud Hp0 Hf0 Hst Hall Hlt Hinst
    | pr0 f0 v0 Hp0 Hf0 Hst | pr0 f0 e Hp0 Hf0 Hst];
    rewrite Hp in Hp0; injection Hp0 as <-; rewrite Hf in Hf0; injection Hf0 as <-;
    simpl; (split; [|intros q args' r' Hev]); try done.
  - apply elem_of_app in Hev as [Hev|Hev%list_elem_of_singleton]; [|congruence].
    apply elem_of_app in Hev as [Hev|Hev%list_elem_of_singleton]; [done|congruence].
  - apply elem_of_app in Hev as [Hev|Hev%list_elem_of_singleton]; [|congruence].
    apply elem_of_app in Hev as [Hev|Hev%list_elem_of_singleton]; [done|congruence].
  - apply elem_of_app in Hev as [Hev|Hev%list_elem_of_singleton]; [done|congruence].
  - by rewrite lookup_insert_ne.
Qed.

Ltac step_cases Hstep :=
  destruct Hstep as [pr0 f0 e Hp0 Hf0 Hst Hall | pr0 f0 args r w Hp0 Hf0 Hst Hall Hlt Hu
    | pr0 f0 args r w ud Hp0 Hf0 Hst Hall Hlt Hinst Hu
    | pr0 f0 args ud Hp0 Hf0 Hst Hall Hlt Hinst
    | pr0 f0 v0 Hp0 Hf0 Hst | pr0 f0 e Hp0 Hf0 Hst].

Ltac stepped_promise Hq Hp0 :=
  simpl in Hq; rewrite list_lookup_alter, decide_True, Hp0 in Hq by done;
  injection Hq as <-; simpl in *.

(** What a step of a call on [g] does while [g] holds a cached instance:
    it returns the instance, or passes on the rejection of a dependency. *)
Lemma stable_Resumed_self g v p (sys sys' : Sys World) pr :
  stable g v sys → Resumed p sys sys' →
  promises sys !! p = Some pr → callee pr = Some g →
  instances sys' = instances sys ∧
  (∀ q args r, EvUserInit q (fid g) args r ∈ log sys' → EvUserInit q (fid g) args r ∈ log sys) ∧
  ∃ pr', promises sys' !! p = Some pr' ∧ callee pr' = Some g ∧
    (status pr' = Fulfilled v ∨
     ∃ e d, status pr' = Rejected e ∧ d ∈ deps pr' ∧ rejection (promises sys') d = Some e).
Proof.
  intros (Hsing & Hv & Hdef & Hid & Hnoinit) Hstep Hp Hg.
  pose proof (λ d e, Resumed_rejection p d e sys sys' Hstep) as Hrej.
  pose proof (instance_lookup g sys v Hv) as Hinst_g.
  step_cases Hstep; rewrite Hp in Hp0; injection Hp0 as <-;
    rewrite Hg in Hf0; injection Hf0 as <-.
  - split_and!; [done|done|]. eexists. split; [simpl; by rewrite list_lookup_alter, decide_True, Hp|].
    split; [done|]. right. apply Promise_all_Throw in Hall as (d & Hd & He).
    exists e, d. split_and!; [done|done|]. by apply Hrej.
  - unfold is_singleton in Hsing. by rewrite Hlt in Hsing.
  - congruence.
  - split_and!; [done| |].
    + simpl. intros q args' r Hev.
      apply elem_of_app in Hev as [Hev|Hev%list_elem_of_singleton]; [done|congruence].
    + eexists. split; [simpl; by rewrite list_lookup_alter, decide_True, Hp|].
      split; [done|]. left. simpl. by rewrite Hinst_g.
  - by destruct (Hnoinit p pr (Normal v0) Hp Hg).
  - by destruct (Hnoinit p pr (Throw e) Hp Hg).
Qed.

Lemma stable_Resumed g v p (sys sys' : Sys World) :
  stable g v sys → Resumed p sys sys' →
  stable g v sys' ∧
  (∀ q args r, EvUserInit q (fid g) args r ∈ log sys' → EvUserInit q (fid g) args r ∈ log sys).
Proof.
  intros Hstable Hstep.
  pose proof Hstable as (Hsing & Hv & Hdef & Hid & Hnoinit).
  destruct (Resumed_promises p sys sys' Hstep) as (pr & st & Hp & [f Hf] & _ & _ & _).
  assert (instances sys' !! fid g = Some v ∧
          (∀ q args r, EvUserInit q (fid g) args r ∈ log sys' →
                       EvUserInit q (fid g) args r ∈ log sys) ∧
          (∀ pr' r, promises sys' !! p = Some pr' → callee pr' = Some g →
                    status pr' ≠ Initializing r)) as (Hv' & Hlog & Hself).
  { destruct (decide (fid f = fid g)) as [Hfid|Hfid].
    - assert (f = g) as -> by by eapply Hid.
      destruct (stable_Resumed_self g v p sys sys' pr Hstable Hstep Hp Hf)
        as (Hinst & Hlog & pr1 & Hp1 & _ & Hst1).
      split_and!; [by rewrite Hinst|done|].
      intros pr' r Hp' _. rewrite Hp1 in Hp'. injection Hp' as <-.
      destruct Hst1 as [->|(e & d & -> & _)]; done.
    - destruct (Resumed_other g p sys sys' pr f Hstep Hp Hf Hfid) as [Hinst Hlog].
      split_and!; [by rewrite Hinst|done|].
      intros pr' r Hp' Hg.
      destruct (Resumed_lookup_inv p p sys sys' pr' Hstep Hp') as (pr0 & Hp0 & Hc & _).
      congruence. }
  split; [|done]. split_and!; [done..|by eapply identifies_Resumed|].
  intros q pr' r Hq Hg. destruct (decide (q = p)) as [->|Hne]; [by apply Hself|].
  rewrite (Resumed_lookup_ne p q sys sys') in Hq by done. by eapply Hnoinit.
Qed.

Lemma served_Resumed g v p q (sys sys' : Sys World) :
  stable g v sys → served p g v sys → Resumed q sys sys' → served p g v sys'.
Proof.
  intros Hstable (pr & Hp & Hg & Hst) Hstep.
  pose proof (λ d e, Resumed_rejection q d e sys sys' Hstep) as Hrej.
  destruct (decide (p = q)) as [->|Hne].
  - destruct (stable_Resumed_self g v q sys sys' pr Hstable Hstep Hp Hg)
      as (_ & _ & pr' & Hp' & Hg' & Hst').
    exists pr'. split_and!; [done|done|]. by right.
  - exists pr. rewrite (Resumed_lookup_ne q p sys sys') by done.
    split_and!; [done|done|].
    destruct Hst as [?|[?|(e & d & ? & ? & ?)]]; [by left|by right; left|].
    right; right. exists e, d. auto.
Qed.

(** While a singleton holds an instance and no call is suspended in
    its initializer, whatever runs keeps the instance and never calls the
    user initializer of that singleton. *)
Lemma stable_steps g v p (sys sys' : Sys World) :
  steps sys sys' → stable g v sys → served p g v sys →
  stable g v sys' ∧ served p g v sys' ∧
  (∀ q args r, EvUserInit q (fid g) args r ∈ log sys' → EvUserInit q (fid g) args r ∈ log sys).
Proof.
  intros Hsteps. induction Hsteps as [|sys1 sys2 sys3 [q Hstep]%step_Resumed _ IH];
    intros Hstable Hserved; [done|].
  destruct (stable_Resumed g v q sys1 sys2 Hstable Hstep) as [Hstable2 Hlog2].
  pose proof (served_Resumed g v p q sys1 sys2 Hstable Hserved Hstep) as Hserved2.
  destruct (IH Hstable2 Hserved2) as (Hstable3 & Hserved3 & Hlog3). auto.
Qed.

Lemma NoDup_fid_inj fs f g :
  NoDup (fid <$> fs) → f ∈ fs → g ∈ fs → fid f = fid g → f = g.
Proof.
  induction fs as [|h fs IH]; simpl; intros Hnd Hf Hg Hfid; [inversion Hf|].
  apply NoDup_cons in Hnd as [Hnotin Hnd].
  apply elem_of_cons in Hf as [->|Hf]; apply elem_of_cons in Hg as [->|Hg]; auto.
  - destruct Hnotin. rewrite Hfid. by apply list_elem_of_fmap_2.
  - destruct Hnotin. rewrite <- Hfid. by apply list_elem_of_fmap_2.
Qed.

Lemma get_new_promise fuel (m : ServiceModule World) K (sys : Sys World) p sys' q pr :
  get fuel m K sys = Some (p, sys') → promises sys' !! q = Some pr →
  promises sys !! q = Some pr ∨
  ((length (promises sys) ≤ q)%nat ∧
   ((∃ f, callee pr = Some f ∧ f ∈ factories m ∧ status pr = Waiting) ∨
    (callee pr = None ∧ ∃ e, status pr = Rejected e))).
Proof.
  intros (ps' & Hsync & ->)%get_inv Hq. simpl in Hq.
  apply get_sync_spawned in Hsync as ([[new ->] Hnodes] & _ & _).
  destruct (decide (q < length (promises sys))%nat) as [Hlt|Hge].
  - left. by rewrite lookup_app_l in Hq.
  - right. split; [lia|]. destruct (Hnodes q pr) as [Hok Hst]; [lia|done|].
    unfold node_ok in Hok. destruct (callee pr) as [f|] eqn:Hf.
    + left. exists f. destruct Hok as [Hin _]. destruct Hst as [Hst|Hst]; done.
    + right. destruct Hok as [[k Hk] _]. eauto.
Qed.

(** The promise [get] returns is new, waits, and holds the factory found. *)
Lemma get_root fuel (m : ServiceModule World) K (sys : Sys World) p sys' f :
  get fuel m K sys = Some (p, sys') → find (isSuitable K) (factories m) = Some f →
  (length (promises sys) ≤ p)%nat ∧
  ∃ pr, promises sys' !! p = Some pr ∧ callee pr = Some f ∧ status pr = Waiting.
Proof.
  intros Hget Hfind. pose proof Hget as (ps' & Hsync & ->)%get_inv.
  apply get_sync_spawned in Hsync as (_ & Hp & Hc). split; [lia|].
  simpl. rewrite Hfind in Hc. destruct (ps' !! p) as [pr|] eqn:Hpr; [|done].
  injection Hc as Hc. exists pr. split_and!; [done..|].
  destruct (get_new_promise _ _ _ _ _ _ p pr Hget Hpr)
    as [Hold|[_ [(f' & _ & _ & Hst)|[Hnone _]]]]; [|done|congruence].
  apply lookup_lt_Some in Hold. lia.
Qed.

Lemma identifies_get fuel (m : ServiceModule World) K (sys : Sys World) p sys' g :
  NoDup (fid <$> factories m) → g ∈ factories m →
  identifies g sys → get fuel m K sys = Some (p, sys') → identifies g sys'.
Proof.
  intros Hnd Hg Hid Hget q pr f Hq Hf Hfid.
  destruct (get_new_promise _ _ _ _ _ _ q pr Hget Hq)
    as [Hold|[_ [(f' & Hf' & Hin & _)|[Hnone _]]]]; [by eapply Hid| |congruence].
  rewrite Hf in Hf'. injection Hf' as <-. by eapply NoDup_fid_inj.
Qed.

Lemma stable_get fuel (m : ServiceModule World) K (sys : Sys World) p sys' g v :
  NoDup (fid <$> factories m) → g ∈ factories m →
  stable g v sys → get fuel m K sys = Some (p, sys') →
  stable g v sys' ∧ (find (isSuitable K) (factories m) = Some g → served p g v sys').
Proof.
  intros Hnd Hg (Hsing & Hv & Hdef & Hid & Hnoinit) Hget. split.
  - split_and!; [done| |done|by eapply identifies_get|].
    + by apply get_inv in Hget as (ps' & _ & ->).
    + intros q pr r Hq Hc.
      destruct (get_new_promise _ _ _ _ _ _ q pr Hget Hq)
        as [Hold|[_ [(f' & _ & _ & ->)|[Hnone _]]]]; [by eapply Hnoinit|done|congruence].
  - intros Hfind. destruct (get_root _ _ _ _ _ _ g Hget Hfind) as (_ & pr & Hp & Hc & Hst).
    exists pr. auto.
Qed.

Lemma sole_Resumed p g q (sys sys' : Sys World) :
  sole p g sys → Resumed q sys sys' → sole p g sys'.
Proof.
  intros (Hsing & Hid & Hsole) Hstep. split_and!; [done|by eapply identifies_Resumed|].
  intros q' pr' Hq' Hg Hne.
  destruct (Resumed_lookup_inv q q' sys sys' pr' Hstep Hq') as (pr & Hq0 & Hc & _ & Hst).
  rewrite Hc in Hg. pose proof (Hsole q' pr Hq0 Hg Hne) as Hset.
  destruct (decide (q' = q)) as [->|Hne']; [|by rewrite Hst].
  destruct (Resumed_promises q sys sys' Hstep) as (pr1 & st & Hq1 & _ & Hun & _).
  rewrite Hq0 in Hq1. injection Hq1 as <-. by destruct (status pr).
Qed.

Lemma producing_Resumed p g q (sys sys' : Sys World) :
  sole p g sys → producing p g sys → Resumed q sys sys' → producing p g sys'.
Proof.
  intros (Hsing & Hid & Hsole) (pr & Hp & Hg & Hprod) Hstep.
  destruct (decide (q = p)) as [->|Hne].
  - step_cases Hstep; rewrite Hp in Hp0; injection Hp0 as <-;
      rewrite Hg in Hf0; injection Hf0 as <-; rewrite Hst in Hprod;
      (eexists; split; [simpl; by rewrite list_lookup_alter, decide_True, Hp|]);
      (split; [done|]); simpl.
    + done.
    + unfold is_singleton in Hsing. by rewrite Hlt in Hsing.
    + split; [done|]. exists args. set_solver.
    + done.
    + destruct Hprod as [_ Hev]. split; [|done].
      unfold instance. simpl. by rewrite lookup_insert_eq.
    + done.
  - destruct (Resumed_promises q sys sys' Hstep) as (prq & st & Hq & [f Hf] & Hun & _ & _).
    assert (fid f ≠ fid g) as Hfid.
    { intros Hfid. assert (f = g) as -> by by eapply Hid.
      pose proof (Hsole q prq Hq Hf Hne) as Hset. by destruct (status prq). }
    destruct (Resumed_other g q sys sys' prq f Hstep Hq Hf Hfid) as [Hinst _].
    pose proof (λ ev, Resumed_log_mono q sys sys' ev Hstep) as Hlog.
    exists pr. rewrite (Resumed_lookup_ne q p sys sys') by done.
    split_and!; [done|done|]. unfold instance in *. rewrite Hinst.
    destruct (status pr) as [|r|v|e]; [done| | |done].
    + destruct Hprod as [? [args ?]]. eauto.
    + destruct Hprod as [? [args ?]]. eauto.
Qed.

(** The only call in flight on a singleton with an empty cache runs the
    user initializer itself and is fulfilled with what that returned. *)
Lemma producing_steps p g (sys sys' : Sys World) :
  steps sys sys' → sole p g sys → producing p g sys →
  sole p g sys' ∧ producing p g sys'.
Proof.
  intros Hsteps. induction Hsteps as [|sys1 sys2 sys3 [q Hstep]%step_Resumed _ IH];
    intros Hsole Hprod; [done|].
  apply IH; [by eapply sole_Resumed|by eapply producing_Resumed].
Qed.

Lemma producing_get fuel (m : ServiceModule World) K (sys : Sys World) p sys' g :
  get fuel m K sys = Some (p, sys') → find (isSuitable K) (factories m) = Some g →
  instance g sys = JUndefined → producing p g sys'.
Proof.
  intros Hget Hfind Hinst.
  destruct (get_root _ _ _ _ _ _ g Hget Hfind) as (_ & pr & Hp & Hc & Hst).
  exists pr. rewrite Hst. split_and!; [done..|].
  by apply get_inv in Hget as (ps' & _ & ->).
Qed.

(** Once the only call on a singleton is fulfilled with a defined value, the
    singleton holds it for good. *)
Lemma sole_fulfilled_stable p g v (sys : Sys World) pr :
  sole p g sys → producing p g sys →
  promises sys !! p = Some pr → status pr = Fulfilled v → v ≠ JUndefined →
  stable g v sys.
Proof.
  intros (Hsing & Hid & Hsole) (pr' & Hp' & Hg & Hprod) Hp Hst Hv.
  rewrite Hp in Hp'. injection Hp' as <-. rewrite Hst in Hprod. destruct Hprod as [Hinst _].
  split_and!; [done| |done|done|].
  - unfold instance in Hinst. destruct (instances sys !! fid g) as [v'|]; simpl in *; congruence.
  - intros q pr' r Hq Hc. destruct (decide (q = p)) as [->|Hne].
    + rewrite Hp in Hq. injection Hq as <-. by rewrite Hst.
    + pose proof (Hsole q pr' Hq Hc Hne) as Hset. by destruct (status pr').
Qed.

(** *** Disposal *)

Lemma dispose_selected (m : ServiceModule World) sc (sys : Sys World) :
  dispose m sc sys = dispose_each (filter (selected sc) (factories m)) sys.
Proof.
  unfold dispose. destruct sc as [s|]; simpl; [done|].
  f_equal. induction (factories m) as [|f fs IH]; [done|].
  rewrite filter_cons_True by done. by f_equal.
Qed.

Lemma omap_cons_app {A B} (h : A → option B) (x : A) (l : list A) :
  omap h (x :: l) = option_list (h x) ++ omap h l.
Proof. simpl. by destruct (h x). Qed.

Lemma teardown_event_ext (sys sys' : Sys World) fs :
  (∀ f, f ∈ fs → instances sys' !! fid f = instances sys !! fid f) →
  omap (teardown_event sys') fs = omap (teardown_event sys) fs.
Proof.
  induction fs as [|f fs IH]; intros Hsame; [done|]. rewrite !omap_cons_app.
  assert (teardown_event sys' f = teardown_event sys f) as ->.
  { unfold teardown_event, instance. rewrite Hsame by left. done. }
  rewrite IH; [done|]. intros f' Hf'. apply Hsame. by right.
Qed.

Lemma factory_dispose_Normal f (sys sys' : Sys World) :
  factory_dispose f sys = (Normal tt, sys') →
  promises sys' = promises sys ∧
  log sys' = log sys ++ option_list (teardown_event sys f) ∧
  (is_singleton f → instance f sys' = JUndefined) ∧
  (∀ c, (is_singleton f → instance f sys ≠ JUndefined → fid f ≠ c) →
        instances sys' !! c = instances sys !! c).
Proof.
  unfold factory_dispose, teardown_event, is_singleton.
  destruct (lifetime f) as [ud|].
  - case_decide as Hinst.
    + intros [= <-]. split_and!; try done. by rewrite app_nil_r.
    + destruct (ud _ _) as [[[]|e] w]; [|done]. intros [= <-]. simpl.
      split_and!; try done.
      * intros _. unfold instance. simpl. by rewrite lookup_insert_eq.
      * intros c Hc. rewrite lookup_insert_ne; [done|]. by apply Hc.
  - intros [= <-]. split_and!; try done. by rewrite app_nil_r.
Qed.

Lemma dispose_each_Normal fs (sys sys' : Sys World) :
  NoDup (fid <$> fs) →
  dispose_each fs sys = (Normal tt, sys') →
  promises sys' = promises sys ∧
  log sys' = log sys ++ omap (teardown_event sys) fs ∧
  (∀ f, f ∈ fs → is_singleton f → instance f sys' = JUndefined) ∧
  (∀ c, (∀ f, f ∈ fs → is_singleton f → instance f sys ≠ JUndefined → fid f ≠ c) →
        instances sys' !! c = instances sys !! c).
Proof.
  revert sys. induction fs as [|f fs IH]; intros sys Hnd Hdisp; simpl in Hdisp.
  - injection Hdisp as <-. split_and!; try done.
    + by rewrite app_nil_r.
    + intros f Hf. inversion Hf.
  - rewrite fmap_cons in Hnd. apply NoDup_cons in Hnd as [Hnotin Hnd].
    destruct (factory_dispose f sys) as [[[]|e] sys1] eqn:Hf; [|done].
    rename Hdisp into Hrest.
    apply factory_dispose_Normal in Hf as (Hp1 & Hl1 & Hs1 & Hfr1).
    destruct (IH sys1 Hnd Hrest) as (Hp2 & Hl2 & Hs2 & Hfr2).
    assert (∀ f', f' ∈ fs → instances sys1 !! fid f' = instances sys !! fid f') as Hsame.
    { intros f' Hf'. apply Hfr1. intros _ _ Heq. apply Hnotin. rewrite Heq.
      by apply list_elem_of_fmap_2. }
    split_and!.
    + congruence.
    + by rewrite Hl2, Hl1, (teardown_event_ext sys sys1 fs Hsame), omap_cons_app, app_assoc.
    + intros f' [->|Hf']%elem_of_cons Hsing; [|by apply Hs2].
      unfold instance. rewrite Hfr2; [by apply Hs1|].
      intros f' Hf' _ _ Heq. apply Hnotin. rewrite <- Heq. by apply list_elem_of_fmap_2.
    + intros c Hc. rewrite Hfr2, Hfr1; [done| |].
      * intros Hsing Hinst. apply Hc; [left|done..].
      * intros f' Hf' Hsing Hinst. apply Hc; [by right|done|].
        unfold instance in *. by rewrite <- (Hsame f' Hf').
Qed.

(** C6. A [dispose] that returns leaves the promises alone; it calls the
    user teardown on exactly the selected singletons that hold an instance
    (the factories whose scope is the given one, or all of them when no scope
    is given), in list order, each with its instance; afterwards those
    singletons hold none; the instance of any other factory of the module is
    untouched, and nothing is called for a one-shot factory.  The next
    resolution of a disposed singleton, when no other resolution of it is in
    flight, is fulfilled with a value that its own call of the user
    initializer returned, and the singleton caches that value. *)
Theorem dispose_scoped (m : ServiceModule World) sc (sys sys' : Sys World) :
  NoDup (fid <$> factories m) →
  dispose m sc sys = (Normal tt, sys') →
  promises sys' = promises sys ∧
  log sys' = log sys ++ omap (teardown_event sys) (filter (selected sc) (factories m)) ∧
  (∀ f, f ∈ factories m → selected sc f → is_singleton f →
        instance f sys' = JUndefined ∧
        (instance f sys ≠ JUndefined →
         EvUserDispose (fid f) (instance f sys) ∈ log sys')) ∧
  (∀ f, f ∈ factories m →
        ¬ (selected sc f ∧ is_singleton f ∧ instance f sys ≠ JUndefined) →
        instance f sys' = instance f sys ∧
        ∀ v, EvUserDispose (fid f) v ∈ log sys' → EvUserDispose (fid f) v ∈ log sys) ∧
  (∀ g K fuel p sys1 sys2 pr v,
      g ∈ factories m → selected sc g → is_singleton g →
      find (isSuitable K) (factories m) = Some g →
      get fuel m K sys' = Some (p, sys1) →
      sole p g sys1 →
      steps sys1 sys2 →
      promises sys2 !! p = Some pr → status pr = Fulfilled v →
      (length (promises sys) ≤ p)%nat ∧ instance g sys2 = v ∧
      ∃ args, EvUserInit p (fid g) args (Normal v) ∈ log sys2).
Proof.
  intros Hnd Hdisp. rewrite dispose_selected in Hdisp.
  assert (NoDup (fid <$> filter (selected sc) (factories m))) as Hnd'.
  { eapply sublist_NoDup; [exact Hnd|]. apply fmap_sublist, sublist_filter. }
  destruct (dispose_each_Normal _ _ _ Hnd' Hdisp) as (Hps & Hlog & Hcleared & Hframe).
  assert (∀ f ev, f ∈ factories m →
            ev ∈ omap (teardown_event sys) (filter (selected sc) (factories m)) →
            (∃ v, ev = EvUserDispose (fid f) v) →
            selected sc f ∧ is_singleton f ∧ instance f sys ≠ JUndefined) as Hevents.
  { intros f ev Hf Hev [v ->]. apply list_elem_of_omap in Hev as (f' & Hf' & Hte).
    apply list_elem_of_filter in Hf' as [Hsel Hf'].
    unfold teardown_event in Hte. destruct (lifetime f') as [ud|] eqn:Hlt; [|done].
    case_decide as Hinst; [done|]. injection Hte as Hfid _.
    assert (f' = f) as -> by (by apply (NoDup_fid_inj (factories m))).
    unfold is_singleton. by rewrite Hlt. }
  split_and!; [done|done|..].
  - intros f Hf Hsel Hsing.
    assert (f ∈ filter (selected sc) (factories m)) as Hin by by apply list_elem_of_filter.
    split; [by apply Hcleared|]. intros Hinst. rewrite Hlog. apply elem_of_app. right.
    apply list_elem_of_omap. exists f. split; [done|]. unfold teardown_event.
    unfold is_singleton in Hsing. destruct (lifetime f); [|done]. by rewrite decide_False.
  - intros f Hf Hnot. split.
    + unfold instance. rewrite Hframe; [done|]. intros f' Hf' Hsing Hinst Hfid.
      apply list_elem_of_filter in Hf' as [Hsel Hf'].
      assert (f' = f) as -> by (by apply (NoDup_fid_inj (factories m))). by apply Hnot.
    + intros v Hev. rewrite Hlog in Hev. apply elem_of_app in Hev as [Hev|Hev]; [done|].
      destruct Hnot. eapply Hevents; eauto.
  - intros g K fuel p sys1 sys2 pr v Hg Hsel Hsing Hfind Hget Hsole Hsteps Hp Hst.
    assert (instance g sys' = JUndefined) as Hempty.
    { apply Hcleared; [|done]. by apply list_elem_of_filter. }
    pose proof (producing_get _ _ _ _ _ _ g Hget Hfind Hempty) as Hprod.
    destruct (producing_steps p g sys1 sys2 Hsteps Hsole Hprod) as [_ (pr' & Hp' & _ & Hprod')].
    rewrite Hp in Hp'. injection Hp' as <-. rewrite Hst in Hprod'.
    destruct (get_root _ _ _ _ _ _ g Hget Hfind) as [Hnew _].
    rewrite Hps in Hnew. destruct Hprod' as [Hinst Hev]. auto.
Qed.

(** X1.  Two resolutions of a singleton one after the other, neither
    overlapping another resolution of it: when the first is fulfilled with a
    defined value, the user initializer ran once, in the first call, and the
    second is fulfilled with the same value. *)
Lemma singleton_get_sequential (m : ServiceModule World) K g fuel fuel'
    (sys sys1 sys2 sys3 sys4 : Sys World) p1 p2 pr1 pr2 v1 v2 :
  NoDup (fid <$> factories m) →
  is_singleton g →
  find (isSuitable K) (factories m) = Some g →
  instance g sys = JUndefined →
  get fuel m K sys = Some (p1, sys1) → sole p1 g sys1 → steps sys1 sys2 →
  promises sys2 !! p1 = Some pr1 → status pr1 = Fulfilled v1 → v1 ≠ JUndefined →
  get fuel' m K sys2 = Some (p2, sys3) → steps sys3 sys4 →
  promises sys4 !! p2 = Some pr2 → status pr2 = Fulfilled v2 →
  v2 = v1 ∧ instance g sys4 = v1 ∧
  (∃ args, EvUserInit p1 (fid g) args (Normal v1) ∈ log sys2) ∧
  (∀ q args r, EvUserInit q (fid g) args r ∈ log sys4 → EvUserInit q (fid g) args r ∈ log sys2).
Proof.
  intros Hnd Hsing Hfind Hempty Hget1 Hsole Hsteps1 Hp1 Hst1 Hv1 Hget2 Hsteps2 Hp2 Hst2.
  assert (g ∈ factories m) as Hg.
  { apply list_elem_of_In. by eapply find_some. }
  pose proof (producing_get _ _ _ _ _ _ g Hget1 Hfind Hempty) as Hprod.
  destruct (producing_steps p1 g sys1 sys2 Hsteps1 Hsole Hprod) as [Hsole2 Hprod2].
  pose proof (sole_fulfilled_stable p1 g v1 sys2 pr1 Hsole2 Hprod2 Hp1 Hst1 Hv1) as Hstable.
  destruct (stable_get _ _ _ _ _ _ g v1 Hnd Hg Hstable Hget2) as [Hstable3 Hserved3].
  destruct (stable_steps g v1 p2 sys3 sys4 Hsteps2 Hstable3 (Hserved3 Hfind))
    as ((_ & Hinst4 & _) & (pr & Hp & _ & Hst) & Hlog).
  rewrite Hp2 in Hp. injection Hp as <-.
  destruct Hprod2 as (pr & Hp & _ & Hprod2). rewrite Hp1 in Hp. injection Hp as <-.
  rewrite Hst1 in Hprod2. destruct Hprod2 as [_ Hev].
  split_and!.
  - destruct Hst as [?|[?|(e & d & ? & _)]]; congruence.
  - by apply instance_lookup.
  - done.
  - intros q args r Hq. apply Hlog in Hq. by apply get_inv in Hget2 as (ps' & _ & ->).
Qed.

(** *** Failures *)

Lemma from_resolvable (entries : list (Entry World)) (m : ServiceModule World) :
  from entries = Normal m → resolvable (factories m).
Proof.
  intros Hfrom f k Hf Hk. apply new_ServiceModule_inv in Hfrom as [-> Hvalid].
  simpl in *. destruct (Hvalid f Hf) as [_ Hreg]. auto.
Qed.

Lemma registered_find K fs : registered K fs → is_Some (find (isSuitable K) fs).
Proof.
  intros (g & Hg & Hsym). destruct (find (isSuitable K) fs) as [f|] eqn:Hfind; [by eexists|].
  exfalso. eapply find_none in Hfind; [|by apply list_elem_of_In].
  unfold isSuitable in Hfind. by rewrite bool_decide_eq_false in Hfind.
Qed.

Lemma steps_length (sys sys' : Sys World) :
  steps sys sys' → length (promises sys') = length (promises sys).
Proof.
  intros Hsteps. induction Hsteps as [|sys1 sys2 sys3 [p Hstep]%step_Resumed _ IH]; [done|].
  rewrite IH. by eapply Resumed_length.
Qed.

Lemma steps_lookup_inv q (sys sys' : Sys World) pr' :
  steps sys sys' → promises sys' !! q = Some pr' →
  ∃ pr, promises sys !! q = Some pr ∧ callee pr' = callee pr ∧ deps pr' = deps pr.
Proof.
  intros Hsteps Hq. destruct (lookup_lt_is_Some_2 (promises sys) q) as [pr Hpr].
  { rewrite <- (steps_length sys sys') by done. by eapply lookup_lt_Some. }
  destruct (steps_lookup q sys sys' pr Hsteps Hpr) as (pr2 & Hq2 & Hc & Hd).
  rewrite Hq in Hq2. injection Hq2 as <-. eauto.
Qed.

(** The calls made for one resolution, at any later time: each holds a
    factory of the module and, per key of [dependsOn], the promise of a call
    made for the same resolution. *)
Lemma get_steps_nodes fuel (m : ServiceModule World) K (sys sys1 sys2 : Sys World) p i pr f :
  get fuel m K sys = Some (p, sys1) → steps sys1 sys2 →
  (length (promises sys) ≤ i)%nat → promises sys2 !! i = Some pr → callee pr = Some f →
  f ∈ factories m ∧
  Forall2 (λ k (d : nat), (length (promises sys) ≤ d < i)%nat ∧
             callee <$> promises sys2 !! d = Some (find (isSuitable k) (factories m)))
          (dependsOn f) (deps pr).
Proof.
  intros (ps1 & Hsync & ->)%get_inv Hsteps Hi Hpr Hf.
  destruct (steps_lookup_inv i _ sys2 pr Hsteps Hpr) as (pr1 & Hpr1 & Hc & Hd).
  apply get_sync_spawned in Hsync as ([_ Hnodes] & _ & _).
  destruct (Hnodes i pr1 Hi Hpr1) as [Hok _]. unfold node_ok in Hok.
  rewrite <- Hc, Hf in Hok. destruct Hok as [Hin Hds]. split; [done|].
  rewrite Hd. eapply Forall2_impl; [exact Hds|]. simpl. intros k d [Hlo Hcd].
  split; [done|]. by eapply steps_callee.
Qed.

Lemma Forall2_elem_of_r {A B} (P : A → B → Prop) l k y :
  Forall2 P l k → y ∈ k → ∃ x, x ∈ l ∧ P x y.
Proof.
  induction 1 as [|x y' l k Hxy _ IH]; intros Hy; [inversion Hy|].
  apply elem_of_cons in Hy as [->|Hy].
  - exists x. split; [left|done].
  - destruct (IH Hy) as (x' & Hx' & HP). exists x'. split; [by right|done].
Qed.

(** In a module whose dependencies are all provided, the rejection of a
    call is the exception that a user initializer threw in a call made for
    the same resolution. *)
Lemma rejection_origin (m : ServiceModule World) (sys : Sys World) lo :
  coherent sys → resolvable (factories m) →
  (∀ (i : nat) pr f, (lo ≤ i)%nat → promises sys !! i = Some pr → callee pr = Some f →
     f ∈ factories m ∧
     Forall2 (λ k (d : nat), (lo ≤ d < i)%nat ∧
                callee <$> promises sys !! d = Some (find (isSuitable k) (factories m)))
             (dependsOn f) (deps pr)) →
  ∀ (i : nat) pr f e, (lo ≤ i)%nat → promises sys !! i = Some pr → callee pr = Some f →
    status pr = Rejected e →
    ∃ (q : nat) prq fq args,
      (lo ≤ q ≤ i)%nat ∧ promises sys !! q = Some prq ∧ callee prq = Some fq ∧
      fq ∈ factories m ∧ EvUserInit q (fid fq) args (Throw e) ∈ log sys.
Proof.
  intros Hcoh Hres Hnodes i. induction (lt_wf i) as [i _ IH].
  intros pr f e Hi Hpr Hf Hst.
  destruct (Hnodes i pr f Hi Hpr Hf) as [Hin Hds].
  pose proof (coh_status sys Hcoh i pr f Hpr Hf) as Hex.
  unfold explained in Hex. rewrite Hst in Hex.
  destruct Hex as [(args & Hev)|(d & Hd & Hrej)].
  - exists i, pr, f, args. split_and!; [lia|lia|done..].
  - destruct (Forall2_elem_of_r _ _ _ d Hds Hd) as (k & Hk & [Hlo Hc]).
    destruct (registered_find k (factories m) (Hres f k Hin Hk)) as [g Hg].
    rewrite Hg in Hc. destruct (promises sys !! d) as [prd|] eqn:Hprd; [|done].
    injection Hc as Hc.
    assert (status prd = Rejected e) as Hstd.
    { unfold rejection, status_of in Hrej. rewrite Hprd in Hrej. simpl in Hrej.
      destruct (status prd); congruence. }
    destruct (IH d ltac:(lia) prd g e ltac:(lia) Hprd Hc Hstd)
      as (q & prq & fq & args & Hq & Hrest).
    exists q, prq, fq, args. split; [lia|done].
Qed.

(** A continuation that rejects its promise writes no cache. *)
Lemma Resumed_rejecting_frame q (sys sys' : Sys World) pr' err :
  Resumed q sys sys' → promises sys' !! q = Some pr' → status pr' = Rejected err →
  instances sys' = instances sys.
Proof.
  intros Hstep Hq Hst'. step_cases Hstep; try done; stepped_promise Hq Hp0; try done.
Qed.

Lemma stable_resume_fulfils g v p (sys : Sys World) pr vs :
  stable g v sys → promises sys !! p = Some pr → callee pr = Some g →
  status pr = Waiting → Promise_all (promises sys) (deps pr) = Some (Normal vs) →
  ∃ sys' pr', resume p sys = Some sys' ∧ promises sys' !! p = Some pr' ∧
              status pr' = Fulfilled v.
Proof.
  intros Hstable Hp Hg Hwait Hnormal.
  destruct (resume_Waiting p sys pr g _ Hp Hg Hwait Hnormal) as [sys' Hres].
  exists sys'. pose proof Hres as Hstep%resume_Resumed.
  destruct (stable_Resumed_self g v p sys sys' pr Hstable Hstep Hp Hg)
    as (_ & _ & pr' & Hp' & _ & Hst').
  exists pr'. split_and!; [done..|].
  destruct Hst' as [?|(err & d & Hrej & _)]; [done|]. exfalso.
  destruct Hstable as (Hsing & _).
  step_cases Hstep; rewrite Hp in Hp0; injection Hp0 as <-; try congruence;
    rewrite Hg in Hf0; injection Hf0 as <-;
    stepped_promise Hp' Hp; try congruence.
  unfold is_singleton in Hsing. by rewrite Hlt in Hsing.
Qed.

End Resolution.

(** ** Composition of modules *)

Section Composition.

Context {World : Type}.

Implicit Types (f g : ServiceFactory World) (fs : list (ServiceFactory World))
  (m : ServiceModule World) (entries : list (Entry World)) (K : ServiceKey)
  (mp : list (positive * ServiceFactory World)).

Lemma Map_set_overwrite mp k f g : Map_set k g (Map_set k f mp) = Map_set k g mp.
Proof.
  induction mp as [|[k' v'] mp IH]; simpl.
  - by rewrite decide_True.
  - destruct (decide (k' = k)) as [->|Hne]; simpl.
    + by rewrite decide_True.
    + rewrite decide_False by done. by rewrite IH.
Qed.

Lemma Map_set_comm mp k1 k2 f g :
  k1 ∈ mp.*1 → k1 ≠ k2 →
  Map_set k1 f (Map_set k2 g mp) = Map_set k2 g (Map_set k1 f mp).
Proof.
  intros Hin Hne. induction mp as [|[k v] mp IH]; simpl in *.
  - by apply elem_of_nil in Hin.
  - apply elem_of_cons in Hin.
    destruct (decide (k = k2)) as [Hk2|Hk2]; destruct (decide (k = k1)) as [Hk1|Hk1];
      simpl; subst; try done.
    + rewrite (decide_False (P := k2 = k1)) by done. by rewrite decide_True.
    + rewrite decide_True by done. by rewrite (decide_False (P := k1 = k2)).
    + rewrite !decide_False by done. f_equal. apply IH. by destruct Hin.
Qed.

Lemma Map_set_keys mp k f :
  (Map_set k f mp).*1 = if decide (k ∈ mp.*1) then mp.*1 else mp.*1 ++ [k].
Proof.
  induction mp as [|[k' v'] mp IH].
  - destruct (decide (k ∈ ([] : list (positive * ServiceFactory World)).*1)) as [Hin|_];
      [by apply elem_of_nil in Hin|done].
  - cbn [Map_set]. destruct (decide (k' = k)) as [->|Hne].
    + rewrite decide_True; [done|]. left.
    + rewrite fmap_cons, IH. destruct (decide (k ∈ mp.*1)) as [Hin|Hnotin].
      * rewrite decide_True; [done|]. by right.
      * rewrite decide_False; [done|]. intros Hin. apply elem_of_cons in Hin as [?|?]; done.
Qed.

Lemma set_each_snoc fs f mp : set_each (fs ++ [f]) mp = Map_set (sym f) f (set_each fs mp).
Proof. unfold set_each. by rewrite fold_left_app. Qed.

Lemma set_each_app fs1 fs2 mp : set_each (fs1 ++ fs2) mp = set_each fs2 (set_each fs1 mp).
Proof. unfold set_each. by rewrite fold_left_app. Qed.

Lemma set_each_present fs mp k f :
  k ∈ mp.*1 → (∀ g, g ∈ fs → sym g ≠ k) →
  Map_set k f (set_each fs mp) = set_each fs (Map_set k f mp).
Proof.
  revert mp. induction fs as [|g fs IH]; intros mp Hin Hfree; [done|].
  change (set_each (g :: fs) mp) with (set_each fs (Map_set (sym g) g mp)).
  change (set_each (g :: fs) (Map_set k f mp))
    with (set_each fs (Map_set (sym g) g (Map_set k f mp))).
  rewrite IH.
  - f_equal. apply Map_set_comm; [done|]. intros Heq. apply (Hfree g); [left|done].
  - rewrite Map_set_keys. case_decide; [done|]. apply elem_of_app. by left.
  - intros h Hh. apply Hfree. by right.
Qed.

Lemma Map_set_split mp k f :
  NoDup mp.*1 →
  ((k ∉ mp.*1) ∧ Map_set k f mp = mp ++ [(k, f)]) ∨
  (∃ before g after,
      mp = before ++ (k, g) :: after ∧ Map_set k f mp = before ++ (k, f) :: after ∧
      k ∉ after.*1).
Proof.
  induction mp as [|[k' v'] mp IH]; simpl; intros Hnd.
  - left. split; [apply not_elem_of_nil|done].
  - apply NoDup_cons in Hnd as [Hnotin Hnd].
    destruct (decide (k' = k)) as [->|Hne].
    + right. by exists [], v', mp.
    + destruct (IH Hnd) as [[Hk ->]|(before & g & after & -> & -> & Hafter)].
      * left. split; [|done]. intros Hin. apply elem_of_cons in Hin as [?|?]; done.
      * right. by exists ((k', v') :: before), g, after.
Qed.

Lemma set_each_values fs mp :
  set_each (Map_values (byKey fs)) mp = set_each fs mp.
Proof.
  induction fs as [|f fs IH] using rev_ind; [done|].
  rewrite byKey_snoc, set_each_snoc.
  destruct (keyed_byKey fs) as [Hsym Hnd].
  destruct (Map_set_split (byKey fs) (sym f) f Hnd)
    as [[_ ->]|(before & g & after & Heq & -> & Hafter)].
  - unfold Map_values. rewrite map_app. simpl. rewrite set_each_snoc. by rewrite <- IH.
  - rewrite <- IH, Heq. unfold Map_values. rewrite !map_app. simpl.
    rewrite !set_each_app.
    change (set_each (f :: map snd after) ?M)
      with (set_each (map snd after) (Map_set (sym f) f M)).
    change (set_each (g :: map snd after) ?M)
      with (set_each (map snd after) (Map_set (sym g) g M)).
    assert (sym g = sym f) as Hg.
    { rewrite Heq in Hsym. apply Forall_app in Hsym as [_ Hsym].
      apply Forall_cons in Hsym as [Hsym _]. done. }
    rewrite Hg, (set_each_present (map snd after)).
    + by rewrite Map_set_overwrite.
    + rewrite Map_set_keys. case_decide; [done|]. apply elem_of_app. right. left.
    + intros h Hh Hsymh. apply Hafter.
      apply list_elem_of_fmap in Hh as [[k' h'] [-> Hh]]. simpl in *.
      rewrite Heq in Hsym. apply Forall_app in Hsym as [_ Hsym].
      apply Forall_cons in Hsym as [_ Hsym].
      rewrite Forall_forall in Hsym. specialize (Hsym _ Hh). simpl in Hsym.
      apply list_elem_of_fmap. exists (k', h'). split; [simpl; congruence|done].
Qed.

Lemma flatten_app entries1 entries2 :
  flatten (entries1 ++ entries2) = flatten entries1 ++ flatten entries2.
Proof. unfold flatten. apply flat_map_app. Qed.

(** X2.  A module among the entries of [from] counts as the entries it was
    built from, whatever stands before and after it: the result is the same
    module, or the same error.  In particular [from] applied to a module
    alone returns a module with the same factories. *)
Theorem from_flattens_modules entries m before after :
  from entries = Normal m →
  from (before ++ ModuleEntry m :: after) = from (before ++ entries ++ after) ∧
  from [ModuleEntry m] = Normal m.
Proof.
  intros Hfrom.
  assert (from (before ++ ModuleEntry m :: after) = from (before ++ entries ++ after)) as Hgen.
  { unfold from. f_equal. f_equal.
    rewrite !flatten_app.
    change (flatten (ModuleEntry m :: after)) with (factories m ++ flatten after).
    rewrite (from_Normal_factories _ _ Hfrom). unfold survivors.
    change byKey with (λ l : list (ServiceFactory World), set_each l []).
    simpl. rewrite !set_each_app. f_equal.
    apply set_each_values. }
  split; [done|].
  assert (from [ModuleEntry m] = from ([] ++ entries ++ [])) as ->; [|by rewrite app_nil_r].
  clear Hgen. unfold from. f_equal. f_equal. simpl. rewrite !app_nil_r.
  rewrite (from_Normal_factories _ _ Hfrom). unfold survivors.
  change byKey with (λ l : list (ServiceFactory World), set_each l []).
  simpl. apply set_each_values.
Qed.

Lemma first_occurrences_elem_of (l : list positive) x : x ∈ first_occurrences l ↔ x ∈ l.
Proof.
  induction l as [|y l IH]; simpl; [done|].
  rewrite !elem_of_cons, list_elem_of_filter, IH.
  destruct (decide (x = y)); intuition.
Qed.

Lemma first_occurrences_snoc (l : list positive) x :
  first_occurrences (l ++ [x]) =
  if decide (x ∈ l) then first_occurrences l else first_occurrences l ++ [x].
Proof.
  induction l as [|y l IH]; simpl.
  - done.
  - rewrite IH. destruct (decide (x ∈ l)) as [Hin|Hnotin].
    + rewrite decide_True; [done|]. by right.
    + rewrite filter_app. destruct (decide (x = y)) as [->|Hne].
      * rewrite decide_True by left. rewrite filter_cons_False by (intros ?; done).
        by rewrite filter_nil, app_nil_r.
      * rewrite decide_False by (intros Hin; apply elem_of_cons in Hin as [?|?]; done).
        rewrite filter_cons_True by done. done.
Qed.

Lemma byKey_keys fs : (byKey fs).*1 = first_occurrences (sym <$> fs).
Proof.
  induction fs as [|f fs IH] using rev_ind; [done|].
  rewrite byKey_snoc, Map_set_keys, fmap_app.
  change (sym <$> [f]) with [sym f]. rewrite first_occurrences_snoc, IH.
  destruct (decide (sym f ∈ first_occurrences (sym <$> fs))) as [Hin|Hnotin].
  - rewrite decide_True; [done|]. by apply first_occurrences_elem_of.
  - rewrite decide_False; [done|]. by rewrite <- first_occurrences_elem_of.
Qed.

(** X3.  The module lists its services in the order in which their keys
    first occur in the flattened entries; the factory listed for a key is the
    last one that provides it, so that an overriding factory takes the place
    of the factory it overrides. *)
Theorem from_keeps_first_position entries m :
  from entries = Normal m →
  Forall2 (λ s f, sym f = s ∧
                  last (filter (λ g, sym g = s) (flatten entries)) = Some f)
          (first_occurrences (sym <$> flatten entries)) (factories m).
Proof.
  intros Hfrom. rewrite (from_Normal_factories _ _ Hfrom).
  rewrite <- byKey_keys.
  assert (∀ f, f ∈ survivors entries → f ∈ survivors entries) as Hsub by done.
  revert Hsub. unfold survivors at 1 3.
  destruct (keyed_byKey (flatten entries)) as [Hsym _]. revert Hsym.
  generalize (byKey (flatten entries)). intros mp Hsym Hsub.
  induction mp as [|[k f] mp IH]; simpl; [constructor|].
  apply Forall_cons in Hsym as [Hk Hsym]. simpl in Hk. constructor.
  - split; [done|]. subst k. apply elem_of_survivors. apply Hsub. left.
  - apply IH; [done|]. intros g Hg. apply Hsub. by right.
Qed.

End Composition.

(** ** Resolution and disposal, further *)

Section Lifecycle.

Context {World : Type}.

Implicit Types (f g : ServiceFactory World) (pr : Promise World).
Implicit Types (fs : list (ServiceFactory World)) (ps : list (Promise World)).
Implicit Types (m : ServiceModule World) (sys : Sys World).

(** *** Dependency cycles *)


Lemma from_find (entries : list (Entry World)) (m : ServiceModule World) K f :
  from entries = Normal m → f ∈ factories m → sym f = symbol K →
  find (isSuitable K) (factories m) = Some f.
Proof.
  intros Hfrom Hf Hsym. rewrite find_isSuitable.
  rewrite (from_Normal_factories _ _ Hfrom) in *. unfold survivors in *.
  assert (f ∈ filter (λ g, sym g = symbol K) (Map_values (byKey (flatten entries)))) as Hin.
  { by apply list_elem_of_filter. }
  rewrite byKey_filter in Hin |- *.
  destruct (last _) as [g|]; simpl in *.
  - apply list_elem_of_singleton in Hin. by subst.
  - by apply elem_of_nil in Hin.
Qed.


(** *** Validation and lookup agree *)

Lemma get_each_found fs (get1 : ServiceKey → list (Promise World) → option (nat * list (Promise World)))
    keys ps ds ps' :
  (∀ k ps0 p ps1, k ∈ keys → get1 k ps0 = Some (p, ps1) →
     ∃ new, ps1 = ps0 ++ new ∧ Forall (λ pr, ∃ f, callee pr = Some f ∧ f ∈ fs) new) →
  get_each get1 keys ps = Some (ds, ps') →
  ∃ new, ps' = ps ++ new ∧ Forall (λ pr, ∃ f, callee pr = Some f ∧ f ∈ fs) new.
Proof.
  intros Hget1. revert ps ds. induction keys as [|k keys IH]; intros ps ds; simpl.
  - intros [= <- <-]. exists []. by rewrite app_nil_r.
  - destruct (get1 k ps) as [[p ps1]|] eqn:Hk; [|done].
    destruct (get_each get1 keys ps1) as [[rest ps2]|] eqn:Hrest; [|done].
    intros [= <- <-].
    destruct (Hget1 k ps p ps1) as (new1 & -> & Hnew1); [left|done|].
    destruct IH with (ps := ps ++ new1) (ds := rest) as (new2 & -> & Hnew2).
    + intros k' ps0 p' ps1' Hk'. apply Hget1. by right.
    + done.
    + exists (new1 ++ new2). rewrite app_assoc. split; [done|]. by apply Forall_app.
Qed.

Lemma get_sync_found fs fuel K ps p ps' :
  resolvable fs → registered K fs →
  get_sync fuel fs K ps = Some (p, ps') →
  ∃ new, ps' = ps ++ new ∧ Forall (λ pr, ∃ f, callee pr = Some f ∧ f ∈ fs) new.
Proof.
  intros Hres. revert K ps p ps'. induction fuel as [|fuel IH]; intros K ps p ps' Hreg; [done|].
  simpl. destruct (registered_find K fs Hreg) as [f Hfind]. rewrite Hfind.
  destruct (get_each _ _ _) as [[ds ps1]|] eqn:Heach; [|done]. intros [= <- <-].
  assert (f ∈ fs) as Hf by (apply find_some in Hfind as [Hin _]; by apply list_elem_of_In).
  destruct (get_each_found fs _ _ _ _ _ (λ k ps0 p ps1 Hk, IH k ps0 p ps1 (Hres f k Hf Hk)) Heach)
    as (new & -> & Hnew).
  exists (new ++ [{| callee := Some f; status := Waiting; deps := ds |}]).
  rewrite app_assoc. split; [done|]. apply Forall_app. split; [done|].
  constructor; [|done]. by exists f.
Qed.

(** X5.  What the constructor checks with [isRegistered] is what [get] looks
    up with [isSuitable]: in a module built by [from], every call made for
    the resolution of a key that has a factory, at whatever depth and at any
    later time, holds a factory of the module; none is a call that threw the
    error of the missing factory. *)
Theorem get_finds_every_dependency (entries : list (Entry World)) (m : ServiceModule World)
    K fuel (sys sys1 sys2 : Sys World) p (i : nat) pr :
  from entries = Normal m →
  registered K (factories m) →
  get fuel m K sys = Some (p, sys1) →
  steps sys1 sys2 →
  (length (promises sys) ≤ i)%nat →
  promises sys2 !! i = Some pr →
  ∃ f, callee pr = Some f ∧ f ∈ factories m.
Proof.
  intros Hfrom Hreg Hget Hsteps Hi Hpr.
  apply get_inv in Hget as (ps' & Hsync & ->).
  apply get_sync_found in Hsync as (new & -> & Hnew); [|by eapply from_resolvable|done].
  destruct (steps_lookup_inv i _ _ pr Hsteps Hpr) as (pr0 & Hpr0 & Hcallee & _).
  simpl in Hpr0. rewrite lookup_app_r in Hpr0 by done.
  rewrite Forall_forall in Hnew.
  destruct (Hnew pr0) as (f & Hf & Hin); [by eapply list_elem_of_lookup_2|].
  exists f. split; [congruence|done].
Qed.

(** *** Disposal, again *)

Lemma dispose_each_idle fs sys :
  (∀ f, f ∈ fs → is_singleton f → instance f sys = JUndefined) →
  dispose_each fs sys = (Normal tt, sys).
Proof.
  induction fs as [|f fs IH]; intros Hidle; [done|].
  simpl. assert (factory_dispose f sys = (Normal tt, sys)) as ->.
  { unfold factory_dispose. destruct (lifetime f) as [ud|] eqn:Hlt; [|done].
    rewrite decide_True; [done|]. apply Hidle; [left|]. unfold is_singleton. by rewrite Hlt. }
  apply IH. intros g Hg. apply Hidle. by right.
Qed.

(** X6.  A [dispose] that has returned leaves nothing for the same [dispose]
    to do: called again at once, it returns without running a teardown and
    without changing anything. *)
Theorem dispose_twice m sc sys sys' :
  NoDup (fid <$> factories m) →
  dispose m sc sys = (Normal tt, sys') →
  dispose m sc sys' = (Normal tt, sys').
Proof.
  intros Hnd Hdisp. rewrite dispose_selected in *.
  assert (NoDup (fid <$> filter (selected sc) (factories m))) as Hnd'.
  { eapply sublist_NoDup; [exact Hnd|]. apply fmap_sublist, sublist_filter. }
  destruct (dispose_each_Normal _ _ _ Hnd' Hdisp) as (_ & _ & Hcleared & _).
  by apply dispose_each_idle.
Qed.

(** X7.  [dispose] selects by the scope object, not by its name: a scope
    constructed after the scopes of the factories, on a symbol of its own,
    selects no factory whatever its name is, and [dispose] on it does
    nothing. *)
Theorem dispose_selects_scope_by_identity m sys (n : string) (fresh : positive) :
  (∀ f s, f ∈ factories m → scope f = Some s → (scope_symbol s < fresh)%positive) →
  filter (selected (Some (new_ServiceScope n fresh).1)) (factories m) = [] ∧
  dispose m (Some (new_ServiceScope n fresh).1) sys = (Normal tt, sys).
Proof.
  intros Holder.
  assert (filter (selected (Some (new_ServiceScope n fresh).1)) (factories m) = []) as Hnone.
  { induction (factories m) as [|f fs IH]; [done|].
    rewrite filter_cons_False.
    - apply IH. intros g s Hg. apply Holder. by right.
    - intros Hsel. simpl in Hsel.
      specialize (Holder f _ (list_elem_of_here _ _) Hsel). simpl in Holder. lia. }
  split; [done|]. by rewrite dispose_selected, Hnone.
Qed.

Lemma factory_dispose_Throw f sys sys' e :
  factory_dispose f sys = (Throw e, sys') →
  is_singleton f ∧ instance f sys ≠ JUndefined ∧
  promises sys' = promises sys ∧ instances sys' = instances sys ∧
  log sys' = log sys ++ [EvUserDispose (fid f) (instance f sys)].
Proof.
  unfold factory_dispose, is_singleton. destruct (lifetime f) as [ud|]; [|done].
  case_decide as Hinst; [done|].
  destruct (ud _ _) as [[[]|e'] w]; [done|]. by intros [= <- <-].
Qed.

Lemma dispose_each_Throw fs sys sys' e :
  dispose_each fs sys = (Throw e, sys') →
  ∃ before f after sys1,
    fs = before ++ f :: after ∧
    dispose_each before sys = (Normal tt, sys1) ∧
    factory_dispose f sys1 = (Throw e, sys').
Proof.
  revert sys. induction fs as [|f fs IH]; intros sys; simpl; [done|].
  destruct (factory_dispose f sys) as [[[]|e'] sys1] eqn:Hf.
  - intros (before & g & after & sys2 & -> & Hbefore & Hg)%IH.
    exists (f :: before), g, after, sys2. simpl. by rewrite Hf.
  - intros [= <- <-]. by exists [], f, fs, sys.
Qed.

(** [dispose] over a list of factories that is given in two parts. *)
Lemma dispose_each_app before after sys :
  dispose_each (before ++ after) sys =
    match dispose_each before sys with
    | (Normal _, sys1) => dispose_each after sys1
    | (Throw e, sys1) => (Throw e, sys1)
    end.
Proof.
  revert sys. induction before as [|f before IH]; intros sys; simpl.
  - done.
  - destruct (factory_dispose f sys) as [[[]|e] sys1]; [apply IH|done].
Qed.

(** X8.  A teardown that throws ends [dispose] there.  When the teardowns
    of the selected factories before a singleton return and the teardown of
    the singleton throws, [dispose] throws that very exception; the
    singleton keeps its instance, since the wrapper clears it after the
    teardown has returned; the selected factories before it are disposed
    of; the factories after it are not reached. *)
Theorem dispose_stops_at_throwing_teardown m sc sys before f after user_dispose sys1 e w :
  NoDup (fid <$> factories m) →
  filter (selected sc) (factories m) = before ++ f :: after →
  dispose_each before sys = (Normal tt, sys1) →
  lifetime f = Singleton user_dispose →
  instance f sys ≠ JUndefined →
  user_dispose (instance f sys) (world sys1) = (Throw e, w) →
  ∃ sys',
    dispose m sc sys = (Throw e, sys') ∧
    instance f sys' = instance f sys ∧
    promises sys' = promises sys ∧
    world sys' = w ∧
    log sys' = log sys ++ omap (teardown_event sys) before
                 ++ [EvUserDispose (fid f) (instance f sys)] ∧
    (∀ g, g ∈ before → is_singleton g → instance g sys' = JUndefined) ∧
    (∀ g, g ∈ after → instance g sys' = instance g sys).
Proof.
  intros Hnd Heq Hbefore Hlt Hinst Hthrow.
  assert (NoDup (fid <$> filter (selected sc) (factories m))) as Hnd'.
  { eapply sublist_NoDup; [exact Hnd|]. apply fmap_sublist, sublist_filter. }
  rewrite Heq in Hnd'. rewrite fmap_app, fmap_cons in Hnd'.
  apply NoDup_app in Hnd' as (Hnd1 & Hdisj & Hnd2).
  apply NoDup_cons in Hnd2 as [Hfafter _].
  destruct (dispose_each_Normal _ _ _ Hnd1 Hbefore) as (Hps & Hlog & Hcleared & Hframe).
  assert (∀ g, fid g ∉ fid <$> before → instance g sys1 = instance g sys) as Hother.
  { intros g Hg. unfold instance. rewrite Hframe; [done|].
    intros h Hh _ _ Heq'. apply Hg. rewrite <- Heq'. by apply list_elem_of_fmap_2. }
  assert (instance f sys1 = instance f sys) as Hsame.
  { apply Hother. intros Hin. apply (Hdisj _ Hin). left. }
  eexists. split.
  - rewrite dispose_selected, Heq, dispose_each_app, Hbefore. simpl.
    unfold factory_dispose. rewrite Hlt, Hsame, decide_False, Hthrow by done. reflexivity.
  - simpl. split_and!.
    + exact Hsame.
    + done.
    + done.
    + by rewrite Hlog, <- app_assoc.
    + intros g Hg Hsg. by apply Hcleared.
    + intros g Hg. apply Hother.
      intros Hin. apply (Hdisj _ Hin). right. by apply list_elem_of_fmap_2.
Qed.

Lemma factory_dispose_undefined f g sys r sys' :
  instance g sys = JUndefined →
  factory_dispose f sys = (r, sys') →
  instance g sys' = JUndefined ∧ promises sys' = promises sys ∧
  ∀ v, EvUserDispose (fid g) v ∈ log sys' → EvUserDispose (fid g) v ∈ log sys.
Proof.
  intros Hg. unfold factory_dispose. destruct (lifetime f) as [ud|]; [|by intros [= <- <-]].
  case_decide as Hinst; [by intros [= <- <-]|].
  assert (fid f ≠ fid g) as Hne.
  { intros Heq. unfold instance in *. by rewrite Heq in Hinst. }
  destruct (ud _ _) as [[[]|e] w]; intros [= <- <-]; simpl; split_and!; try done.
  - unfold instance in *. simpl. by rewrite lookup_insert_ne.
  - intros v [Hev|Hev%list_elem_of_singleton]%elem_of_app; [done|congruence].
  - intros v [Hev|Hev%list_elem_of_singleton]%elem_of_app; [done|congruence].
Qed.

Lemma dispose_each_undefined fs g sys r sys' :
  instance g sys = JUndefined →
  dispose_each fs sys = (r, sys') →
  instance g sys' = JUndefined ∧ promises sys' = promises sys ∧
  ∀ v, EvUserDispose (fid g) v ∈ log sys' → EvUserDispose (fid g) v ∈ log sys.
Proof.
  revert sys. induction fs as [|f fs IH]; intros sys Hg; simpl.
  - by intros [= <- <-].
  - destruct (factory_dispose f sys) as [[[]|e] sys1] eqn:Hf.
    + destruct (factory_dispose_undefined f g sys _ sys1 Hg Hf) as (Hg1 & Hps1 & Hlog1).
      intros (Hg' & Hps' & Hlog')%IH; [|done]. split_and!; [done|congruence|auto].
    + intros [= <- <-]. by eapply factory_dispose_undefined.
Qed.

(** X9.  [dispose] tests the cache, not the calls in flight.  A singleton
    whose user initializer has been called and whose wrapper is still at its
    [await] holds no instance yet: [dispose] runs no teardown for it, and
    the wrapper stores the instance afterwards. *)
Theorem dispose_misses_initialization_in_flight m sc sys r sys' (p : nat) pr g v :
  promises sys !! p = Some pr → callee pr = Some g →
  status pr = Initializing (Normal v) →
  instance g sys = JUndefined →
  dispose m sc sys = (r, sys') →
  instance g sys' = JUndefined ∧
  (∀ v', EvUserDispose (fid g) v' ∈ log sys' → EvUserDispose (fid g) v' ∈ log sys) ∧
  ∃ sys'', resume p sys' = Some sys'' ∧
           status_of (promises sys'') p = Some (Fulfilled v) ∧
           instance g sys'' = v ∧ log sys'' = log sys'.
Proof.
  intros Hp Hg Hst Hinst Hdisp. rewrite dispose_selected in Hdisp.
  destruct (dispose_each_undefined _ g sys r sys' Hinst Hdisp) as (Hinst' & Hps & Hlog).
  split_and!; [done|done|].
  exists (set_status p (Fulfilled v) (set_instance g v sys')). split_and!.
  - unfold resume. rewrite Hps, Hp, Hg, Hst. done.
  - unfold status_of. simpl. rewrite Hps, list_lookup_alter, decide_True, Hp by done. done.
  - unfold instance. simpl. by rewrite lookup_insert_eq.
  - done.
Qed.

(** *** Overlapping resolutions of a singleton *)

Lemma Promise_all_alter ps (p : nat) (ds : list nat) args st pr :
  ps !! p = Some pr → status pr = Waiting →
  Promise_all ps ds = Some (Normal args) →
  Promise_all (alter (λ pr, {| callee := callee pr; status := st; deps := deps pr |}) p ps) ds
    = Some (Normal args).
Proof.
  intros Hp Hst Hall. apply Promise_all_fulfilled.
  apply Promise_all_Normal in Hall.
  eapply Forall2_impl; [exact Hall|]. intros d a Hd. simpl in Hd.
  unfold fulfilled_value, status_of in *.
  destruct (decide (d = p)) as [->|Hne].
  - rewrite Hp in Hd. simpl in Hd. by rewrite Hst in Hd.
  - by rewrite list_lookup_alter_ne.
Qed.

(** X10.  Two calls on one singleton that both reach the wrapper before either
    has stored its instance: each finds the cache empty and runs the user
    initializer; each caller receives the instance made for it, and the cache
    keeps the one stored last. *)
Theorem singleton_overlapping_calls_initialize_twice g sys (p q : nat) prp prq
    argsp argsq vp vq w1 w2 ud :
  lifetime g = Singleton ud →
  p ≠ q →
  promises sys !! p = Some prp → callee prp = Some g → status prp = Waiting →
  Promise_all (promises sys) (deps prp) = Some (Normal argsp) →
  promises sys !! q = Some prq → callee prq = Some g → status prq = Waiting →
  Promise_all (promises sys) (deps prq) = Some (Normal argsq) →
  instance g sys = JUndefined →
  user_initialize g argsp (world sys) = (Normal vp, w1) →
  user_initialize g argsq w1 = (Normal vq, w2) →
  ∃ sys',
    run [p; q; p; q] sys = Some sys' ∧
    status_of (promises sys') p = Some (Fulfilled vp) ∧
    status_of (promises sys') q = Some (Fulfilled vq) ∧
    instance g sys' = vq ∧
    world sys' = w2 ∧
    log sys' = log sys ++
      [EvInitialize p (fid g) argsp; EvUserInit p (fid g) argsp (Normal vp);
       EvInitialize q (fid g) argsq; EvUserInit q (fid g) argsq (Normal vq)].
Proof.
  intros Hlt Hpq Hp Hgp Hstp Hallp Hq Hgq Hstq Hallq Hinst Hup Huq.
  eexists. split.
  - simpl.
    (* the first call runs the user initializer *)
    unfold resume at 1. rewrite Hp, Hgp, Hstp, Hallp.
    unfold initialize_begin. rewrite Hlt.
    change (instance g (record (EvInitialize p (fid g) argsp) sys)) with (instance g sys).
    rewrite decide_True by done. unfold call_user_initialize. simpl world. rewrite Hup.
    (* so does the second *)
    unfold resume at 1. simpl promises.
    rewrite list_lookup_alter_ne by done. rewrite Hq, Hgq, Hstq.
    rewrite (Promise_all_alter _ p _ argsq _ prp) by done.
    unfold initialize_begin. rewrite Hlt.
    match goal with |- context [decide (instance g ?s = JUndefined)] =>
      change (instance g s) with (instance g sys) end.
    rewrite decide_True by done. unfold call_user_initialize. simpl world. rewrite Huq.
    (* the first stores its instance *)
    unfold resume at 1. simpl promises.
    rewrite list_lookup_alter_ne by done.
    rewrite list_lookup_alter, decide_True, Hp by done. simpl. rewrite Hgp.
    (* the second stores its own *)
    unfold resume at 1. simpl promises.
    rewrite list_lookup_alter_ne by done.
    rewrite list_lookup_alter, decide_True by done.
    rewrite list_lookup_alter_ne by done. rewrite Hq. simpl. rewrite Hgq.
    reflexivity.
  - unfold status_of, instance. simpl. split_and!.
    + rewrite list_lookup_alter_ne by done.
      rewrite list_lookup_alter, decide_True by done.
      rewrite list_lookup_alter_ne by done.
      rewrite list_lookup_alter, decide_True, Hp by done. done.
    + rewrite list_lookup_alter, decide_True by done.
      rewrite list_lookup_alter_ne by done.
      rewrite list_lookup_alter, decide_True by done.
      rewrite list_lookup_alter_ne by done. by rewrite Hq.
    + by rewrite lookup_insert_eq.
    + done.
    + by rewrite <- !app_assoc.
Qed.

(** *** The order of initialization *)

Lemma ordered_empty (w : World) : ordered (empty_sys w).
Proof. intros i p c args pr d Hi. done. Qed.

Lemma Resumed_log_shape (p : nat) sys sys' :
  Resumed p sys sys' →
  log sys' = log sys ∨
  ∃ pr f args rest,
    promises sys !! p = Some pr ∧ callee pr = Some f ∧
    Promise_all (promises sys) (deps pr) = Some (Normal args) ∧
    log sys' = log sys ++ EvInitialize p (fid f) args :: rest ∧
    ∀ ev, ev ∈ rest → ∃ r, ev = EvUserInit p (fid f) args r.
Proof.
  intros Hstep.
  destruct Hstep as [pr f e Hp Hf Hst Hall | pr f args r w Hp Hf Hst Hall Hlt Hu
                    | pr f args r w ud Hp Hf Hst Hall Hlt Hinst Hu
                    | pr f args ud Hp Hf Hst Hall Hlt Hinst | pr f v Hp Hf Hst
                    | pr f e Hp Hf Hst];
    simpl; try (by left); right.
  - exists pr, f, args, [EvUserInit p (fid f) args r]. split_and!; try done.
    + by rewrite <- app_assoc.
    + intros ev Hev%list_elem_of_singleton. eauto.
  - exists pr, f, args, [EvUserInit p (fid f) args r]. split_and!; try done.
    + by rewrite <- app_assoc.
    + intros ev Hev%list_elem_of_singleton. eauto.
  - exists pr, f, args, []. split_and!; try done.
    intros ev Hev. by apply elem_of_nil in Hev.
Qed.

Lemma ordered_Resumed (p : nat) sys sys' :
  coherent sys → ordered sys → Resumed p sys sys' → ordered sys'.
Proof.
  intros Hcoh Hord Hstep i q c args pr d Hi Hq Hd.
  destruct (Resumed_lookup_inv p q sys sys' pr Hstep Hq) as (pr0 & Hq0 & _ & Hdeps & _).
  assert (∀ j ev, log sys !! j = Some ev → log sys' !! j = Some ev) as Hmono.
  { intros j ev Hj. destruct (Resumed_log p sys sys' Hstep) as [new ->].
    by apply lookup_app_l_Some. }
  assert (log sys !! i = Some (EvInitialize q c args) →
          ∃ (j : nat) c' args', (j < i)%nat ∧ log sys' !! j = Some (EvInitialize d c' args'))
    as Hold.
  { intros Hi0. rewrite Hdeps in Hd.
    destruct (Hord i q c args pr0 d Hi0 Hq0 Hd) as (j & c' & args' & Hlt & Hj).
    exists j, c', args'. split; [done|]. by apply Hmono. }
  destruct (Resumed_log_shape p sys sys' Hstep)
    as [Hsame|(prp & f & args0 & rest & Hp & Hf & Hall & Hlog & Hrest)].
  { apply Hold. by rewrite <- Hsame. }
  rewrite Hlog in Hi. apply lookup_app_Some in Hi as [Hi|[Hlen Hi]]; [by apply Hold|].
  destruct (i - length (log sys))%nat as [|k] eqn:Hk; simpl in Hi.
  - injection Hi as <- <- <-. rewrite Hp in Hq0. injection Hq0 as <-.
    rewrite Hdeps in Hd.
    apply Promise_all_Normal in Hall.
    apply list_elem_of_lookup in Hd as [n Hn].
    destruct (Forall2_lookup_l _ _ _ _ _ Hall Hn) as (a & _ & Ha).
    unfold fulfilled_value, status_of in Ha.
    destruct (promises sys !! d) as [prd|] eqn:Hprd; [|done]. simpl in Ha.
    destruct (status prd) as [| |v|] eqn:Hstd; try done.
    destruct (callee prd) as [fd|] eqn:Hfd.
    + pose proof (coh_status sys Hcoh d prd fd Hprd Hfd) as Hexp.
      unfold explained in Hexp. rewrite Hstd in Hexp. destruct Hexp as [[argsd Hev] _].
      apply list_elem_of_lookup in Hev as [j Hj].
      exists j, (fid fd), argsd. split.
      * apply lookup_lt_Some in Hj. lia.
      * rewrite Hlog. by apply lookup_app_l_Some.
    + destruct (coh_not_found sys Hcoh d prd Hprd Hfd) as [k Hrej]. congruence.
  - apply list_elem_of_lookup_2 in Hi. destruct (Hrest _ Hi) as [r Hr]. done.
Qed.

Lemma ordered_get fuel m K sys (p : nat) sys' :
  coherent sys → ordered sys → get fuel m K sys = Some (p, sys') → ordered sys'.
Proof.
  intros Hcoh Hord Hget i q c args pr d Hi Hq Hd.
  apply get_inv in Hget as (ps' & Hsync & ->). simpl in *.
  apply get_sync_spawned in Hsync as ([[new ->] _] & _ & _).
  destruct (coh_initialize sys Hcoh q c args) as (pr0 & f & Hq0 & _);
    [by eapply list_elem_of_lookup_2|].
  rewrite (lookup_app_l_Some _ _ _ _ Hq0) in Hq. injection Hq as <-.
  by eapply Hord.
Qed.

Lemma ordered_steps sys sys' : coherent sys → ordered sys → steps sys sys' → ordered sys'.
Proof.
  intros Hcoh Hord Hsteps.
  induction Hsteps as [|sys1 sys2 sys3 [p Hstep]%step_Resumed _ IH]; [done|].
  apply IH; [by eapply coherent_Resumed|by eapply ordered_Resumed].
Qed.

(** X11.  Services are initialized in the order of their dependencies.
    Starting from a state whose log is in that order, as the empty one is:
    whenever [initialize] is called for a call of [get], [initialize] has
    been called before for each of the calls made for its dependencies. *)
Theorem get_initializes_dependencies_first fuel m K sys sys1 sys2 (p : nat) :
  coherent sys → ordered sys →
  get fuel m K sys = Some (p, sys1) →
  steps sys1 sys2 →
  ∀ (i q : nat) c args pr (d : nat),
    log sys2 !! i = Some (EvInitialize q c args) →
    promises sys2 !! q = Some pr → d ∈ deps pr →
    ∃ (j : nat) c' args', (j < i)%nat ∧ log sys2 !! j = Some (EvInitialize d c' args').
Proof.
  intros Hcoh Hord Hget Hsteps.
  apply (ordered_steps sys1 sys2); [by eapply coherent_get|by eapply ordered_get|done].
Qed.

(** *** When no initializer throws *)

Lemma Resumed_user_init (p q : nat) sys sys' c args r :
  Resumed p sys sys' → EvUserInit q c args r ∈ log sys' →
  EvUserInit q c args r ∈ log sys ∨
  ∃ pr f w, promises sys !! q = Some pr ∧ callee pr = Some f ∧ c = fid f ∧
            user_initialize f args (world sys) = (r, w).
Proof.
  intros Hstep.
  destruct Hstep as [pr f e Hp Hf Hst Hall | pr f args0 r0 w Hp Hf Hst Hall Hlt Hu
                    | pr f args0 r0 w ud Hp Hf Hst Hall Hlt Hinst Hu
                    | pr f args0 ud Hp Hf Hst Hall Hlt Hinst | pr f v Hp Hf Hst
                    | pr f e Hp Hf Hst];
    simpl; try (by left).
  - intros [[Hev|Hev%list_elem_of_singleton]%elem_of_app|Hev%list_elem_of_singleton]%elem_of_app;
      [by left|done|]. injection Hev as -> -> -> ->. right. by exists pr, f, w.
  - intros [[Hev|Hev%list_elem_of_singleton]%elem_of_app|Hev%list_elem_of_singleton]%elem_of_app;
      [by left|done|]. injection Hev as -> -> -> ->. right. by exists pr, f, w.
  - intros [Hev|Hev%list_elem_of_singleton]%elem_of_app; [by left|done].
Qed.

Lemma steps_user_init (q : nat) sys sys' c args r :
  steps sys sys' → EvUserInit q c args r ∈ log sys' →
  EvUserInit q c args r ∈ log sys ∨
  ∃ pr f w w', promises sys' !! q = Some pr ∧ callee pr = Some f ∧ c = fid f ∧
               user_initialize f args w = (r, w').
Proof.
  intros Hsteps. induction Hsteps as [|sys1 sys2 sys3 [p Hstep]%step_Resumed Hrest IH];
    [by left|].
  intros Hev. destruct (IH Hev) as [Hev2|?]; [|by right].
  destruct (Resumed_user_init p q sys1 sys2 c args r Hstep Hev2)
    as [?|(pr & f & w & Hq & Hf & -> & Hu)]; [by left|]. right.
  destruct (Resumed_lookup p q sys1 sys2 pr Hstep Hq) as (pr2 & Hq2 & Hc2 & _).
  destruct (steps_lookup q sys2 sys3 pr2 Hrest Hq2) as (pr3 & Hq3 & Hc3 & _).
  exists pr3, f, (world sys1), w. split_and!; [done|congruence|done|done].
Qed.

(** X12.  In a module built by [from] whose dependency graph has no cycle, a
    resolution in which no user initializer throws is never rejected, under
    any interleaving; no schedule is longer than the work there is; while
    the promise is unsettled some continuation can run; and whenever no
    continuation is left the promise is fulfilled. *)
Theorem get_fulfilled_when_initializers_return (entries : list (Entry World)) m K sys :
  coherent sys →
  from entries = Normal m →
  acyclic (factories m) →
  registered K (factories m) →
  (∀ f args w, f ∈ factories m → ∃ v w', user_initialize f args w = (Normal v, w')) →
  ∃ (p : nat) sys1,
    get (S (length (factories m))) m K sys = Some (p, sys1) ∧
    (∀ sys2 pr e, steps sys1 sys2 → promises sys2 !! p = Some pr → status pr ≠ Rejected e) ∧
    (∀ schedule sys2, run schedule sys1 = Some sys2 → (length schedule ≤ work sys1)%nat) ∧
    (∀ sys2 pr, steps sys1 sys2 → promises sys2 !! p = Some pr → unsettled (status pr) →
       ∃ q : nat, (q ≤ p)%nat ∧ is_Some (resume q sys2)) ∧
    (∀ sys2, steps sys1 sys2 → quiescent sys2 →
       ∃ v, status_of (promises sys2) p = Some (Fulfilled v)).
Proof.
  intros Hcoh Hfrom Hacyc Hreg Hreturn.
  destruct (get_sync_acyclic (factories m) (S (length (factories m))) K (promises sys) Hacyc)
    as [[p ps1] Hsync]; [lia|].
  assert (get (S (length (factories m))) m K sys = Some (p, set_promises ps1 sys)) as Hget.
  { unfold get. by rewrite Hsync. }
  pose proof (coherent_get _ _ _ _ _ _ Hcoh Hget) as Hcoh1.
  destruct (registered_find K (factories m) Hreg) as [f Hfind].
  destruct (get_root _ _ _ _ _ _ f Hget Hfind) as (Hnew & pr1 & Hp1 & Hc1 & _).
  assert (∀ sys2 pr e, steps (set_promises ps1 sys) sys2 →
            promises sys2 !! p = Some pr → status pr ≠ Rejected e) as Hnever.
  { intros sys2 pr e Hsteps Hp Hst.
    pose proof (coherent_steps _ _ Hcoh1 Hsteps) as Hcoh2.
    destruct (steps_lookup p _ sys2 pr1 Hsteps Hp1) as (pr2 & Hp2 & Hc2 & _).
    rewrite Hp in Hp2. injection Hp2 as <-.
    destruct (rejection_origin m sys2 (length (promises sys)) Hcoh2
                (from_resolvable _ _ Hfrom)) with p pr f e
      as (q & prq & fq & args & [Hq _] & Hprq & Hfq & Hin & Hev);
      [|done|done|congruence|done|].
    { intros i pri fi Hi Hpri Hfi. by eapply get_steps_nodes. }
    destruct (steps_user_init q _ sys2 _ _ _ Hsteps Hev)
      as [Hold|(pr' & f' & w & w' & Hpr' & Hf' & _ & Hu)].
    - simpl in Hold. apply (coh_user_init sys Hcoh) in Hold.
      apply (coh_initialize sys Hcoh) in Hold as (pr0 & f0 & Hq0 & _).
      apply lookup_lt_Some in Hq0. lia.
    - rewrite Hprq in Hpr'. injection Hpr' as <-. rewrite Hfq in Hf'. injection Hf' as <-.
      destruct (Hreturn fq args w Hin) as (v & w'' & Hv). congruence. }
  exists p, (set_promises ps1 sys). split_and!; [done|done| | |].
  - intros schedule sys2 Hrun. apply run_bound in Hrun. lia.
  - intros sys2 pr Hsteps Hpr Hun. eapply progress; [|done..].
    by eapply coherent_steps.
  - intros sys2 Hsteps Hquiet.
    pose proof (coherent_steps _ _ Hcoh1 Hsteps) as Hcoh2.
    destruct (steps_lookup p _ sys2 pr1 Hsteps Hp1) as (pr & Hpr & _ & _).
    unfold status_of. rewrite Hpr. simpl.
    destruct (status pr) as [|r|v|e] eqn:Hst.
    + destruct (progress sys2 p pr Hcoh2 Hpr) as (q & _ & [sys3 Hres]); [by rewrite Hst|].
      by rewrite Hquiet in Hres.
    + destruct (progress sys2 p pr Hcoh2 Hpr) as (q & _ & [sys3 Hres]); [by rewrite Hst|].
      by rewrite Hquiet in Hres.
    + by exists v.
    + by destruct (Hnever sys2 pr e Hsteps Hpr).
Qed.

(** *** Failures, again *)

(** X13.  A singleton caches no failure.  When the user initializer throws,
    the wrapper rethrows at its [await] without writing the cache, and the
    next call of [initialize] runs the user initializer again. *)
Theorem singleton_failed_initialization_retried (p : nat) g args sys sys1 e :
  is_singleton g →
  initialize_begin p g args sys = (Initializing (Throw e), sys1) →
  initialize_resume g (Throw e) sys1 = (Rejected e, sys1) ∧
  instance g sys1 = JUndefined ∧
  ∀ (p' : nat) args', ∃ r sys3,
    initialize_begin p' g args' sys1 = (Initializing r, sys3) ∧
    EvUserInit p' (fid g) args' r ∈ log sys3.
Proof.
  intros Hsing Hbegin. split; [done|].
  unfold is_singleton in Hsing.
  assert (instance g sys1 = JUndefined) as Hinst.
  { unfold initialize_begin, call_user_initialize in Hbegin.
    destruct (lifetime g) as [ud|]; [|done].
    change (instance g (record (EvInitialize p (fid g) args) sys)) with (instance g sys)
      in Hbegin.
    case_decide as Hundef; [|done]. simpl in Hbegin.
    destruct (user_initialize g args (world sys)) as [r w]. by injection Hbegin as _ <-. }
  split; [done|]. intros p' args'.
  unfold initialize_begin, call_user_initialize.
  destruct (lifetime g) as [ud|]; [|done].
  change (instance g (record (EvInitialize p' (fid g) args') sys1)) with (instance g sys1).
  rewrite decide_True by done. simpl.
  destruct (user_initialize g args' (world sys1)) as [r w]. eexists _, _. split; [done|].
  simpl. apply elem_of_app. right. left.
Qed.

(** X14.  A call of [get] fails as soon as one of its dependencies has
    failed, whether or not the others have settled: its continuation rejects
    the promise with the rejection of a dependency, calls no [initialize],
    and leaves the calls made for the other dependencies as they are. *)
Theorem get_fails_fast (p d : nat) sys pr f e :
  promises sys !! p = Some pr → callee pr = Some f → status pr = Waiting →
  d ∈ deps pr → rejection (promises sys) d = Some e →
  ∃ e' (d' : nat) sys',
    d' ∈ deps pr ∧ rejection (promises sys) d' = Some e' ∧
    resume p sys = Some sys' ∧
    status_of (promises sys') p = Some (Rejected e') ∧
    log sys' = log sys ∧ world sys' = world sys ∧ instances sys' = instances sys ∧
    ∀ q : nat, q ≠ p → promises sys' !! q = promises sys !! q.
Proof.
  intros Hp Hf Hst Hd He.
  destruct (head (omap (rejection (promises sys)) (deps pr))) as [e'|] eqn:Hhead.
  - pose proof Hhead as Hin. apply head_Some_elem_of, list_elem_of_omap in Hin as (d' & Hd' & He').
    exists e', d', (set_status p (Rejected e') sys). split_and!; try done.
    + unfold resume, Promise_all. by rewrite Hp, Hf, Hst, Hhead.
    + unfold status_of. simpl. by rewrite list_lookup_alter, decide_True, Hp.
    + intros q Hq. simpl. by rewrite list_lookup_alter_ne.
  - apply head_None in Hhead.
    assert (e ∈ omap (rejection (promises sys)) (deps pr)) as Hin
      by (apply list_elem_of_omap; eauto).
    rewrite Hhead in Hin. by apply elem_of_nil in Hin.
Qed.

End Lifecycle.

(** ** Failures, cycles and what happens next *)

Section Propagation.

Context {World : Type}.

Implicit Types (fs : list (ServiceFactory World)) (ps : list (Promise World)).
Implicit Types (f g : ServiceFactory World) (pr : Promise World).
Implicit Types (m : ServiceModule World) (sys : Sys World).

Ltac resumed_cases Hstep :=
  destruct Hstep as [pr0 f0 e0 Hp0 Hf0 Hst0 Hall | pr0 f0 args r w Hp0 Hf0 Hst0 Hall Hlt Hu
    | pr0 f0 args r w ud Hp0 Hf0 Hst0 Hall Hlt Hinst Hu
    | pr0 f0 args ud Hp0 Hf0 Hst0 Hall Hlt Hinst
    | pr0 f0 v0 Hp0 Hf0 Hst0 | pr0 f0 e0 Hp0 Hf0 Hst0].

(** *** Whatever the program calls next *)

Lemma get_extends fuel m K sys (p : nat) sys' :
  get fuel m K sys = Some (p, sys') →
  ∃ new, promises sys' = promises sys ++ new ∧ log sys' = log sys ∧
         instances sys' = instances sys ∧ world sys' = world sys.
Proof.
  intros (ps' & Hsync & ->)%get_inv.
  apply get_sync_spawned in Hsync as ([[new ->] _] & _). by exists new.
Qed.

Lemma dispose_promises m sc sys r sys' :
  dispose m sc sys = (r, sys') → promises sys' = promises sys.
Proof. by intros (? & _)%dispose_each_frame. Qed.

Lemma coherent_move m sys sys' : coherent sys → move m sys sys' → coherent sys'.
Proof.
  intros Hcoh [p H|fuel K p H|sc r H].
  - eapply coherent_Resumed; [done|by apply resume_Resumed].
  - by eapply coherent_get.
  - by eapply coherent_dispose.
Qed.

Lemma coherent_moves m sys sys' : coherent sys → moves m sys sys' → coherent sys'.
Proof.
  intros Hcoh H. induction H as [|sys1 sys2 sys3 H1 _ IH]; [done|].
  apply IH. by eapply coherent_move.
Qed.

Lemma steps_moves m sys sys' : steps sys sys' → moves m sys sys'.
Proof.
  intros H. induction H as [|sys1 sys2 sys3 [p H1] _ IH]; [apply rtc_refl|].
  eapply rtc_l; [by eapply move_resume|done].
Qed.

Lemma move_lookup m (q : nat) sys sys' pr :
  move m sys sys' → promises sys !! q = Some pr →
  ∃ pr', promises sys' !! q = Some pr' ∧ callee pr' = callee pr ∧ deps pr' = deps pr ∧
         (status pr' = status pr ∨ (unsettled (status pr) ∧ status pr' ≠ Waiting)).
Proof.
  intros [p H|fuel K p H|sc r H] Hq.
  - apply resume_Resumed in H.
    destruct (Resumed_lookup p q sys sys' pr H Hq) as (pr' & Hq' & Hc & Hd & Hst).
    exists pr'. split_and!; [done..|]. destruct Hst as [?|(_ & ? & ?)]; auto.
  - apply get_extends in H as (new & -> & _). exists pr.
    split_and!; [by apply lookup_app_l_Some|done|done|by left].
  - apply dispose_promises in H as ->. exists pr. split_and!; auto.
Qed.

Lemma moves_lookup m (q : nat) sys sys' pr :
  moves m sys sys' → promises sys !! q = Some pr →
  ∃ pr', promises sys' !! q = Some pr' ∧ callee pr' = callee pr ∧ deps pr' = deps pr.
Proof.
  intros H. revert pr. induction H as [|sys1 sys2 sys3 H1 _ IH]; intros pr Hq; [by eauto|].
  destruct (move_lookup m q _ _ pr H1 Hq) as (pr1 & Hq1 & Hc1 & Hd1 & _).
  destruct (IH pr1 Hq1) as (pr' & Hq' & Hc' & Hd'). exists pr'. split_and!; congruence.
Qed.

Lemma moves_callee m (q : nat) sys sys' c :
  moves m sys sys' → callee <$> promises sys !! q = Some c →
  callee <$> promises sys' !! q = Some c.
Proof.
  intros H Hc. destruct (promises sys !! q) as [pr|] eqn:Hq; [|done].
  destruct (moves_lookup m q sys sys' pr H Hq) as (pr' & -> & Hc' & _).
  simpl in *. congruence.
Qed.

Lemma moves_length m sys sys' :
  moves m sys sys' → (length (promises sys) ≤ length (promises sys'))%nat.
Proof.
  intros H. induction H as [|sys1 sys2 sys3 H1 _ IH]; [done|].
  etrans; [|exact IH]. destruct H1 as [p H|fuel K p H|sc r H].
  - apply resume_Resumed, Resumed_length in H. lia.
  - apply get_extends in H as (new & -> & _). rewrite length_app. lia.
  - apply dispose_promises in H as ->. done.
Qed.

(** *** Calls that will not be fulfilled *)

Lemma doomed_app ps new (p : nat) : doomed ps p → doomed (ps ++ new) p.
Proof.
  induction 1 as [p pr e Hp Hst|p pr e Hp Hst|p pr d Hp Hst Hd _ IH].
  - eapply doomed_rejected; [by apply lookup_app_l_Some|done].
  - eapply doomed_failing; [by apply lookup_app_l_Some|done].
  - eapply doomed_waiting; [by apply lookup_app_l_Some|done..].
Qed.

Lemma doomed_fulfilled_value ps (p : nat) : doomed ps p → fulfilled_value ps p = None.
Proof.
  unfold fulfilled_value, status_of.
  destruct 1 as [p pr e Hp Hst|p pr e Hp Hst|p pr d Hp Hst _ _]; by rewrite Hp; simpl; rewrite Hst.
Qed.

Lemma Promise_all_Normal_elem ps (ds : list nat) args (d : nat) :
  Promise_all ps ds = Some (Normal args) → d ∈ ds → is_Some (fulfilled_value ps d).
Proof.
  intros Hall%Promise_all_Normal [i Hi]%list_elem_of_lookup.
  destruct (Forall2_lookup_l _ _ _ _ _ Hall Hi) as (a & _ & Ha). by exists a.
Qed.

Lemma Promise_all_rejected ps (ds : list nat) (d : nat) e :
  d ∈ ds → rejection ps d = Some e → ∃ e', Promise_all ps ds = Some (Throw e').
Proof.
  intros Hd He. unfold Promise_all.
  destruct (head (omap (rejection ps) ds)) as [e'|] eqn:Hhead; [by exists e'|].
  apply head_None in Hhead.
  assert (e ∈ omap (rejection ps) ds) as Hin by (apply list_elem_of_omap; eauto).
  rewrite Hhead in Hin. by apply elem_of_nil in Hin.
Qed.

Lemma doomed_Resumed (q p : nat) sys sys' :
  Resumed q sys sys' → doomed (promises sys) p → doomed (promises sys') p.
Proof.
  intros Hstep Hd. induction Hd as [p pr e Hp Hst|p pr e Hp Hst|p pr d Hp Hst Hd Hdd IH].
  - destruct (Resumed_lookup q p sys sys' pr Hstep Hp) as (pr' & Hp' & _ & _ & Hst').
    destruct Hst' as [Hsame|(_ & Hun & _)]; [|by rewrite Hst in Hun].
    eapply doomed_rejected; [done|rewrite Hsame; exact Hst].
  - destruct (decide (p = q)) as [->|Hne].
    + resumed_cases Hstep; rewrite Hp in Hp0; injection Hp0 as <-; try congruence.
      eapply doomed_rejected; [simpl; by rewrite list_lookup_alter, decide_True, Hp|done].
    + eapply doomed_failing; [by rewrite (Resumed_lookup_ne q p sys sys')|done].
  - destruct (decide (p = q)) as [->|Hne].
    + apply doomed_fulfilled_value in Hdd.
      resumed_cases Hstep; rewrite Hp in Hp0; injection Hp0 as <-; try congruence;
        try (destruct (Promise_all_Normal_elem _ _ _ d Hall Hd) as [a Ha]; congruence).
      eapply doomed_rejected; [simpl; by rewrite list_lookup_alter, decide_True, Hp|done].
    + eapply doomed_waiting; [by rewrite (Resumed_lookup_ne q p sys sys')|done..].
Qed.

Lemma doomed_move m (p : nat) sys sys' :
  move m sys sys' → doomed (promises sys) p → doomed (promises sys') p.
Proof.
  intros [q H|fuel K q H|sc r H] Hd.
  - eapply doomed_Resumed; [by apply resume_Resumed|done].
  - apply get_extends in H as (new & -> & _). by apply doomed_app.
  - by apply dispose_promises in H as ->.
Qed.

Lemma doomed_moves m (p : nat) sys sys' :
  moves m sys sys' → doomed (promises sys) p → doomed (promises sys') p.
Proof.
  intros H. induction H as [|sys1 sys2 sys3 H1 _ IH]; [done|].
  intros Hd. apply IH. by eapply doomed_move.
Qed.

Lemma coherent_live sys : coherent sys → live sys.
Proof.
  intros Hcoh p pr Hp Hun. destruct (callee pr) as [f|] eqn:Hf; [by eexists|].
  destruct (coh_not_found sys Hcoh p pr Hp Hf) as [k Hst]. by rewrite Hst in Hun.
Qed.

(** When no continuation is left to run, such a call has been rejected. *)
Lemma doomed_quiescent sys (p : nat) :
  live sys → quiescent sys → doomed (promises sys) p →
  ∃ e, rejection (promises sys) p = Some e.
Proof.
  intros Hlive Hq Hd. induction Hd as [p pr e Hp Hst|p pr e Hp Hst|p pr d Hp Hst Hd _ IH].
  - exists e. unfold rejection, status_of. by rewrite Hp; simpl; rewrite Hst.
  - exfalso. destruct (Hlive p pr Hp) as [f Hf]; [by rewrite Hst|].
    destruct (resume_Initializing p sys pr f _ Hp Hf Hst) as [sys' Hres].
    by rewrite Hq in Hres.
  - exfalso. destruct IH as [e He].
    destruct (Hlive p pr Hp) as [f Hf]; [by rewrite Hst|].
    destruct (Promise_all_rejected _ _ _ _ Hd He) as [e' Hall].
    destruct (resume_Waiting p sys pr f _ Hp Hf Hst Hall) as [sys' Hres].
    by rewrite Hq in Hres.
Qed.

(** A call that has called [initialize] found every dependency fulfilled. *)
Lemma coherent_started sys (p : nat) pr (d : nat) :
  coherent sys → promises sys !! p = Some pr →
  (∃ v, status pr = Fulfilled v) ∨ (∃ r, status pr = Initializing r) →
  d ∈ deps pr → is_Some (fulfilled_value (promises sys) d).
Proof.
  intros Hcoh Hp Hst Hd.
  destruct (callee pr) as [f|] eqn:Hf.
  - pose proof (coh_status sys Hcoh p pr f Hp Hf) as Hex. unfold explained in Hex.
    assert (∃ c args, EvInitialize p c args ∈ log sys) as (c & args & Hev).
    { destruct Hst as [[v Hv]|[r Hr]].
      - rewrite Hv in Hex. destruct Hex as [[args Hev] _]. eauto.
      - rewrite Hr in Hex. destruct Hex as [args Hev].
        apply (coh_user_init sys Hcoh) in Hev. eauto. }
    destruct (coh_initialize sys Hcoh p c args Hev) as (pr' & f' & Hp' & _ & _ & _ & Hargs).
    rewrite Hp in Hp'. injection Hp' as <-.
    apply list_elem_of_lookup in Hd as [i Hi].
    destruct (Forall2_lookup_l _ _ _ _ _ Hargs Hi) as (a & _ & Ha). by exists a.
  - destruct (coh_not_found sys Hcoh p pr Hp Hf) as [k Hk].
    destruct Hst as [[v Hv]|[r Hr]]; congruence.
Qed.

(** A call that waits for such a call is one itself. *)
Lemma doomed_awaits sys (p d : nat) :
  coherent sys → awaits (promises sys) p d → doomed (promises sys) d →
  doomed (promises sys) p.
Proof.
  intros Hcoh (pr & Hp & Hd) Hdoom.
  pose proof (doomed_fulfilled_value _ _ Hdoom) as Hnone.
  destruct (status pr) as [|[v|e]|v|e] eqn:Hst.
  - by eapply doomed_waiting.
  - destruct (coherent_started sys p pr d Hcoh Hp) as [a Ha]; [right; eauto|done|congruence].
  - by eapply doomed_failing.
  - destruct (coherent_started sys p pr d Hcoh Hp) as [a Ha]; [left; eauto|done|congruence].
  - by eapply doomed_rejected.
Qed.

Lemma doomed_awaits_rtc sys (p q : nat) :
  coherent sys → rtc (awaits (promises sys)) p q → doomed (promises sys) q →
  doomed (promises sys) p.
Proof.
  intros Hcoh Hpath. induction Hpath as [|p d q Hpd _ IH]; [done|].
  intros Hq. eapply doomed_awaits; [done..|by apply IH].
Qed.

(** *** The calls made for one resolution form a tree *)

Lemma awaits_app ps new (p d : nat) : awaits ps p d → awaits (ps ++ new) p d.
Proof. intros (pr & Hp & Hd). exists pr. split; [by apply lookup_app_l_Some|done]. Qed.

Lemma awaits_rtc_app ps new (p d : nat) :
  rtc (awaits ps) p d → rtc (awaits (ps ++ new)) p d.
Proof.
  induction 1 as [|p q d Hpq _ IH]; [apply rtc_refl|].
  eapply rtc_l; [by apply awaits_app|done].
Qed.

Lemma awaits_moves m sys sys' (p d : nat) :
  moves m sys sys' → rtc (awaits (promises sys)) p d → rtc (awaits (promises sys')) p d.
Proof.
  intros Hmoves. induction 1 as [|p q d (pr & Hp & Hq) _ IH]; [apply rtc_refl|].
  eapply rtc_l; [|done].
  destruct (moves_lookup m p sys sys' pr Hmoves Hp) as (pr' & Hp' & _ & Hd').
  exists pr'. by rewrite Hd'.
Qed.

Lemma get_sync_last fuel fs K ps (p : nat) ps' :
  get_sync fuel fs K ps = Some (p, ps') → length ps' = S p.
Proof.
  destruct fuel as [|fuel]; [done|]. simpl.
  destruct (find (isSuitable K) fs) as [f|].
  - destruct (get_each _ _ _) as [[ds ps1]|]; [|done]. intros [= <- <-].
    rewrite length_app. simpl. lia.
  - intros [= <- <-]. rewrite length_app. simpl. lia.
Qed.

Lemma get_each_tree (get1 : ServiceKey → list (Promise World) → option (nat * list (Promise World))) :
  (∀ k ps (p : nat) ps', get1 k ps = Some (p, ps') →
     (∃ new, ps' = ps ++ new) ∧
     ∀ i : nat, (length ps ≤ i < length ps')%nat → rtc (awaits ps') p i) →
  ∀ keys ps ds ps', get_each get1 keys ps = Some (ds, ps') →
    (∃ new, ps' = ps ++ new) ∧
    ∀ i : nat, (length ps ≤ i < length ps')%nat → ∃ d : nat, d ∈ ds ∧ rtc (awaits ps') d i.
Proof.
  intros Hget1 keys. induction keys as [|k keys IH]; simpl; intros ps ds ps' Heach.
  - injection Heach as <- <-. split; [exists []; by rewrite app_nil_r|]. intros i Hi. lia.
  - destruct (get1 k ps) as [[p ps1]|] eqn:H1; [|done].
    destruct (get_each get1 keys ps1) as [[rest ps2]|] eqn:H2; [|done].
    injection Heach as <- <-.
    destruct (Hget1 _ _ _ _ H1) as ([new1 ->] & Htree1).
    destruct (IH _ _ _ H2) as ([new2 ->] & Htree2).
    split; [exists (new1 ++ new2); by rewrite app_assoc|].
    intros i Hi. destruct (decide (i < length (ps ++ new1))%nat) as [Hlt|Hge].
    + exists p. split; [left|]. apply awaits_rtc_app, Htree1. lia.
    + destruct (Htree2 i) as (d & Hd & Hpath); [lia|]. exists d. split; [by right|done].
Qed.

Lemma get_sync_tree fuel fs K ps (p : nat) ps' :
  get_sync fuel fs K ps = Some (p, ps') →
  (∃ new, ps' = ps ++ new) ∧
  ∀ i : nat, (length ps ≤ i < length ps')%nat → rtc (awaits ps') p i.
Proof.
  revert K ps p ps'. induction fuel as [|fuel IH]; [done|]. simpl. intros K ps p ps'.
  destruct (find (isSuitable K) fs) as [f|].
  - destruct (get_each _ _ _) as [[ds ps1]|] eqn:Heach; [|done]. intros [= <- <-].
    destruct (get_each_tree _ IH _ _ _ _ Heach) as ([new ->] & Htree).
    split; [eexists; by rewrite <- app_assoc|].
    intros i Hi. rewrite length_app in Hi. simpl in Hi.
    destruct (decide (i = length (ps ++ new))) as [->|Hne]; [apply rtc_refl|].
    destruct (Htree i) as (d & Hd & Hpath); [lia|].
    eapply rtc_l; [|by apply awaits_rtc_app].
    eexists. split; [by apply list_lookup_middle|done].
  - intros [= <- <-]. split; [by eexists|]. intros i Hi.
    rewrite length_app in Hi. simpl in Hi.
    assert (i = length ps) as -> by lia. apply rtc_refl.
Qed.

(** *** The calls made since a given time *)

Lemma made_since_start m sys : made_since m (length (promises sys)) sys.
Proof.
  split; [done|]. intros i pr f Hi Hpr. apply lookup_lt_Some in Hpr. lia.
Qed.

Lemma made_since_move m lo sys sys' :
  made_since m lo sys → move m sys sys' → made_since m lo sys'.
Proof.
  intros [Hlo Hnodes] Hmove.
  pose proof (moves_length m sys sys' (rtc_once _ _ Hmove)) as Hlen.
  split; [lia|]. intros i pr' f Hi Hpr' Hf.
  assert (∀ (d : nat) c, callee <$> promises sys !! d = Some c →
                         callee <$> promises sys' !! d = Some c) as Hcallee.
  { intros d c. apply (moves_callee m). by apply rtc_once. }
  destruct Hmove as [p H|fuel K p H|sc r H].
  - apply resume_Resumed in H.
    destruct (Resumed_lookup_inv p i sys sys' pr' H Hpr') as (pr & Hpr & Hc & Hd & _).
    destruct (Hnodes i pr f Hi Hpr ltac:(congruence)) as [Hin Hds]. split; [done|].
    rewrite Hd. eapply Forall2_impl; [exact Hds|]. simpl. intros k d [Hr Hcd]. auto.
  - pose proof H as (ps' & Hsync & ->)%get_inv. simpl in *.
    apply get_sync_spawned in Hsync as ([[new ->] Hnew] & _ & _).
    destruct (decide (i < length (promises sys))%nat) as [Hlt|Hge].
    + rewrite lookup_app_l in Hpr' by done.
      destruct (Hnodes i pr' f Hi Hpr' Hf) as [Hin Hds]. split; [done|].
      eapply Forall2_impl; [exact Hds|]. simpl. intros k d [Hr Hcd]. auto.
    + destruct (Hnew i pr') as [Hok _]; [lia|done|]. unfold node_ok in Hok.
      rewrite Hf in Hok. destruct Hok as [Hin Hds]. split; [done|].
      eapply Forall2_impl; [exact Hds|]. simpl. intros k d [Hr Hcd]. split; [lia|done].
  - pose proof (dispose_promises _ _ _ _ _ H) as Hps. rewrite Hps in *. auto.
Qed.

Lemma made_since_moves m lo sys sys' :
  made_since m lo sys → moves m sys sys' → made_since m lo sys'.
Proof.
  intros Hm H. induction H as [|sys1 sys2 sys3 H1 _ IH]; [done|].
  apply IH. by eapply made_since_move.
Qed.

(** *** A failure of a user initializer is not lost *)

Lemma failures_kept_start sys : coherent sys → failures_kept (length (promises sys)) sys.
Proof.
  intros Hcoh q c args e Hq Hev.
  apply (coh_user_init sys Hcoh), (coh_initialize sys Hcoh) in Hev as (pr & f & Hpr & _).
  apply lookup_lt_Some in Hpr. lia.
Qed.

Lemma failed_with_lookup e sys sys' (q : nat) :
  promises sys' !! q = promises sys !! q → failed_with e sys q → failed_with e sys' q.
Proof. intros Heq (pr & Hq & Hst). exists pr. by rewrite Heq. Qed.

Lemma failures_kept_Resumed lo (p : nat) sys sys' :
  failures_kept lo sys → Resumed p sys sys' → failures_kept lo sys'.
Proof.
  intros Hkept Hstep q c a e Hq Hev.
  assert (EvUserInit q c a (Throw e) ∈ log sys → failed_with e sys' q) as Hold.
  { intros Hev0. destruct (Hkept q c a e Hq Hev0) as (pr & Hpr & Hst).
    destruct (decide (q = p)) as [->|Hne].
    - resumed_cases Hstep; rewrite Hpr in Hp0; injection Hp0 as <-;
        try (destruct Hst; congruence);
        (eexists; split; [simpl; by rewrite list_lookup_alter, decide_True, Hpr|]); simpl.
      left. destruct Hst as [Hst|Hst]; congruence.
    - apply (failed_with_lookup e sys); [by apply (Resumed_lookup_ne p q)|by exists pr]. }
  resumed_cases Hstep; simpl in Hev; try (by apply Hold).
  - apply elem_of_app in Hev as [Hev|Hev%list_elem_of_singleton].
    + apply elem_of_app in Hev as [Hev|Hev%list_elem_of_singleton]; [by apply Hold|done].
    + injection Hev as -> -> -> <-.
      eexists. split; [simpl; by rewrite list_lookup_alter, decide_True, Hp0|]. simpl. by left.
  - apply elem_of_app in Hev as [Hev|Hev%list_elem_of_singleton].
    + apply elem_of_app in Hev as [Hev|Hev%list_elem_of_singleton]; [by apply Hold|done].
    + injection Hev as -> -> -> <-.
      eexists. split; [simpl; by rewrite list_lookup_alter, decide_True, Hp0|]. simpl. by right.
  - apply elem_of_app in Hev as [Hev|Hev%list_elem_of_singleton]; [by apply Hold|done].
Qed.

Lemma failures_kept_move m lo sys sys' :
  failures_kept lo sys → move m sys sys' → failures_kept lo sys'.
Proof.
  intros Hkept [p H|fuel K p H|sc r H].
  - eapply failures_kept_Resumed; [done|by apply resume_Resumed].
  - apply get_extends in H as (new & Hps & Hlog & _).
    intros q c args e Hq Hev. rewrite Hlog in Hev.
    destruct (Hkept q c args e Hq Hev) as (pr & Hpr & Hst).
    exists pr. rewrite Hps. split; [by apply lookup_app_l_Some|done].
  - pose proof H as (Hps & _ & Hnew & _)%dispose_each_frame.
    intros q c args e Hq Hev. destruct (Hnew _ Hev) as [Hev0|(c' & v & Heq)]; [|done].
    apply (failed_with_lookup e sys); [by rewrite Hps|by eapply Hkept].
Qed.

Lemma failures_kept_moves m lo sys sys' :
  failures_kept lo sys → moves m sys sys' → failures_kept lo sys'.
Proof.
  intros Hk H. induction H as [|sys1 sys2 sys3 H1 _ IH]; [done|].
  apply IH. by eapply failures_kept_move.
Qed.

Lemma failed_with_doomed e sys (q : nat) : failed_with e sys q → doomed (promises sys) q.
Proof.
  intros (pr & Hq & [Hst|Hst]); [by eapply doomed_rejected|by eapply doomed_failing].
Qed.

(** The wrapper of a singleton whose user initializer has thrown rethrows
    at its [await]: the call is rejected with that very exception, and the
    cache is not written. *)
Lemma resume_failing sys (q : nat) pr e :
  live sys → promises sys !! q = Some pr → status pr = Initializing (Throw e) →
  ∃ sys', resume q sys = Some sys' ∧
          status_of (promises sys') q = Some (Rejected e) ∧
          instances sys' = instances sys ∧ log sys' = log sys ∧ world sys' = world sys.
Proof.
  intros Hlive Hq Hst. destruct (Hlive q pr Hq) as [f Hf]; [by rewrite Hst|].
  eexists. unfold resume. rewrite Hq, Hf, Hst. simpl. split; [done|].
  unfold status_of. simpl. by rewrite list_lookup_alter, decide_True, Hq.
Qed.

(** What a fulfilled call waited for is fulfilled. *)
Lemma fulfilled_awaits_rtc sys (p q : nat) :
  coherent sys → rtc (awaits (promises sys)) p q →
  is_Some (fulfilled_value (promises sys) p) → is_Some (fulfilled_value (promises sys) q).
Proof.
  intros Hcoh Hpath. induction Hpath as [|p d q (pr & Hp & Hd) _ IH]; [done|].
  intros [v Hv]. apply IH. apply (coherent_started sys p pr d Hcoh Hp); [|done].
  left. exists v. unfold fulfilled_value, status_of in Hv. rewrite Hp in Hv. simpl in Hv.
  by destruct (status pr); simplify_eq.
Qed.

(** *** The bounded stack *)

Lemma get_each_get_all (get1 : ServiceKey → list (Promise World) → option (nat * list (Promise World)))
    (get2 : ServiceKey → list (Promise World) → nat * list (Promise World)) keys ps ds ps' :
  (∀ k ps0 r, k ∈ keys → get1 k ps0 = Some r → get2 k ps0 = r) →
  get_each get1 keys ps = Some (ds, ps') → get_all get2 keys ps = (ds, ps').
Proof.
  revert ps ds ps'. induction keys as [|k keys IH]; simpl; intros ps ds ps' Hagree.
  - by intros [= <- <-].
  - destruct (get1 k ps) as [[p ps1]|] eqn:H1; [|done].
    destruct (get_each get1 keys ps1) as [[rest ps2]|] eqn:H2; [|done]. intros [= <- <-].
    rewrite (Hagree k ps (p, ps1)); [|left|done].
    rewrite (IH ps1 rest ps2); [done| |done].
    intros k' ps0 r Hk'. apply Hagree. by right.
Qed.

(** Where the depth suffices, the bounded stack makes no difference. *)
Lemma get_sync_within_agrees fuel room fs K ps (p : nat) ps' :
  get_sync fuel fs K ps = Some (p, ps') → (fuel ≤ S room)%nat →
  get_sync_within room fs K ps = (p, ps').
Proof.
  revert room K ps p ps'. induction fuel as [|fuel IH]; [done|].
  intros room K ps p ps'. simpl.
  destruct room as [|room]; simpl; destruct (find (isSuitable K) fs) as [f|]; try done.
  - intros Hget Hfuel. assert (fuel = 0%nat) as -> by lia.
    destruct (dependsOn f) as [|k ks]; simpl in Hget; [|done]. by injection Hget as <- <-.
  - by intros [= <- <-].
  - destruct (get_each _ _ _) as [[ds ps1]|] eqn:Heach; [|done]. intros [= <- <-] Hfuel.
    assert (get_all (get_sync_within room fs) (dependsOn f) ps = (ds, ps1)) as ->; [|done].
    eapply get_each_get_all; [|exact Heach].
    intros k ps0 [p0 ps0'] _ H0. apply IH; [done|lia].
  - by intros [= <- <-].
Qed.

(** With an acyclic dependency graph and room for as many nested calls as
    the module has factories, [get] on the bounded stack is [get]. *)
Lemma get_within_acyclic room m K sys :
  acyclic (factories m) → (length (factories m) ≤ room)%nat →
  get (S room) m K sys = Some (get_within room m K sys).
Proof.
  intros Hacyc Hroom.
  destruct (get_sync_acyclic (factories m) (S room) K (promises sys) Hacyc ltac:(lia))
    as [[p ps'] Hsync].
  unfold get, get_within. rewrite Hsync.
  by rewrite (get_sync_within_agrees _ room _ _ _ _ _ Hsync ltac:(lia)).
Qed.

Lemma get_all_extends (get1 : ServiceKey → list (Promise World) → nat * list (Promise World))
    keys ps ds ps' :
  (∀ k ps0 (p : nat) ps1, get1 k ps0 = (p, ps1) → ∃ new, ps1 = ps0 ++ new) →
  get_all get1 keys ps = (ds, ps') → ∃ new, ps' = ps ++ new.
Proof.
  intros Hget1. revert ps ds ps'. induction keys as [|k keys IH]; simpl; intros ps ds ps'.
  - intros [= <- <-]. exists []. by rewrite app_nil_r.
  - destruct (get1 k ps) as [p ps1] eqn:H1.
    destruct (get_all get1 keys ps1) as [rest ps2] eqn:H2. intros [= <- <-].
    destruct (Hget1 _ _ _ _ H1) as [new1 ->]. destruct (IH _ _ _ H2) as [new2 ->].
    exists (new1 ++ new2). by rewrite app_assoc.
Qed.

Lemma get_sync_within_extends room fs K ps (p : nat) ps' :
  get_sync_within room fs K ps = (p, ps') →
  (∃ new, ps' = ps ++ new) ∧ length ps' = S p ∧ (length ps ≤ p)%nat.
Proof.
  revert K ps p ps'. induction room as [|room IH]; intros K ps p ps'; simpl;
    destruct (find (isSuitable K) fs) as [f|].
  - destruct (dependsOn f); intros [= <- <-]; (split; [by eexists|]);
      rewrite length_app; simpl; lia.
  - intros [= <- <-]. split; [by eexists|]. rewrite length_app. simpl. lia.
  - destruct (get_all _ _ _) as [ds ps1] eqn:Hall. intros [= <- <-].
    destruct (get_all_extends _ _ _ _ _ (λ k ps0 p0 ps1' H, proj1 (IH k ps0 p0 ps1' H)) Hall)
      as [new ->].
    split; [eexists; by rewrite <- app_assoc|]. rewrite !length_app. simpl. lia.
  - intros [= <- <-]. split; [by eexists|]. rewrite length_app. simpl. lia.
Qed.

(** Whatever the room on the stack, the call holds the factory [find] returns. *)
Lemma get_sync_within_callee room fs K ps f :
  find (isSuitable K) fs = Some f →
  ∃ (p : nat) ps' pr, get_sync_within room fs K ps = (p, ps') ∧
    (length ps ≤ p)%nat ∧ ps' !! p = Some pr ∧ callee pr = Some f.
Proof.
  intros Hfind. destruct (get_sync_within room fs K ps) as [p ps'] eqn:Hget.
  destruct (get_sync_within_extends _ _ _ _ _ _ Hget) as (_ & _ & Hp).
  destruct room; simpl in Hget; rewrite Hfind in Hget.
  - destruct (dependsOn f); injection Hget as <- <-; eexists _, _, _;
      (split_and!; [done|done|by apply list_lookup_middle|done]).
  - destruct (get_all _ _ _) as [ds ps1] eqn:Hall. injection Hget as <- <-.
    eexists _, _, _. split_and!; [done|done|by apply list_lookup_middle|done].
Qed.

(** *** What a bounded stack allocates for a key that has a factory *)

Lemma node_within_mono fs (lo lo' i : nat) pr :
  node_within fs lo i pr → (lo' ≤ lo)%nat → node_within fs lo' i pr.
Proof.
  intros (f & Hf & Hin & Hds & Hst) Hlo. exists f. split_and!; [done..| |done].
  eapply Forall_impl; [exact Hds|]. simpl. intros d Hd. lia.
Qed.

Lemma spawned_within_refl fs ps : spawned_within fs ps ps.
Proof.
  split; [exists []; by rewrite app_nil_r|].
  intros i pr Hi Hlk. apply lookup_lt_Some in Hlk. lia.
Qed.

Lemma spawned_within_trans fs ps ps1 ps2 :
  spawned_within fs ps ps1 → spawned_within fs ps1 ps2 → spawned_within fs ps ps2.
Proof.
  intros [[new1 ->] H1] [[new2 ->] H2]. split.
  - exists (new1 ++ new2). by rewrite app_assoc.
  - intros i pr Hi Hlk. destruct (decide (i < length (ps ++ new1))%nat) as [Hlt|Hge].
    + rewrite lookup_app_l in Hlk by done. by apply H1.
    + eapply node_within_mono; [apply H2; [lia|done]|]. rewrite length_app. lia.
Qed.

Lemma spawned_within_snoc fs ps ps1 pr :
  spawned_within fs ps ps1 → node_within fs (length ps) (length ps1) pr →
  spawned_within fs ps (ps1 ++ [pr]).
Proof.
  intros [[new ->] Hnodes] Hok. split.
  - exists (new ++ [pr]). by rewrite app_assoc.
  - intros i pr' Hi Hlk. destruct (decide (i < length (ps ++ new))%nat) as [Hlt|Hge].
    + rewrite lookup_app_l in Hlk by done. by apply Hnodes.
    + assert (i = length (ps ++ new)) as ->.
      { apply lookup_lt_Some in Hlk. rewrite length_app in Hlk. simpl in Hlk. lia. }
      rewrite list_lookup_middle in Hlk by done. by injection Hlk as <-.
Qed.

Lemma get_all_spawned_within fs
    (get1 : ServiceKey → list (Promise World) → nat * list (Promise World)) keys :
  (∀ k ps (p : nat) ps', k ∈ keys → get1 k ps = (p, ps') →
     spawned_within fs ps ps' ∧ length ps' = S p ∧ (length ps ≤ p)%nat) →
  ∀ ps ds ps', get_all get1 keys ps = (ds, ps') →
    spawned_within fs ps ps' ∧ Forall (λ d : nat, (length ps ≤ d < length ps')%nat) ds.
Proof.
  induction keys as [|k keys IH]; simpl; intros Hget1 ps ds ps'.
  - intros [= <- <-]. split; [apply spawned_within_refl|constructor].
  - destruct (get1 k ps) as [p ps1] eqn:H1.
    destruct (get_all get1 keys ps1) as [rest ps2] eqn:H2. intros [= <- <-].
    destruct (Hget1 _ _ _ _ (list_elem_of_here _ _) H1) as (Hs1 & Hlen1 & Hle1).
    destruct (IH (λ k' ps0 p0 ps0' Hk', Hget1 k' ps0 p0 ps0' (list_elem_of_further _ _ _ Hk'))
                 _ _ _ H2) as [Hs2 Hrest].
    split; [by eapply spawned_within_trans|].
    destruct Hs1 as [[new1 Heq1] _]. destruct Hs2 as [[new2 Heq2] _]. subst ps1 ps2.
    rewrite !length_app in *. constructor; [lia|].
    eapply Forall_impl; [exact Hrest|]. simpl. intros d Hd. lia.
Qed.

Lemma get_sync_within_spawned room fs K ps (p : nat) ps' :
  resolvable fs → registered K fs →
  get_sync_within room fs K ps = (p, ps') →
  spawned_within fs ps ps' ∧ length ps' = S p ∧ (length ps ≤ p)%nat.
Proof.
  intros Hres. revert K ps p ps'. induction room as [|room IH]; intros K ps p ps' Hreg Hget;
    (split; [|by eapply get_sync_within_extends]);
    destruct (registered_find K fs Hreg) as [f Hfind]; simpl in Hget; rewrite Hfind in Hget;
    assert (f ∈ fs) as Hf by (apply find_some in Hfind as [Hin _]; by apply list_elem_of_In).
  - destruct (dependsOn f) eqn:Hdeps; injection Hget as <- <-;
      (apply spawned_within_snoc; [apply spawned_within_refl|]);
      exists f; simpl; split_and!; auto.
  - destruct (get_all _ _ _) as [ds ps1] eqn:Hall. injection Hget as <- <-.
    destruct (get_all_spawned_within fs _ (dependsOn f)
                (λ k ps0 p0 ps0' Hk, IH k ps0 p0 ps0' (Hres f k Hf Hk)) _ _ _ Hall)
      as [Hs Hds].
    apply spawned_within_snoc; [done|]. exists f. simpl. split_and!; auto.
Qed.

(** *** A key on a dependency cycle *)

Lemma cycle_next (fs : list (ServiceFactory World)) K :
  tc (depends fs) (symbol K) (symbol K) →
  ∃ f k, f ∈ fs ∧ sym f = symbol K ∧ k ∈ dependsOn f ∧
         tc (depends fs) (symbol k) (symbol k).
Proof.
  intros Hcycle.
  assert (∃ t, depends fs (symbol K) t ∧ rtc (depends fs) t (symbol K))
    as (t & (f & k & Hf & Hsym & Hk & Ht) & Hback).
  { inversion Hcycle as [? ? Hstep|? t ? Hstep Hrest]; subst.
    - exists (symbol K). by split.
    - exists t. split; [done|]. by apply tc_rtc. }
  exists f, k. split_and!; [done..|]. rewrite Ht.
  eapply tc_rtc_l; [done|]. apply tc_once. exists f, k. by rewrite <- Ht.
Qed.

Lemma get_all_elem (get1 : ServiceKey → list (Promise World) → nat * list (Promise World))
    (P : nat → list (Promise World) → Prop) keys k ps ds ps' :
  (∀ ps0 (p : nat) ps1, get1 k ps0 = (p, ps1) → P p ps1) →
  (∀ (p : nat) ps0 new, P p ps0 → P p (ps0 ++ new)) →
  (∀ k' ps0 (p : nat) ps1, get1 k' ps0 = (p, ps1) → ∃ new, ps1 = ps0 ++ new) →
  k ∈ keys → get_all get1 keys ps = (ds, ps') → ∃ d : nat, d ∈ ds ∧ P d ps'.
Proof.
  intros Hk Hmono Hext. revert ps ds ps'.
  induction keys as [|k0 keys IH]; intros ps ds ps' Hin; [by apply elem_of_nil in Hin|].
  simpl. destruct (get1 k0 ps) as [p ps1] eqn:H1.
  destruct (get_all get1 keys ps1) as [rest ps2] eqn:H2. intros [= <- <-].
  destruct (decide (k0 = k)) as [->|Hne].
  - exists p. split; [left|].
    destruct (get_all_extends _ _ _ _ _ Hext H2) as [new ->]. apply Hmono. by eapply Hk.
  - destruct (IH ps1 rest ps2) as (d & Hd & HP); [|done|].
    + apply elem_of_cons in Hin as [?|?]; [congruence|done].
    + exists d. split; [by right|done].
Qed.

(** On a bounded stack, the call on a key that lies on a dependency cycle
    waits, from the start, for a call that the stack has ended. *)
Lemma get_sync_within_cycle (entries : list (Entry World)) m K room ps (p : nat) ps' :
  from entries = Normal m →
  tc (depends (factories m)) (symbol K) (symbol K) →
  get_sync_within room (factories m) K ps = (p, ps') → doomed ps' p.
Proof.
  intros Hfrom. revert K ps p ps'. induction room as [|room IH]; intros K ps p ps' Hcycle;
    destruct (cycle_next _ _ Hcycle) as (f & k & Hf & Hsym & Hk & Hnext);
    simpl; rewrite (from_find entries m K f Hfrom Hf Hsym).
  - destruct (dependsOn f) as [|k0 ks]; [by apply elem_of_nil in Hk|]. intros [= <- <-].
    eapply doomed_rejected; [by apply list_lookup_middle|done].
  - destruct (get_all _ _ _) as [ds ps1] eqn:Hall. intros [= <- <-].
    destruct (get_all_elem _ (λ d ps0, doomed ps0 d) _ k _ _ _
                (λ ps0 p0 ps0' H, IH k ps0 p0 ps0' Hnext H)
                (λ p0 ps0 new H, doomed_app ps0 new p0 H)
                (λ k' ps0 p0 ps0' H, proj1 (get_sync_within_extends _ _ _ _ _ _ H))
                Hk Hall) as (d & Hd & Hdoomed).
    eapply doomed_waiting; [by apply list_lookup_middle|done|exact Hd|by apply doomed_app].
Qed.

(** *** Invariants of the continuations, whatever the stack *)

Lemma live_Resumed (p : nat) sys sys' : live sys → Resumed p sys sys' → live sys'.
Proof.
  intros Hlive Hstep q pr' Hq Hun.
  destruct (Resumed_lookup_inv p q sys sys' pr' Hstep Hq) as (pr & Hq0 & Hc & _ & Hst).
  rewrite Hc. destruct (decide (q = p)) as [->|Hne].
  - apply Resumed_promises in Hstep as (pr0 & st & Hp & Hsome & _). congruence.
  - apply (Hlive q pr Hq0). by rewrite <- Hst.
Qed.

Lemma live_steps sys sys' : live sys → steps sys sys' → live sys'.
Proof.
  intros Hlive H. induction H as [|sys1 sys2 sys3 [p Hstep]%step_Resumed _ IH]; [done|].
  apply IH. by eapply live_Resumed.
Qed.

Lemma uninitialized_Resumed (q p : nat) sys sys' :
  Resumed q sys sys' → doomed (promises sys) p →
  (∀ c args, EvInitialize p c args ∉ log sys) →
  ∀ c args, EvInitialize p c args ∉ log sys'.
Proof.
  intros Hstep Hdoomed Hnone c a Hev.
  destruct (Resumed_event q sys sys' _ Hstep Hev)
    as [Hold|(pr & f & args' & Hq & Hf & Hst & Hall & _ & [Heq|[r Heq]])]; [by eapply Hnone| |done].
  injection Heq as -> -> ->.
  inversion Hdoomed as [? pr' e Hp Hst'|? pr' e Hp Hst'|? pr' d Hp Hst' Hd Hdd]; subst;
    rewrite Hq in Hp; injection Hp as <-; try congruence.
  apply doomed_fulfilled_value in Hdd.
  destruct (Promise_all_Normal_elem _ _ _ d Hall Hd) as [v Hv]. congruence.
Qed.

Lemma uninitialized_steps (p : nat) sys sys' :
  steps sys sys' → doomed (promises sys) p →
  (∀ c args, EvInitialize p c args ∉ log sys) →
  doomed (promises sys') p ∧ ∀ c args, EvInitialize p c args ∉ log sys'.
Proof.
  intros H. induction H as [|sys1 sys2 sys3 [q Hstep]%step_Resumed _ IH]; [done|].
  intros Hd Hnone. apply IH; [by eapply doomed_Resumed|by eapply uninitialized_Resumed].
Qed.

Lemma sourced_Resumed lo (p : nat) sys sys' :
  sourced lo sys → Resumed p sys sys' → sourced lo sys'.
Proof.
  intros Hsrc Hstep q pr' Hq Hpr'.
  pose proof (λ ev, Resumed_log_mono p sys sys' ev Hstep) as Hlog.
  destruct (Resumed_lookup_inv p q sys sys' pr' Hstep Hpr') as (pr & Hpr & Hc & Hd & Hst).
  destruct (Hsrc q pr Hq Hpr) as (Hsome & Hdeps & Hsource).
  rewrite Hc, Hd. split_and!; [done|done|]. intros e He.
  assert (e = stack_overflow ∨
          (∃ (q' : nat) c args, (lo ≤ q')%nat ∧ EvUserInit q' c args (Throw e) ∈ log sys) →
          e = stack_overflow ∨
          ∃ (q' : nat) c args, (lo ≤ q')%nat ∧ EvUserInit q' c args (Throw e) ∈ log sys')
    as Hmono.
  { intros [?|(q' & c & a & Hq' & Hev)]; [by left|]. right. exists q', c, a. auto. }
  destruct (decide (q = p)) as [->|Hne]; [|apply Hmono, Hsource; by rewrite <- Hst].
  clear Hst. resumed_cases Hstep; rewrite Hpr in Hp0; injection Hp0 as <-;
    simpl in Hpr'; rewrite list_lookup_alter, decide_True, Hpr in Hpr' by done;
    injection Hpr' as <-; simpl in He.
  - destruct He as [[= <-]|?]; [|done].
    apply Promise_all_Throw in Hall as (d & Hd' & Hrej).
    rewrite Forall_forall in Hdeps. specialize (Hdeps d Hd').
    unfold rejection, status_of in Hrej.
    destruct (promises sys !! d) as [prd|] eqn:Hprd; [|done]. simpl in Hrej.
    destruct (status prd) as [| | |ed] eqn:Hstd; try done. injection Hrej as ->.
    destruct (Hsrc d prd Hdeps Hprd) as (_ & _ & Hsd). apply Hsd. by left.
  - right. exists p, (fid f0), args. split; [done|].
    destruct r as [v|e']; simpl in He; destruct He as [He|He]; try done.
    injection He as ->. simpl. apply elem_of_app. right. left.
  - right. exists p, (fid f0), args. split; [done|].
    destruct He as [He|He]; [done|]. injection He as ->.
    simpl. apply elem_of_app. right. left.
  - by destruct He.
  - by destruct He.
  - destruct He as [[= <-]|?]; [|done]. apply Hmono, Hsource. by right.
Qed.

Lemma sourced_steps lo sys sys' : sourced lo sys → steps sys sys' → sourced lo sys'.
Proof.
  intros Hsrc H. induction H as [|sys1 sys2 sys3 [p Hstep]%step_Resumed _ IH]; [done|].
  apply IH. by eapply sourced_Resumed.
Qed.

Lemma spawned_within_sourced fs sys ps' :
  spawned_within fs (promises sys) ps' → sourced (length (promises sys)) (set_promises ps' sys).
Proof.
  intros [_ Hnodes] q pr Hq Hpr. simpl in Hpr.
  destruct (Hnodes q pr Hq Hpr) as (f & Hf & _ & Hds & Hst).
  split_and!; [by rewrite Hf| |].
  - eapply Forall_impl; [exact Hds|]. simpl. intros d Hd. lia.
  - intros e [He|He]; destruct Hst as [Hst|Hst]; try congruence. left. congruence.
Qed.

Lemma spawned_within_live fs sys ps' :
  live sys → spawned_within fs (promises sys) ps' → live (set_promises ps' sys).
Proof.
  intros Hlive [[new ->] Hnodes] q pr Hpr Hun. simpl in Hpr.
  destruct (decide (q < length (promises sys))%nat) as [Hlt|Hge].
  - rewrite lookup_app_l in Hpr by done. by eapply Hlive.
  - destruct (Hnodes q pr) as (f & Hf & _); [lia|done|]. by rewrite Hf.
Qed.

(** What the call on a key of a dependency cycle comes to, whatever the room
    on the stack and whatever runs afterwards. *)
Lemma get_within_cycle (entries : list (Entry World)) m K room sys :
  coherent sys →
  from entries = Normal m →
  tc (depends (factories m)) (symbol K) (symbol K) →
  ∃ (p : nat) sys1,
    get_within room m K sys = (p, sys1) ∧
    (length (promises sys) ≤ p)%nat ∧
    ∀ sys2, steps sys1 sys2 →
      fulfilled_value (promises sys2) p = None ∧
      (∀ c args, EvInitialize p c args ∉ log sys2) ∧
      (quiescent sys2 →
       ∃ e, rejection (promises sys2) p = Some e ∧
            (e = stack_overflow ∨
             ∃ (q : nat) f args w w',
               (length (promises sys) ≤ q)%nat ∧ f ∈ factories m ∧
               EvUserInit q (fid f) args (Throw e) ∈ log sys2 ∧
               user_initialize f args w = (Throw e, w'))).
Proof.
  intros Hcoh Hfrom Hcycle. unfold get_within.
  destruct (get_sync_within room (factories m) K (promises sys)) as [p ps1] eqn:Hget.
  exists p, (set_promises ps1 sys).
  assert (registered K (factories m)) as Hreg.
  { destruct (cycle_next _ _ Hcycle) as (f & _ & Hf & Hsym & _). by exists f. }
  destruct (get_sync_within_spawned room _ K _ p ps1 (from_resolvable _ _ Hfrom) Hreg Hget)
    as (Hspawned & Hlen & Hp).
  pose proof (get_sync_within_cycle entries m K room _ p ps1 Hfrom Hcycle Hget) as Hdoomed.
  split_and!; [done|done|]. intros sys2 Hsteps.
  assert (∀ c args, EvInitialize p c args ∉ log (set_promises ps1 sys)) as Hnone.
  { intros c args Hev. simpl in Hev.
    apply (coh_initialize sys Hcoh) in Hev as (pr & f & Hpr & _).
    apply lookup_lt_Some in Hpr. lia. }
  destruct (uninitialized_steps p _ sys2 Hsteps Hdoomed Hnone) as [Hdoomed2 Hnone2].
  split_and!; [by apply doomed_fulfilled_value|done|].
  intros Hquiet.
  pose proof (live_steps _ _ (spawned_within_live _ _ _ (coherent_live _ Hcoh) Hspawned) Hsteps)
    as Hlive2.
  destruct (doomed_quiescent sys2 p Hlive2 Hquiet Hdoomed2) as [e He].
  exists e. split; [done|].
  pose proof (sourced_steps _ _ _ (spawned_within_sourced _ _ _ Hspawned) Hsteps) as Hsrc2.
  unfold rejection, status_of in He.
  destruct (promises sys2 !! p) as [pr2|] eqn:Hp2; [|done]. simpl in He.
  destruct (status pr2) as [| | |e2] eqn:Hst2; try done. injection He as ->.
  destruct (Hsrc2 p pr2 Hp Hp2) as (_ & _ & Hsource).
  destruct (Hsource e) as [?|(q & c & args & Hq & Hev)]; [by left|by left|]. right.
  destruct (steps_user_init q _ sys2 c args _ Hsteps Hev)
    as [Hold|(pr & f & w & w' & Hpr & Hf & -> & Hu)].
  - exfalso. simpl in Hold.
    apply (coh_user_init sys Hcoh), (coh_initialize sys Hcoh) in Hold as (pr & f & Hpr & _).
    apply lookup_lt_Some in Hpr. lia.
  - destruct (steps_lookup_inv q _ sys2 pr Hsteps Hpr) as (pr1 & Hpr1 & Hc1 & _).
    destruct Hspawned as [_ Hnodes].
    destruct (Hnodes q pr1 Hq Hpr1) as (f' & Hf' & Hin & _).
    assert (f' = f) as -> by congruence.
    exists q, f, args, w, w'. done.
Qed.

Lemma get_within_callee room m K sys f :
  find (isSuitable K) (factories m) = Some f →
  ∃ (p : nat) sys1 pr,
    get_within room m K sys = (p, sys1) ∧ (length (promises sys) ≤ p)%nat ∧
    promises sys1 !! p = Some pr ∧ callee pr = Some f.
Proof.
  intros Hfind. unfold get_within.
  destruct (get_sync_within_callee room _ K (promises sys) f Hfind)
    as (p & ps' & pr & -> & Hp & Hpr & Hc).
  by exists p, (set_promises ps' sys), pr.
Qed.

(** The call that found [f], at any later time: [initialize] is called on
    [f] only, and a value the call is fulfilled with is one that the user
    initializer of [f] returned. *)
Lemma get_resolves_through fuel m K sys f :
  coherent sys → acyclic (factories m) →
  find (isSuitable K) (factories m) = Some f →
  (length (factories m) < fuel)%nat →
  ∃ (p : nat) sys1,
    get fuel m K sys = Some (p, sys1) ∧
    (length (promises sys) ≤ p)%nat ∧
    (∃ pr, promises sys1 !! p = Some pr ∧ callee pr = Some f ∧ status pr = Waiting) ∧
    ∀ sys2, moves m sys1 sys2 →
      callee <$> promises sys2 !! p = Some (Some f) ∧
      (∀ c args, EvInitialize p c args ∈ log sys2 → c = fid f) ∧
      (∀ v, status_of (promises sys2) p = Some (Fulfilled v) →
         ∃ (q : nat) args, EvUserInit q (fid f) args (Normal v) ∈ log sys2).
Proof.
  intros Hcoh Hacyc Hfind Hfuel.
  destruct (get_sync_acyclic (factories m) fuel K (promises sys) Hacyc Hfuel)
    as [[p ps1] Hsync].
  assert (get fuel m K sys = Some (p, set_promises ps1 sys)) as Hget.
  { unfold get. by rewrite Hsync. }
  exists p, (set_promises ps1 sys).
  destruct (get_root _ _ _ _ _ _ f Hget Hfind) as (Hnew & pr1 & Hp1 & Hc1 & Hst1).
  split_and!; [done|done|by exists pr1|].
  intros sys2 Hmoves.
  pose proof (coherent_moves _ _ _ (coherent_get _ _ _ _ _ _ Hcoh Hget) Hmoves) as Hcoh2.
  destruct (moves_lookup m p _ sys2 pr1 Hmoves Hp1) as (pr & Hp2 & Hc2 & _).
  split_and!.
  - rewrite Hp2. simpl. congruence.
  - intros c args Hev.
    destruct (coh_initialize sys2 Hcoh2 p c args Hev) as (pr' & f' & Hp' & Hf' & Hfid & _).
    rewrite Hp2 in Hp'. injection Hp' as <-. congruence.
  - intros v Hv. unfold status_of in Hv. rewrite Hp2 in Hv. injection Hv as Hv.
    pose proof (coh_status sys2 Hcoh2 p pr f Hp2 ltac:(congruence)) as Hex.
    unfold explained in Hex. rewrite Hv in Hex.
    destruct Hex as [_ (q & args' & Huser & _)]. eauto.
Qed.

(** *** The statements *)

(** C2.  When several factories of the flattened entry sequence provide the
    key K, the module built by [from] holds exactly one factory for K, the
    last of them in the flattened sequence, and [find] returns it.  Every
    call [get(K)] is made through it: the promise of the call holds that
    factory, whatever the room on the stack; with an acyclic dependency
    graph the call returns its promise, and from then on, whatever runs and
    whatever else is called, [initialize] is called for it on that factory
    only and a value it is fulfilled with is one that the user initializer
    of that factory returned. *)
Theorem from_last_wins (entries : list (Entry World)) m K f :
  from entries = Normal m →
  last (filter (λ g, sym g = symbol K) (flatten entries)) = Some f →
  filter (λ g, sym g = symbol K) (factories m) = [f] ∧
  find (isSuitable K) (factories m) = Some f ∧
  (∀ fuel ps (p : nat) ps', get_sync fuel (factories m) K ps = Some (p, ps') →
     callee <$> ps' !! p = Some (Some f)) ∧
  (∀ room sys, ∃ (p : nat) sys1 pr,
     get_within room m K sys = (p, sys1) ∧ (length (promises sys) ≤ p)%nat ∧
     promises sys1 !! p = Some pr ∧ callee pr = Some f) ∧
  (∀ fuel sys,
     coherent sys → acyclic (factories m) → (length (factories m) < fuel)%nat →
     ∃ (p : nat) sys1,
       get fuel m K sys = Some (p, sys1) ∧
       (length (promises sys) ≤ p)%nat ∧
       (∃ pr, promises sys1 !! p = Some pr ∧ callee pr = Some f ∧ status pr = Waiting) ∧
       ∀ sys2, moves m sys1 sys2 →
         callee <$> promises sys2 !! p = Some (Some f) ∧
         (∀ c args, EvInitialize p c args ∈ log sys2 → c = fid f) ∧
         (∀ v, status_of (promises sys2) p = Some (Fulfilled v) →
            ∃ (q : nat) args, EvUserInit q (fid f) args (Normal v) ∈ log sys2)).
Proof.
  intros Hm Hlast. apply from_Normal_factories in Hm.
  assert (filter (λ g, sym g = symbol K) (factories m) = [f]) as Hsole.
  { rewrite Hm. unfold survivors. by rewrite byKey_filter, Hlast. }
  assert (find (isSuitable K) (factories m) = Some f) as Hfind.
  { by rewrite find_isSuitable, Hsole. }
  split_and!; [done|done| | |].
  - intros fuel ps p ps' Hget.
    destruct (get_sync_callee _ _ _ _ _ _ _ Hget Hfind) as [ds ->]. done.
  - intros room sys. by apply get_within_callee.
  - intros fuel sys Hcoh Hacyc Hfuel. by apply get_resolves_through.
Qed.


(** C7.  A call [get(K)] on a module with no factory providing the symbol of
    K returns a promise rejected with the error naming K, and changes nothing
    else.  On a module built by [from], a factory providing the symbol of K
    is the only one doing so and is the one [find] returns; the promise of
    every call [get(K)] holds it, whatever the room on the stack, and with an
    acyclic dependency graph the call returns that promise, which waits for
    the dependencies. *)
Theorem get_finds_by_symbol (entries : list (Entry World)) (m : ServiceModule World) K
    (sys : Sys World) :
  from entries = Normal m →
  ((∀ f, f ∈ factories m → symbol (provides f) ≠ symbol K) →
   ∃ sys',
     (∀ fuel, get (S fuel) m K sys = Some (length (promises sys), sys')) ∧
     (∀ room, get_within room m K sys = (length (promises sys), sys')) ∧
     promises sys' =
       promises sys ++
         [{| callee := None;
             status := Rejected (Error ("Could not find a suitable factory for " +:+ name K));
             deps := [] |}] ∧
     resume (length (promises sys)) sys' = None ∧
     instances sys' = instances sys ∧ world sys' = world sys ∧ log sys' = log sys) ∧
  (∀ f, f ∈ factories m → symbol (provides f) = symbol K →
     filter (λ g, sym g = symbol K) (factories m) = [f] ∧
     find (isSuitable K) (factories m) = Some f ∧
     (∀ fuel (p : nat) sys', get fuel m K sys = Some (p, sys') →
                    callee <$> promises sys' !! p = Some (Some f)) ∧
     (∀ room, ∃ (p : nat) sys' pr,
        get_within room m K sys = (p, sys') ∧ (length (promises sys) ≤ p)%nat ∧
        promises sys' !! p = Some pr ∧ callee pr = Some f) ∧
     (acyclic (factories m) → ∀ fuel, (length (factories m) < fuel)%nat →
        ∃ (p : nat) sys' pr,
          get fuel m K sys = Some (p, sys') ∧ (length (promises sys) ≤ p)%nat ∧
          promises sys' !! p = Some pr ∧ callee pr = Some f ∧ status pr = Waiting)).
Proof.
  intros Hfrom. split.
  - intros Hnone. eexists. split_and!.
    + intros fuel. unfold get. simpl.
      rewrite (find_isSuitable_None K (factories m) Hnone). reflexivity.
    + intros room. unfold get_within.
      destruct room; simpl; by rewrite (find_isSuitable_None K (factories m) Hnone).
    + done.
    + unfold resume. simpl. by rewrite list_lookup_middle.
    + done.
    + done.
    + done.
  - intros f Hf Hsym. pose proof (from_Normal_factories _ _ Hfrom) as Hfs.
    assert (filter (λ g, sym g = symbol K) (factories m) = [f]) as Hsole.
    { rewrite Hfs in Hf |- *. apply elem_of_survivors in Hf.
      assert (sym f = symbol K) as Hs by exact Hsym. rewrite Hs in Hf.
      unfold survivors. by rewrite byKey_filter, Hf. }
    assert (find (isSuitable K) (factories m) = Some f) as Hfind.
    { by rewrite find_isSuitable, Hsole. }
    split_and!; [done|done| | |].
    + intros fuel p sys' (ps' & Hsync & ->)%get_inv.
      apply get_sync_spawned in Hsync as (_ & _ & Hc). by rewrite Hfind in Hc.
    + intros room. by apply get_within_callee.
    + intros Hacyc fuel Hfuel.
      destruct (get_sync_acyclic (factories m) fuel K (promises sys) Hacyc Hfuel)
        as [[p ps1] Hsync].
      assert (get fuel m K sys = Some (p, set_promises ps1 sys)) as Hget.
      { unfold get. by rewrite Hsync. }
      destruct (get_root _ _ _ _ _ _ f Hget Hfind) as (Hnew & pr1 & Hp1 & Hc1 & Hst1).
      by exists p, (set_promises ps1 sys), pr1.
Qed.

(** C8, as the code has it.  From a coherent state on, whatever runs and
    whatever the program calls: when the user initializer of a call made
    since has thrown, that call is rejected with the very exception, at once
    for a one-shot factory and when the wrapper resumes for a singleton,
    without writing the cache; every call that waits for it, however far
    up, is never fulfilled, never calls [initialize], and is rejected by the
    time no continuation is left.  A singleton that holds an instance, with
    no call suspended in its initializer, keeps it through whatever runs
    later: a later resolution of its key never runs its user initializer;
    that resolution first resolves the dependencies again, and it returns
    the cached instance once they are fulfilled, or is rejected with the
    rejection of one of them.  A continuation that rejects writes no cache.
    On a validated module with an acyclic dependency graph, [get(K)] returns
    its promise; every call made for the resolution is one the promise
    waits for; and an exception the promise is rejected with is one that a
    user initializer threw in one of those calls. *)
Theorem initializer_failure_propagates m K fuel sys :
  coherent sys →
  NoDup (fid <$> factories m) →
  (∀ sys2, moves m sys sys2 →
     (∀ (p q : nat) c args e,
        EvUserInit q c args (Throw e) ∈ log sys2 →
        (length (promises sys) ≤ q)%nat →
        rtc (awaits (promises sys2)) p q →
        failed_with e sys2 q ∧
        (∀ pr, promises sys2 !! q = Some pr → status pr = Initializing (Throw e) →
           ∃ sys3, resume q sys2 = Some sys3 ∧
                   status_of (promises sys3) q = Some (Rejected e) ∧
                   instances sys3 = instances sys2) ∧
        doomed (promises sys2) p ∧
        (q ≠ p → ∀ c' args', EvInitialize p c' args' ∉ log sys2) ∧
        ∀ sys3, moves m sys2 sys3 →
          fulfilled_value (promises sys3) p = None ∧
          (quiescent sys3 → ∃ e', rejection (promises sys3) p = Some e')) ∧
     (∀ g v fuel' (p' : nat) (sys3 sys4 : Sys World),
        stable g v sys2 →
        find (isSuitable (provides g)) (factories m) = Some g →
        get fuel' m (provides g) sys2 = Some (p', sys3) →
        steps sys3 sys4 →
        instance g sys4 = v ∧
        (∀ (q : nat) args r, EvUserInit q (fid g) args r ∈ log sys4 →
                     EvUserInit q (fid g) args r ∈ log sys2) ∧
        ∃ pr',
          promises sys4 !! p' = Some pr' ∧ callee pr' = Some g ∧
          (status pr' = Waiting ∨ status pr' = Fulfilled v ∨
           ∃ e' (d : nat), status pr' = Rejected e' ∧ d ∈ deps pr' ∧
                   rejection (promises sys4) d = Some e') ∧
          (∀ args, status pr' = Waiting →
                   Promise_all (promises sys4) (deps pr') = Some (Normal args) →
                   ∃ sys5 pr5, resume p' sys4 = Some sys5 ∧
                               promises sys5 !! p' = Some pr5 ∧ status pr5 = Fulfilled v))) ∧
  (∀ (sysA sysB : Sys World) (q : nat) prq e',
     resume q sysA = Some sysB → promises sysB !! q = Some prq →
     status prq = Rejected e' → instances sysB = instances sysA) ∧
  (resolvable (factories m) → acyclic (factories m) → registered K (factories m) →
   (length (factories m) < fuel)%nat →
   ∃ (p : nat) sys1,
     get fuel m K sys = Some (p, sys1) ∧
     (length (promises sys) ≤ p)%nat ∧
     ∀ sys2, moves m sys1 sys2 →
       (∀ q : nat, (length (promises sys) ≤ q ≤ p)%nat → rtc (awaits (promises sys2)) p q) ∧
       (∀ pr e, promises sys2 !! p = Some pr → status pr = Rejected e →
          ∃ (q : nat) prq fq args,
            (length (promises sys) ≤ q ≤ p)%nat ∧
            promises sys2 !! q = Some prq ∧ callee prq = Some fq ∧ fq ∈ factories m ∧
            EvUserInit q (fid fq) args (Throw e) ∈ log sys2)).
Proof.
  intros Hcoh Hnd. split_and!.
  - intros sys2 Hmoves.
    pose proof (coherent_moves _ _ _ Hcoh Hmoves) as Hcoh2.
    pose proof (failures_kept_moves m _ _ _ (failures_kept_start sys Hcoh) Hmoves) as Hkept2.
    split.
    + intros p q c args e Hev Hq Hpath.
      pose proof (Hkept2 q c args e Hq Hev) as Hfailed.
      assert (doomed (promises sys2) p) as Hdoomed.
      { apply (doomed_awaits_rtc sys2 p q Hcoh2); [done|by eapply failed_with_doomed]. }
      split_and!; [done| |done| |].
      * intros pr Hpr Hst.
        destruct (resume_failing sys2 q pr e (coherent_live _ Hcoh2) Hpr Hst)
          as (sys3 & Hres3 & Hst3 & Hinst3 & _). eauto.
      * intros Hne c' args' Hinit.
        destruct (coh_initialize sys2 Hcoh2 p c' args' Hinit)
          as (prp & fp & Hprp & _ & _ & _ & Hargs).
        apply rtc_inv in Hpath as [?|(d & (prp' & Hprp' & Hd) & Hrest)]; [done|].
        rewrite Hprp in Hprp'. injection Hprp' as <-.
        apply list_elem_of_lookup in Hd as [i Hi].
        destruct (Forall2_lookup_l _ _ _ _ _ Hargs Hi) as (a & _ & Ha).
        destruct (fulfilled_awaits_rtc sys2 d q Hcoh2 Hrest) as [v Hv]; [by exists a|].
        apply failed_with_doomed, doomed_fulfilled_value in Hfailed. congruence.
      * intros sys3 Hmoves3.
        pose proof (doomed_moves m p _ _ Hmoves3 Hdoomed) as Hdoomed3.
        split; [by apply doomed_fulfilled_value|]. intros Hquiet.
        pose proof (coherent_moves _ _ _ Hcoh2 Hmoves3) as Hcoh3.
        exact (doomed_quiescent sys3 p (coherent_live _ Hcoh3) Hquiet Hdoomed3).
    + intros g v fuel' p' sys3 sys4 Hstable Hfind' Hget' Hsteps'.
      assert (g ∈ factories m) as Hg.
      { apply list_elem_of_In. by eapply find_some. }
      destruct (stable_get _ _ _ _ _ _ g v Hnd Hg Hstable Hget') as [Hstable3 Hserved3].
      destruct (stable_steps g v p' sys3 sys4 Hsteps' Hstable3 (Hserved3 Hfind'))
        as (Hstable4 & (pr' & Hp' & Hc' & Hst') & Hlog).
      split_and!.
      * apply instance_lookup. by destruct Hstable4 as (_ & ? & _).
      * intros q args r Hq. apply Hlog in Hq. by apply get_inv in Hget' as (ps' & _ & ->).
      * exists pr'. split_and!; [done..|]. intros args Hwait Hall.
        by eapply stable_resume_fulfils.
  - intros sysA sysB q prq e' Hresume%resume_Resumed Hq Hrej.
    by eapply Resumed_rejecting_frame.
  - intros Hres Hacyc Hreg Hfuel.
    destruct (registered_find K (factories m) Hreg) as [f Hfind].
    destruct (get_sync_acyclic (factories m) fuel K (promises sys) Hacyc Hfuel)
      as [[p ps1] Hsync].
    assert (get fuel m K sys = Some (p, set_promises ps1 sys)) as Hget.
    { unfold get. by rewrite Hsync. }
    exists p, (set_promises ps1 sys).
    pose proof (coherent_get _ _ _ _ _ _ Hcoh Hget) as Hcoh1.
    destruct (get_root _ _ _ _ _ _ f Hget Hfind) as (Hnew & pr1 & Hp1 & Hc1 & _).
    pose proof (get_sync_last _ _ _ _ _ _ Hsync) as Hlast.
    destruct (get_sync_tree _ _ _ _ _ _ Hsync) as [_ Htree].
    assert (moves m sys (set_promises ps1 sys)) as Hfirst.
    { apply rtc_once. by eapply move_get. }
    pose proof (made_since_moves m _ _ _ (made_since_start m sys) Hfirst) as Hmade1.
    split_and!; [done|done|]. intros sys2 Hmoves. split.
    + intros q Hq. apply (awaits_moves m (set_promises ps1 sys)); [done|].
      apply Htree. simpl. lia.
    + intros pr e Hp Hst.
      pose proof (coherent_moves _ _ _ Hcoh1 Hmoves) as Hcoh2.
      destruct (made_since_moves m _ _ _ Hmade1 Hmoves) as [_ Hnodes].
      destruct (moves_lookup m p _ sys2 pr1 Hmoves Hp1) as (pr2 & Hp2 & Hc2 & _).
      rewrite Hp in Hp2. injection Hp2 as <-.
      apply (rejection_origin m sys2 (length (promises sys)) Hcoh2 Hres Hnodes) with pr f;
        [done|done|congruence|done].
Qed.

(** X4.  The constructor rejects a factory that depends on its own key, not a
    cycle through several factories.  On a module that [from] has built, a
    call of [get] on a key that lies on such a cycle, on a stack of whatever
    size, returns a promise that is never fulfilled and for which
    [initialize] is never called; when no continuation is left it is
    rejected, with the error of the engine for the exhausted stack or with
    an exception that a user initializer of the module threw in a call made
    for it. *)
Theorem get_on_cycle_rejected (entries : list (Entry World)) m K room sys :
  coherent sys →
  from entries = Normal m →
  tc (depends (factories m)) (symbol K) (symbol K) →
  ∃ (p : nat) sys1,
    get_within room m K sys = (p, sys1) ∧
    (length (promises sys) ≤ p)%nat ∧
    ∀ sys2, steps sys1 sys2 →
      fulfilled_value (promises sys2) p = None ∧
      (∀ c args, EvInitialize p c args ∉ log sys2) ∧
      (quiescent sys2 →
       ∃ e, rejection (promises sys2) p = Some e ∧
            (e = stack_overflow ∨
             ∃ (q : nat) f args w w',
               (length (promises sys) ≤ q)%nat ∧ f ∈ factories m ∧
               EvUserInit q (fid f) args (Throw e) ∈ log sys2 ∧
               user_initialize f args w = (Throw e, w'))).
Proof.
  intros Hcoh Hfrom Hcycle. by eapply get_within_cycle.
Qed.

End Propagation.

(** ** The DOT exporter *)

Lemma append_cons (c : Ascii.ascii) (a b : string) : String c a +:+ b = String c (a +:+ b).
Proof. done. Qed.

Lemma append_nil_l (a : string) : "" +:+ a = a.
Proof. done. Qed.

Lemma append_nil_r (a : string) : a +:+ "" = a.
Proof. induction a as [|c a IH]; [done|]. by rewrite append_cons, IH. Qed.

Lemma replace_all_cons_ne c r x s :
  x ≠ c → replace_all c r (String x s) = String x (replace_all c r s).
Proof. intros. simpl. by rewrite decide_False. Qed.

Lemma replace_all_cons_eq c r s :
  replace_all c r (String c s) = r +:+ replace_all c r s.
Proof. simpl. by rewrite decide_True. Qed.

Lemma escapeDotString_cons c s :
  escapeDotString (String c s) = escape_char c +:+ escapeDotString s.
Proof.
  unfold escapeDotString, escape_char.
  destruct (decide (c = backslash_char)) as [->|Hb].
  { rewrite replace_all_cons_eq. unfold backslash. rewrite !append_cons, !append_nil_l.
    by rewrite !(replace_all_cons_ne _ _ backslash_char) by done. }
  rewrite (replace_all_cons_ne backslash_char) by done.
  destruct (decide (c = quote_char)) as [->|Hq].
  { rewrite replace_all_cons_eq. unfold backslash, quote. rewrite !append_cons, !append_nil_l.
    by rewrite !(replace_all_cons_ne newline_char) by done. }
  rewrite (replace_all_cons_ne quote_char) by done.
  destruct (decide (c = newline_char)) as [->|Hn].
  { by rewrite replace_all_cons_eq. }
  by rewrite (replace_all_cons_ne newline_char) by done.
Qed.

Lemma escapeDotString_escape_each s : escapeDotString s = escape_each s.
Proof.
  induction s as [|c s IH]; [done|].
  by rewrite escapeDotString_cons, IH.
Qed.

Lemma escape_each_append a b : escape_each (a +:+ b) = escape_each a +:+ escape_each b.
Proof.
  induction a as [|c a IH]; [done|].
  rewrite append_cons. cbn [escape_each]. by rewrite IH, append_assoc.
Qed.

(** X15.  The three replacements together act on each character by itself: a
    backslash is doubled, a double quote and a line feed are written as a
    backslash and the quote or a letter, anything else is kept; the
    backslashes that the second and the third replacement put in are not
    doubled, and nothing that the first wrote is replaced again.  So the
    label of a name made of two parts is made of the labels of the parts. *)
Theorem escapeDotString_each_character :
  escapeDotString "" = "" ∧
  (∀ c s, escapeDotString (String c s) = escape_char c +:+ escapeDotString s) ∧
  (∀ a b, escapeDotString (a +:+ b) = escapeDotString a +:+ escapeDotString b).
Proof.
  split_and!; [done|apply escapeDotString_cons|].
  intros a b. rewrite !escapeDotString_escape_each. apply escape_each_append.
Qed.

Lemma escape_char_cases c :
  (c = backslash_char ∧ escape_char c = backslash +:+ backslash) ∨
  (c = quote_char ∧ escape_char c = backslash +:+ quote) ∨
  (c = newline_char ∧ escape_char c = backslash +:+ "n") ∨
  (c ≠ backslash_char ∧ c ≠ quote_char ∧ c ≠ newline_char ∧ escape_char c = String c "").
Proof.
  unfold escape_char. repeat case_decide; subst; auto 10.
Qed.

Lemma escape_each_inj s1 s2 : escape_each s1 = escape_each s2 → s1 = s2.
Proof.
  revert s2. induction s1 as [|c1 s1 IH]; intros [|c2 s2]; simpl.
  - done.
  - destruct (escape_char_cases c2) as [[_ ->]|[[_ ->]|[[_ ->]|(_&_&_& ->)]]]; done.
  - destruct (escape_char_cases c1) as [[_ ->]|[[_ ->]|[[_ ->]|(_&_&_& ->)]]]; done.
  - destruct (escape_char_cases c1) as [[-> ->]|[[-> ->]|[[-> ->]|(?&?&?& ->)]]];
      destruct (escape_char_cases c2) as [[-> ->]|[[-> ->]|[[-> ->]|(?&?&?& ->)]]];
      unfold backslash, quote; rewrite ?append_cons, ?append_nil_l; intros Heq; simplify_eq;
      try (f_equal; by apply IH); try done.
Qed.

(** X16.  Distinct names get distinct labels. *)
Theorem escapeDotString_injective s1 s2 :
  escapeDotString s1 = escapeDotString s2 → s1 = s2.
Proof. rewrite !escapeDotString_escape_each. apply escape_each_inj. Qed.

Lemma length_append (a b : string) :
  String.length (a +:+ b) = (String.length a + String.length b)%nat.
Proof. induction a as [|c a IH]; [done|]. rewrite append_cons. simpl. by rewrite IH. Qed.

Lemma escape_each_length s : (String.length s ≤ String.length (escape_each s))%nat.
Proof.
  induction s as [|c s IH]; simpl; [done|].
  rewrite length_append.
  destruct (escape_char_cases c) as [[_ ->]|[[_ ->]|[[_ ->]|(_&_&_& ->)]]]; simpl; lia.
Qed.

Lemma escape_each_plain s : escape_each s = s ↔ plain s.
Proof.
  induction s as [|c s IH]; simpl; [done|].
  destruct (escape_char_cases c) as [[-> ->]|[[-> ->]|[[-> ->]|(?&?&?& ->)]]].
  - split; [|by intros [? _]]. intros Heq. apply (f_equal String.length) in Heq.
    pose proof (escape_each_length s). rewrite !length_append in Heq. simpl in Heq. lia.
  - split; [|by intros (_ & ? & _)]. intros Heq. apply (f_equal String.length) in Heq.
    pose proof (escape_each_length s). rewrite !length_append in Heq. simpl in Heq. lia.
  - split; [|by intros (_ & _ & ? & _)]. intros Heq. apply (f_equal String.length) in Heq.
    pose proof (escape_each_length s). rewrite !length_append in Heq. simpl in Heq. lia.
  - rewrite append_cons, append_nil_l. split.
    + intros Heq. simplify_eq. split_and!; try done. by apply IH.
    + intros (_ & _ & _ & Hs). f_equal. by apply IH.
Qed.

(** X17.  A name is its own label exactly when it holds no backslash, no
    double quote and no line feed. *)
Theorem escapeDotString_fixes_plain_names s : escapeDotString s = s ↔ plain s.
Proof. rewrite escapeDotString_escape_each. apply escape_each_plain. Qed.

Lemma closing_quote_escape_each s rest :
  closing_quote (escape_each s +:+ quote +:+ rest) = Some (String.length (escape_each s)).
Proof.
  induction s as [|c s IH].
  - change (closing_quote (String quote_char rest) = Some 0%nat).
    cbn [closing_quote]. by rewrite decide_True.
  - cbn [escape_each]. rewrite append_assoc, length_append.
    destruct (escape_char_cases c) as [[-> ->]|[[-> ->]|[[-> ->]|(Hb & Hq & Hn & ->)]]].
    + unfold backslash. repeat first [rewrite append_cons | rewrite append_nil_l].
      cbn [closing_quote]. rewrite decide_False by done. rewrite decide_True by done.
      rewrite IH. done.
    + unfold backslash, quote at 1 3. repeat first [rewrite append_cons | rewrite append_nil_l].
      cbn [closing_quote]. rewrite decide_False by done. rewrite decide_True by done.
      rewrite IH. done.
    + unfold backslash. repeat first [rewrite append_cons | rewrite append_nil_l].
      cbn [closing_quote]. rewrite decide_False by done. rewrite decide_True by done.
      rewrite IH. done.
    + repeat first [rewrite append_cons | rewrite append_nil_l]. cbn [closing_quote].
      rewrite !decide_False by done. rewrite IH. done.
Qed.

(** X18.  Behind the opening quote of a label, the escaped name reads as one
    string: whatever the name holds, the first quote that closes the string
    is the one written after the name. *)
Theorem escapeDotString_label_closes s rest :
  closing_quote (escapeDotString s +:+ quote +:+ rest)
    = Some (String.length (escapeDotString s)).
Proof. rewrite escapeDotString_escape_each. apply closing_quote_escape_each. Qed.

Lemma escape_each_newline_free s : newline_free (escape_each s).
Proof.
  induction s as [|c s IH]; simpl; [done|].
  apply newline_free_append; [|done].
  destruct (escape_char_cases c) as [[_ ->]|[[_ ->]|[[_ ->]|(_&_&?& ->)]]];
    simpl; try done; split; done.
Qed.

Lemma escapeDotString_newline_free s : newline_free (escapeDotString s).
Proof. rewrite escapeDotString_escape_each. apply escape_each_newline_free. Qed.

Lemma pretty_N_char_newline_free x : pretty_N_char x ≠ newline_char.
Proof. unfold pretty_N_char. repeat case_match; done. Qed.

Lemma pretty_N_go_newline_free x s : newline_free s → newline_free (pretty_N_go x s).
Proof.
  revert s. induction (N.lt_wf_0 x) as [x _ IH]; intros s Hs.
  destruct (decide (0 < x)%N) as [Hx|Hx].
  - rewrite pretty_N_go_step by done. apply IH.
    + by apply N.div_lt.
    + split; [apply pretty_N_char_newline_free|done].
  - assert (x = 0%N) as -> by lia. by rewrite pretty_N_go_0.
Qed.

Lemma pretty_nat_newline_free (n : nat) : newline_free (pretty n).
Proof.
  unfold pretty, pretty_nat, pretty, pretty_N. case_decide; [by compute|].
  by apply pretty_N_go_newline_free.
Qed.

Lemma node_id_newline_free i : newline_free (node_id i).
Proof. unfold node_id. apply newline_free_append; [by compute|apply pretty_nat_newline_free]. Qed.

Lemma node_id_nonempty i : node_id i ≠ "".
Proof. done. Qed.

Lemma pretty_N_char_digit x : digit (pretty_N_char x).
Proof. unfold pretty_N_char, digit. repeat case_match; vm_compute; lia. Qed.

Lemma pretty_N_go_numeral x s : numeral s → numeral (pretty_N_go x s).
Proof.
  revert s. induction (N.lt_wf_0 x) as [x _ IH]; intros s Hs.
  destruct (decide (0 < x)%N) as [Hx|Hx].
  - rewrite pretty_N_go_step by done. apply IH.
    + by apply N.div_lt.
    + split; [apply pretty_N_char_digit|done].
  - assert (x = 0%N) as -> by lia. by rewrite pretty_N_go_0.
Qed.

Lemma pretty_nat_numeral (n : nat) : numeral (pretty n).
Proof.
  unfold pretty, pretty_nat, pretty, pretty_N. case_decide.
  - split; [vm_compute; lia|done].
  - by apply pretty_N_go_numeral.
Qed.

Lemma numeral_end (a a' : string) (c c' : Ascii.ascii) (r r' : string) :
  numeral a → numeral a' → ¬ digit c → ¬ digit c' →
  a +:+ String c r = a' +:+ String c' r' → a = a' ∧ r = r'.
Proof.
  revert a'. induction a as [|x a IH]; intros [|x' a'] Ha Ha' Hc Hc'.
  - rewrite !append_nil_l. by intros [= -> ->].
  - rewrite append_nil_l, append_cons. intros [= -> _]. by destruct Ha' as [? _].
  - rewrite append_nil_l, append_cons. intros [= -> _]. by destruct Ha as [? _].
  - rewrite !append_cons. intros [= -> Heq].
    destruct Ha as [_ Ha], Ha' as [_ Ha'].
    destruct (IH a' Ha Ha' Hc Hc' Heq) as [-> ->]. done.
Qed.

Lemma edge_line_inj (a b a' b' : nat) : edge_line a b = edge_line a' b' → a = a' ∧ b = b'.
Proof.
  unfold edge_line, node_id. rewrite !append_assoc. intros Heq.
  apply (inj (String.append "  ")), (inj (String.append "node")) in Heq.
  destruct (numeral_end (pretty a) (pretty a') (Ascii.ascii_of_nat 32) (Ascii.ascii_of_nat 32)
              ("-> " +:+ "node" +:+ pretty b +:+ ";") ("-> " +:+ "node" +:+ pretty b' +:+ ";"))
    as [Ha Hrest]; [apply pretty_nat_numeral..|vm_compute; lia|vm_compute; lia|exact Heq|].
  apply (inj pretty) in Ha. split; [done|].
  apply (inj (String.append "-> ")), (inj (String.append "node")) in Hrest.
  destruct (numeral_end (pretty b) (pretty b') (Ascii.ascii_of_nat 59) (Ascii.ascii_of_nat 59)
              "" "")
    as [Hb _]; [apply pretty_nat_numeral..|vm_compute; lia|vm_compute; lia|exact Hrest|].
  by apply (inj pretty) in Hb.
Qed.

Section Graph.

Context {World : Type}.

Implicit Types (f g : ServiceFactory World) (fs fsall : list (ServiceFactory World)).
Implicit Types (m : ServiceModule World) (o : DotGraphOptions) (s : string).

Lemma dependents_fold (ks : list ServiceKey) (B : gset string) s :
  s ∈ fold_left (λ acc dependency, {[name dependency]} ∪ acc) ks B ↔
  s ∈ B ∨ Exists (λ k, name k = s) ks.
Proof.
  revert B. induction ks as [|k ks IH]; intros B; simpl.
  - rewrite Exists_nil. tauto.
  - rewrite IH, Exists_cons, elem_of_union, elem_of_singleton. intuition congruence.
Qed.

Lemma dependency_sets_fold fs (A B : gset string) s :
  let r := fold_left
    (λ '(hasDependencies, hasDependents) factory,
       let serviceName := name (provides factory) in
       (if decide (0 < length (dependsOn factory))%nat
        then {[serviceName]} ∪ hasDependencies else hasDependencies,
        fold_left (λ acc dependency, {[name dependency]} ∪ acc) (dependsOn factory)
          hasDependents))
    fs (A, B) in
  (s ∈ r.1 ↔ s ∈ A ∨ has_dependencies fs s) ∧ (s ∈ r.2 ↔ s ∈ B ∨ has_dependents fs s).
Proof.
  revert A B. induction fs as [|f fs IH]; intros A B; simpl.
  - unfold has_dependencies, has_dependents. rewrite !Exists_nil. tauto.
  - destruct (IH (if decide (0 < length (dependsOn f))%nat
                  then {[name (provides f)]} ∪ A else A)
                 (fold_left (λ acc dependency, {[name dependency]} ∪ acc) (dependsOn f) B))
      as [IH1 IH2].
    split.
    + rewrite IH1. unfold has_dependencies. rewrite Exists_cons. unfold service_name.
      case_decide as Hlen.
      * assert (dependsOn f ≠ []) by (intros Heq; rewrite Heq in Hlen; simpl in Hlen; lia).
        rewrite elem_of_union, elem_of_singleton. intuition congruence.
      * assert (dependsOn f = []) as -> by (destruct (dependsOn f); [done|simpl in Hlen; lia]).
        intuition congruence.
    + rewrite IH2, dependents_fold. unfold has_dependents. rewrite Exists_cons. tauto.
Qed.

Lemma dependency_sets_spec fs s :
  (s ∈ (dependency_sets fs).1 ↔ has_dependencies fs s) ∧
  (s ∈ (dependency_sets fs).2 ↔ has_dependents fs s).
Proof.
  destruct (dependency_sets_fold fs ∅ ∅ s) as [H1 H2]. split.
  - etrans; [apply H1|]. rewrite elem_of_empty. tauto.
  - etrans; [apply H2|]. rewrite elem_of_empty. tauto.
Qed.

Lemma define_node_fold o fsall (hd ht : gset string) fs (ids : gmap string string) (n : nat)
    (L : list string) :
  (∀ s, s ∈ hd ↔ has_dependencies fsall s) →
  (∀ s, s ∈ ht ↔ has_dependents fsall s) →
  ∃ ids',
    fold_left (define_node o hd ht) fs (ids, n, L) =
      (ids', (n + length fs)%nat, L ++ imap (λ i f, node_line o fsall (n + i) f) fs) ∧
    ∀ s, ids' !! s =
         match last_named s fs n with
         | Some j => Some (node_id j)
         | None => ids !! s
         end.
Proof.
  intros Hhd Hht. revert ids n L. induction fs as [|f fs IH]; intros ids n L.
  - exists ids. simpl. split; [|done]. by rewrite Nat.add_0_r, app_nil_r.
  - change (fold_left (define_node o hd ht) (f :: fs) (ids, n, L))
      with (fold_left (define_node o hd ht) fs (define_node o hd ht (ids, n, L) f)).
    assert (define_node o hd ht (ids, n, L) f =
            (<[service_name f := node_id n]> ids, S n, L ++ [node_line o fsall n f])) as ->.
    { unfold define_node, node_line, node_style, service_name, node_id.
      rewrite (bool_decide_ext (name (provides f) ∉ hd)
                 (¬ has_dependencies fsall (name (provides f)))) by (by rewrite Hhd).
      rewrite (bool_decide_ext (name (provides f) ∉ ht)
                 (¬ has_dependents fsall (name (provides f)))) by (by rewrite Hht).
      done. }
    destruct (IH (<[service_name f := node_id n]> ids) (S n) (L ++ [node_line o fsall n f]))
      as (ids' & -> & Hids).
    exists ids'. split.
    + f_equal; [f_equal; simpl; lia|]. rewrite <- app_assoc. f_equal. simpl.
      rewrite Nat.add_0_r. f_equal. apply imap_ext. intros i g _. simpl. f_equal. lia.
    + intros s. rewrite Hids. simpl. destruct (last_named s fs (S n)); [done|].
      case_decide as Hs.
      * subst s. by rewrite lookup_insert_eq.
      * by rewrite lookup_insert_ne.
Qed.

Lemma last_named_None s fs i :
  last_named s fs i = None ↔ ∀ f, f ∈ fs → service_name f ≠ s.
Proof.
  revert i. induction fs as [|f fs IH]; intros i; simpl.
  - split; [|done]. intros _ f Hf. by apply elem_of_nil in Hf.
  - destruct (last_named s fs (S i)) as [j|] eqn:Hlast.
    + split; [done|]. intros Hall. exfalso.
      assert (last_named s fs (S i) = None) as Hn; [|congruence].
      apply IH. intros g Hg. apply Hall. by right.
    + case_decide as Hs.
      * split; [done|]. intros Hall. exfalso. apply (Hall f); [by left|done].
      * split; [|done]. intros _ g Hg. apply elem_of_cons in Hg as [->|Hg]; [done|].
        by apply (proj1 (IH (S i)) Hlast).
Qed.

Lemma last_named_bounds s fs i j :
  last_named s fs i = Some j →
  (i ≤ j)%nat ∧ ∃ f, fs !! (j - i)%nat = Some f ∧ service_name f = s ∧
    ∀ (j' : nat) f', (j - i < j')%nat → fs !! j' = Some f' → service_name f' ≠ s.
Proof.
  revert i. induction fs as [|f fs IH]; intros i; simpl; [done|].
  destruct (last_named s fs (S i)) as [j0|] eqn:Hlast.
  - intros [= ->]. destruct (IH _ Hlast) as (Hle & g & Hg & Hname & Hlater).
    split; [lia|]. exists g. replace (j - i)%nat with (S (j - S i)) by lia.
    split; [done|]. split; [done|]. intros [|j'] f' Hlt Hf'; [lia|].
    simpl in Hf'. apply (Hlater j'); [lia|done].
  - case_decide as Hs; [|done]. intros [= <-]. split; [done|].
    exists f. rewrite Nat.sub_diag. split; [done|]. split; [done|].
    intros [|j'] f' Hlt Hf'; [lia|]. simpl in Hf'.
    apply (proj1 (last_named_None s fs (S i)) Hlast). by eapply list_elem_of_lookup_2.
Qed.

Lemma last_named_is_Some s fs i f :
  f ∈ fs → service_name f = s → is_Some (last_named s fs i).
Proof.
  intros Hf Hs. destruct (last_named s fs i) eqn:E; [done|].
  exfalso. by apply (proj1 (last_named_None s fs i) E f).
Qed.

Lemma define_edges_inner (ids : gmap string string) fsall (src : string) (i : nat)
    (ks : list ServiceKey) (L : list string) :
  (∀ s, ids !! s = node_id <$> last_named s fsall 0) →
  src = node_id i →
  fold_left
    (λ lines dependency,
       match ids !! name dependency with
       | Some depNodeId =>
           if decide (depNodeId = "") then lines
           else lines ++ ["  " +:+ src +:+ " -> " +:+ depNodeId +:+ ";"]
       | None => lines
       end)
    ks L =
  L ++ omap (λ k, j ← last_named (name k) fsall 0; Some (edge_line i j)) ks.
Proof.
  intros Hids ->. revert L. induction ks as [|k ks IH]; intros L.
  - simpl. by rewrite app_nil_r.
  - cbn [fold_left omap list_omap]. rewrite Hids.
    destruct (last_named (name k) fsall 0) as [j|]; cbn [fmap option_fmap option_map mbind option_bind].
    + rewrite decide_False by apply node_id_nonempty. rewrite IH. by rewrite <- app_assoc.
    + apply IH.
Qed.

Lemma define_edges_spec (ids : gmap string string) fsall f (L : list string) :
  (∀ s, ids !! s = node_id <$> last_named s fsall 0) →
  f ∈ fsall →
  define_edges ids L f = L ++ edge_lines fsall f.
Proof.
  intros Hids Hf. unfold define_edges, edge_lines.
  destruct (last_named_is_Some (service_name f) fsall 0 f Hf eq_refl) as [i Hi].
  change (name (provides f)) with (service_name f).
  rewrite Hi. cbn [mbind option_bind].
  apply (define_edges_inner ids fsall); [done|]. by rewrite Hids, Hi.
Qed.

Lemma define_edges_fold (ids : gmap string string) fsall fs (L : list string) :
  (∀ s, ids !! s = node_id <$> last_named s fsall 0) →
  (∀ f, f ∈ fs → f ∈ fsall) →
  fold_left (define_edges ids) fs L = L ++ flat_map (edge_lines fsall) fs.
Proof.
  intros Hids. revert L. induction fs as [|f fs IH]; intros L Hsub; simpl.
  - by rewrite app_nil_r.
  - rewrite (define_edges_spec ids fsall) by (try done; apply Hsub; by left).
    rewrite IH by (intros g Hg; apply Hsub; by right). by rewrite <- app_assoc.
Qed.

Lemma createDotGraph_graph_lines m options :
  createDotGraph m options =
    String.concat newline (graph_lines (default defaultOptions options) (factories m)).
Proof.
  unfold createDotGraph, graph_lines.
  set (o := default defaultOptions options). set (fs := factories m).
  destruct (dependency_sets fs) as [hd ht] eqn:Hsets.
  destruct (define_node_fold o fs hd ht fs ∅ 0 (preamble o)) as (ids & -> & Hids).
  { intros s. destruct (dependency_sets_spec fs s) as [H _]. by rewrite Hsets in H. }
  { intros s. destruct (dependency_sets_spec fs s) as [_ H]. by rewrite Hsets in H. }
  rewrite (define_edges_fold ids fs fs).
  - f_equal. rewrite <- !app_assoc. done.
  - intros s. rewrite Hids. destruct (last_named s fs 0); [done|]. by rewrite lookup_empty.
  - done.
Qed.

Lemma split_lines_concat_lines (ls : list string) :
  ls ≠ [] → Forall newline_free ls → split_lines (String.concat newline ls) = ls.
Proof. destruct ls; [done|]. intros _. apply split_lines_concat. Qed.

Lemma template_direction_newline_free d : newline_free (template_direction d).
Proof. destruct d as [[]|]; by compute. Qed.

Lemma node_style_newline_free o fs s : newline_free (node_style o fs s).
Proof. unfold node_style. repeat case_match; by compute. Qed.

Lemma edge_line_newline_free i j : newline_free (edge_line i j).
Proof.
  unfold edge_line.
  repeat (apply newline_free_append; [first [by compute|apply node_id_newline_free]|]).
  by compute.
Qed.

Lemma graph_lines_newline_free o fs :
  newline_free (template_string (title o)) → Forall newline_free (graph_lines o fs).
Proof.
  intros Htitle. unfold graph_lines. rewrite !Forall_app. split_and!.
  - unfold preamble.
    repeat apply Forall_cons_2; try apply Forall_nil_2;
      repeat (apply newline_free_append;
              [first [by compute|done|apply template_direction_newline_free]|]);
      by compute.
  - apply Forall_lookup. intros i l. rewrite list_lookup_imap.
    destruct (fs !! i) as [f|]; [|done]. intros [= <-]. unfold node_line.
    repeat (apply newline_free_append;
            [first [by compute|apply node_id_newline_free|apply escapeDotString_newline_free
                   |apply node_style_newline_free]|]).
    by compute.
  - by repeat constructor.
  - apply Forall_forall. intros l Hl. apply list_elem_of_In, in_flat_map in Hl as (f & _ & Hl).
    apply list_elem_of_In in Hl. unfold edge_lines in Hl.
    apply list_elem_of_omap in Hl as (k & _ & Hl).
    destruct (last_named (service_name f) fs 0) as [i|]; [|done].
    destruct (last_named (name k) fs 0) as [j|]; [|done].
    simpl in Hl. injection Hl as <-. apply edge_line_newline_free.
  - by repeat constructor.
Qed.

(** X19.  With a title that holds no line feed, and whatever characters the
    names of the services hold, the output read line by line is: the lines
    of the preamble; one line per factory, in the order of the module, with
    the identifier of its position, the escaped name of its service and the
    style of a leaf when no service of that name has dependencies, else of a
    root when no service depends on that name; an empty line; one line per
    dependency whose name is the name of a service of the module, between
    the nodes of the last factories of these two names; the closing brace. *)
Theorem createDotGraph_lines m options :
  newline_free (template_string (title (default defaultOptions options))) →
  split_lines (createDotGraph m options) =
    preamble (default defaultOptions options)
      ++ imap (node_line (default defaultOptions options) (factories m)) (factories m)
      ++ [""]
      ++ flat_map (edge_lines (factories m)) (factories m)
      ++ ["}"].
Proof.
  intros Htitle. rewrite createDotGraph_graph_lines.
  apply split_lines_concat_lines; [done|]. by apply graph_lines_newline_free.
Qed.

Lemma last_named_unique fs (j : nat) g :
  NoDup (service_name <$> fs) → fs !! j = Some g →
  last_named (service_name g) fs 0 = Some j.
Proof.
  intros Hnd Hj.
  destruct (last_named_is_Some (service_name g) fs 0 g) as [j' Hj'];
    [by eapply list_elem_of_lookup_2|done|].
  rewrite Hj'. f_equal.
  apply last_named_bounds in Hj' as (_ & f' & Hf' & Hname & _).
  rewrite Nat.sub_0_r in Hf'.
  eapply (NoDup_lookup _ _ _ _ Hnd); rewrite list_lookup_fmap.
  - by rewrite Hf'; simpl; rewrite Hname.
  - by rewrite Hj.
Qed.

Lemma edge_lines_follow fs f (i : nat) :
  resolvable fs →
  NoDup (service_name <$> fs) →
  (∀ f g k, f ∈ fs → g ∈ fs → k ∈ dependsOn f → symbol k = sym g →
            name k = service_name g) →
  fs !! i = Some f →
  Forall2 (λ '(i, k) line, ∃ (j : nat) g,
             fs !! j = Some g ∧ find (isSuitable k) fs = Some g ∧ line = edge_line i j)
          (map (pair i) (dependsOn f)) (edge_lines fs f).
Proof.
  intros Hres Hnd Hkeys Hi. unfold edge_lines.
  rewrite (last_named_unique fs i f) by done. cbn [mbind option_bind].
  assert (f ∈ fs) as Hf by (by eapply list_elem_of_lookup_2).
  assert (∀ k, k ∈ dependsOn f → k ∈ dependsOn f) as Hsub by done.
  revert Hsub. generalize (dependsOn f) at 1 3 4. intros ks.
  induction ks as [|k ks IH]; intros Hsub; [constructor|].
  assert (k ∈ dependsOn f) as Hk by (apply Hsub; left).
  destruct (registered_find k fs (Hres f k Hf Hk)) as [g Hfind].
  pose proof Hfind as Hg. apply find_some in Hg as [Hg Hsuit].
  apply list_elem_of_In in Hg. unfold isSuitable in Hsuit. apply bool_decide_eq_true in Hsuit.
  apply list_elem_of_lookup in Hg as [j Hj].
  assert (name k = service_name g) as Hname.
  { apply (Hkeys f g k); try done. by eapply list_elem_of_lookup_2. }
  cbn [map omap list_omap]. rewrite Hname, (last_named_unique fs j g) by done.
  cbn [mbind option_bind]. constructor.
  - by exists j, g.
  - apply IH. intros k' Hk'. apply Hsub. by right.
Qed.

Lemma flat_edge_lines_follow fs pre rest :
  resolvable fs →
  NoDup (service_name <$> fs) →
  (∀ f g k, f ∈ fs → g ∈ fs → k ∈ dependsOn f → symbol k = sym g →
            name k = service_name g) →
  fs = pre ++ rest →
  Forall2 (λ '(i, k) line, ∃ (j : nat) g,
             fs !! j = Some g ∧ find (isSuitable k) fs = Some g ∧ line = edge_line i j)
          (dependencies_from (length pre) rest) (flat_map (edge_lines fs) rest).
Proof.
  intros Hres Hnd Hkeys. revert pre. induction rest as [|f rest IH]; intros pre Hfs.
  - constructor.
  - simpl. apply Forall2_app.
    + apply edge_lines_follow; try done. subst fs. by rewrite list_lookup_middle.
    + specialize (IH (pre ++ [f])). rewrite length_app in IH. simpl in IH.
      rewrite Nat.add_1_r in IH. apply IH. by rewrite <- app_assoc.
Qed.

(** X20.  In a module built by [from] whose services have pairwise distinct
    names, and whose keys of one symbol have one name (as keys that are one
    object have), the graph has one edge per dependency, in the order of the
    module and of [dependsOn], from the node of the factory that has the
    dependency to the node of the factory that [get] uses for it. *)
Theorem createDotGraph_edges_follow_resolution (entries : list (Entry World)) m options :
  from entries = Normal m →
  NoDup (service_name <$> factories m) →
  (∀ f g k, f ∈ factories m → g ∈ factories m → k ∈ dependsOn f → symbol k = sym g →
            name k = service_name g) →
  newline_free (template_string (title (default defaultOptions options))) →
  ∃ edges,
    split_lines (createDotGraph m options) =
      preamble (default defaultOptions options)
        ++ imap (node_line (default defaultOptions options) (factories m)) (factories m)
        ++ [""] ++ edges ++ ["}"] ∧
    Forall2 (λ '(i, k) line, ∃ (j : nat) g,
               factories m !! j = Some g ∧
               find (isSuitable k) (factories m) = Some g ∧
               line = edge_line i j)
            (dependencies_from 0 (factories m)) edges.
Proof.
  intros Hfrom Hnd Hkeys Htitle. exists (flat_map (edge_lines (factories m)) (factories m)).
  split.
  - rewrite createDotGraph_graph_lines.
    apply split_lines_concat_lines; [done|]. by apply graph_lines_newline_free.
  - apply (flat_edge_lines_follow (factories m) []); try done. by eapply from_resolvable.
Qed.

(** X21.  An options object replaces the default one as a whole: a member it
    leaves out is [undefined], not the default.  Without a title the graph is
    labelled undefined, without a direction the rank direction is undefined,
    and without the two highlighting flags no node is highlighted. *)
Theorem createDotGraph_partial_options m o :
  newline_free (template_string (title o)) →
  (title o = None →
   split_lines (createDotGraph m (Some o)) !! 1%nat =
     Some ("  label=" +:+ quote +:+ "undefined" +:+ quote +:+ ";")) ∧
  (direction o = None →
   split_lines (createDotGraph m (Some o)) !! 4%nat = Some "  rankdir=undefined;") ∧
  (highlightLeaves o = None → highlightRoots o = None →
   ∀ (i : nat) f, factories m !! i = Some f →
     split_lines (createDotGraph m (Some o)) !! (20 + i)%nat =
       Some ("  " +:+ node_id i +:+ " [label=" +:+ quote +:+ escapeDotString (service_name f)
               +:+ quote +:+ "];")).
Proof.
  intros Htitle.
  assert (split_lines (createDotGraph m (Some o)) = graph_lines o (factories m)) as ->.
  { rewrite createDotGraph_graph_lines.
    apply split_lines_concat_lines; [done|]. by apply graph_lines_newline_free. }
  unfold graph_lines. split_and!.
  - intros Ht. simpl. by rewrite Ht.
  - intros Hd. simpl. by rewrite Hd.
  - intros Hl Hr i f Hi.
    rewrite lookup_app_r by (simpl; lia).
    replace (20 + i - length (preamble o))%nat with i by (simpl; lia).
    rewrite lookup_app_l by (rewrite length_imap; by eapply lookup_lt_Some).
    rewrite list_lookup_imap, Hi. simpl. unfold node_line, node_style.
    by rewrite Hl, Hr.
Qed.

Lemma last_named_last fs s (a i j : nat) f g :
  last_named s fs 0 = Some a →
  fs !! i = Some f → fs !! j = Some g → (i < j)%nat → service_name f = service_name g →
  a ≠ i.
Proof.
  intros Ha Hi Hj Hlt Hname ->.
  apply last_named_bounds in Ha as (_ & f' & Hf' & Hs & Hlater).
  rewrite Nat.sub_0_r in Hf', Hlater. rewrite Hi in Hf'. injection Hf' as <-.
  apply (Hlater j g); [done|done|congruence].
Qed.

(** X22.  Nodes are found by the name of the service.  When two factories of a
    module have services of one name, no edge starts or ends at the node of
    the earlier one: the edges of both, and the edges to both, are drawn at
    the node of the later one. *)
Theorem createDotGraph_same_name_shares_node m options (i j : nat) f g :
  newline_free (template_string (title (default defaultOptions options))) →
  factories m !! i = Some f → factories m !! j = Some g → (i < j)%nat →
  service_name f = service_name g →
  ∃ edges,
    split_lines (createDotGraph m options) =
      preamble (default defaultOptions options)
        ++ imap (node_line (default defaultOptions options) (factories m)) (factories m)
        ++ [""] ++ edges ++ ["}"] ∧
    ∀ a b : nat, edge_line a b ∈ edges → a ≠ i ∧ b ≠ i.
Proof.
  intros Htitle Hi Hj Hlt Hname.
  exists (flat_map (edge_lines (factories m)) (factories m)). split.
  - rewrite createDotGraph_graph_lines.
    apply split_lines_concat_lines; [done|]. by apply graph_lines_newline_free.
  - intros a b Hin. apply list_elem_of_In, in_flat_map in Hin as (f0 & _ & Hin).
    apply list_elem_of_In in Hin. unfold edge_lines in Hin.
    apply list_elem_of_omap in Hin as (k & _ & Hline).
    destruct (last_named (service_name f0) (factories m) 0) as [a'|] eqn:Ha'; [|done].
    destruct (last_named (name k) (factories m) 0) as [b'|] eqn:Hb'; [|done].
    simpl in Hline. apply (inj Some), edge_line_inj in Hline as [-> ->].
    split; by eapply last_named_last.
Qed.

Lemma fold_left_names {A} (h : A → string → A) (ks : list ServiceKey) (a : A) :
  fold_left (λ acc k, h acc (name k)) ks a = fold_left h (name <$> ks) a.
Proof. revert a. induction ks as [|k ks IH]; intros a; [done|]. simpl. apply IH. Qed.

Lemma fold_left_Forall2 {A B} (body1 body2 : A → B → A) (l1 l2 : list B) (a : A) :
  Forall2 (λ x y, ∀ a, body1 a x = body2 a y) l1 l2 →
  fold_left body1 l1 a = fold_left body2 l2 a.
Proof.
  intros Hall. revert a. induction Hall as [|x y l1 l2 Hxy _ IH]; intros a; [done|].
  simpl. rewrite Hxy. apply IH.
Qed.

Lemma Forall2_names fs1 fs2 :
  names_of <$> fs1 = names_of <$> fs2 →
  Forall2 (λ f g, names_of f = names_of g) fs1 fs2.
Proof. intros Heq. apply list_eq_Forall2 in Heq. by apply Forall2_fmap_1 in Heq. Qed.

(** X23.  [createDotGraph] reads the names only: two modules whose factories
    have, position by position, services of the same name with dependencies
    of the same names give the same output, whatever the symbols of the
    keys, the scopes, the initializers and the lifetimes are. *)
Theorem createDotGraph_reads_names_only (m1 m2 : ServiceModule World) options :
  names_of <$> factories m1 = names_of <$> factories m2 →
  createDotGraph m1 options = createDotGraph m2 options.
Proof.
  intros Hnames%Forall2_names. unfold createDotGraph.
  assert (dependency_sets (factories m1) = dependency_sets (factories m2)) as ->.
  { unfold dependency_sets. apply fold_left_Forall2.
    eapply Forall2_impl; [exact Hnames|]. intros f g [= Hname Hdeps] [hd ht].
    rewrite Hname. f_equal.
    - by rewrite <- (length_fmap name (dependsOn f)), Hdeps, length_fmap.
    - rewrite (fold_left_names (λ acc n, {[n]} ∪ acc) (dependsOn f)).
      rewrite (fold_left_names (λ acc n, {[n]} ∪ acc) (dependsOn g)). by rewrite Hdeps. }
  destruct (dependency_sets (factories m2)) as [hd ht].
  assert (fold_left (define_node (default defaultOptions options) hd ht) (factories m1)
            (∅, 0%nat, preamble (default defaultOptions options)) =
          fold_left (define_node (default defaultOptions options) hd ht) (factories m2)
            (∅, 0%nat, preamble (default defaultOptions options))) as ->.
  { apply fold_left_Forall2. eapply Forall2_impl; [exact Hnames|].
    intros f g [= Hname Hdeps] [[ids n] lines]. unfold define_node. by rewrite Hname. }
  destruct (fold_left _ (factories m2) _) as [[ids n] lines].
  f_equal. f_equal. apply fold_left_Forall2. eapply Forall2_impl; [exact Hnames|].
  intros f g [= Hname Hdeps] acc. unfold define_edges. rewrite Hname.
  rewrite (fold_left_names
             (λ lines n,
                match ids !! n with
                | Some depNodeId =>
                    if decide (depNodeId = "") then lines
                    else lines ++ ["  " +:+ default "undefined" (ids !! name (provides g))
                                     +:+ " -> " +:+ depNodeId +:+ ";"]
                | None => lines
                end) (dependsOn f)).
  rewrite (fold_left_names
             (λ lines n,
                match ids !! n with
                | Some depNodeId =>
                    if decide (depNodeId = "") then lines
                    else lines ++ ["  " +:+ default "undefined" (ids !! name (provides g))
                                     +:+ " -> " +:+ depNodeId +:+ ";"]
                | None => lines
                end) (dependsOn g)).
  by rewrite Hdeps.
Qed.

End Graph.

(** * The statements at concrete modules *)

Lemma readmeModule_acyclic : acyclic (factories readmeModule).
Proof.
  apply (acyclic_of_rank _ Pos.to_nat). intros s t (f & k & Hf & <- & Hk & <-).
  simpl in Hf. repeat (apply elem_of_cons in Hf as [->|Hf]); [| | |inversion Hf];
    simpl in Hk; repeat (apply elem_of_cons in Hk as [->|Hk]); try (inversion Hk);
    vm_compute; lia.
Qed.

Lemma overrideModule_acyclic : acyclic (factories overrideModule).
Proof.
  apply (acyclic_of_rank _ Pos.to_nat). intros s t (f & k & Hf & <- & Hk & <-).
  simpl in Hf. repeat (apply elem_of_cons in Hf as [->|Hf]); [| | |inversion Hf];
    simpl in Hk; repeat (apply elem_of_cons in Hk as [->|Hk]); try (inversion Hk);
    vm_compute; lia.
Qed.

Lemma flakyModule_acyclic : acyclic (factories flakyModule).
Proof.
  apply (acyclic_of_rank _ Pos.to_nat). intros s t (f & k & Hf & <- & Hk & <-).
  simpl in Hf. repeat (apply elem_of_cons in Hf as [->|Hf]); [| | | |inversion Hf];
    simpl in Hk; repeat (apply elem_of_cons in Hk as [->|Hk]); try (inversion Hk);
    vm_compute; lia.
Qed.

Lemma cyclicModule_cycle :
  tc (depends (factories cyclicModule)) (symbol PingKey) (symbol PingKey).
Proof.
  apply tc_l with (symbol PongKey).
  - exists pingFactory, PongKey. split_and!; [|done| |done]; simpl; repeat constructor.
  - apply tc_once. exists pongFactory, PingKey.
    split_and!; [|done| |done]; simpl; repeat constructor.
Qed.

(** No continuation is left in a concrete state of at most four promises. *)
Ltac quiet :=
  intros q; do 4 (try (destruct q as [|q]; [vm_compute; reflexivity|])); vm_compute; reflexivity.

Lemma from_last_wins_witness :
  from overrideEntries = Normal overrideModule ∧
  last (filter (λ g, sym g = symbol ConfigKey) (flatten overrideEntries)) = Some configOverride ∧
  filter (λ g, sym g = symbol ConfigKey) (factories overrideModule) = [configOverride] ∧
  find (isSuitable ConfigKey) (factories overrideModule) = Some configOverride ∧
  ∃ sys1 sys2,
    get 4 overrideModule ConfigKey (empty_sys 0) = Some (0, sys1) ∧
    get_within 0 overrideModule ConfigKey (empty_sys 0) = (0, sys1) ∧
    callee <$> promises sys1 !! 0%nat = Some (Some configOverride) ∧
    run [0; 0]%nat sys1 = Some sys2 ∧
    status_of (promises sys2) 0 = Some (Fulfilled (JObj 0)) ∧
    (∀ c args, EvInitialize 0 c args ∈ log sys2 → c = fid configOverride) ∧
    ∃ (q : nat) args, EvUserInit q (fid configOverride) args (Normal (JObj 0)) ∈ log sys2.
Proof.
  assert (from overrideEntries = Normal overrideModule) as Hfrom by (vm_compute; reflexivity).
  assert (last (filter (λ g, sym g = symbol ConfigKey) (flatten overrideEntries))
          = Some configOverride) as Hlast by (vm_compute; reflexivity).
  destruct (from_last_wins overrideEntries overrideModule ConfigKey configOverride Hfrom Hlast)
    as (Hsole & Hfind & _ & Hwithin & Hthrough).
  split_and!; [done..|].
  destruct (Hthrough 4 (empty_sys 0) (coherent_empty 0) overrideModule_acyclic)
    as (p & sys1 & Hget & _ & _ & Hlater); [simpl; lia|].
  assert (get 4 overrideModule ConfigKey (empty_sys 0)
          = Some (0, called overrideModule ConfigKey (empty_sys 0))) as Hget0
    by (vm_compute; reflexivity).
  rewrite Hget0 in Hget. injection Hget as <- <-.
  assert (run [0; 0]%nat (called overrideModule ConfigKey (empty_sys 0))
          = Some (ran [0; 0]%nat (called overrideModule ConfigKey (empty_sys 0)))) as Hrun
    by (vm_compute; reflexivity).
  destruct (Hlater _ (steps_moves overrideModule _ _ (run_steps _ _ _ Hrun)))
    as (Hcallee & Hinit & Hvalue).
  exists (called overrideModule ConfigKey (empty_sys 0)),
         (ran [0; 0]%nat (called overrideModule ConfigKey (empty_sys 0))).
  split_and!; [done|vm_compute; reflexivity|vm_compute; reflexivity|done|
               vm_compute; reflexivity|done|].
  apply Hvalue. vm_compute. reflexivity.
Defined.

Lemma self_dependency_rejected_witness :
  selfishApp ∈ survivors selfishEntries ∧
  provides selfishApp ∈ dependsOn selfishApp ∧
  from selfishEntries = Throw (Error "Recursive dependency detected on: App").
Proof.
  assert (selfishApp ∈ survivors selfishEntries) as Hin.
  { change (survivors selfishEntries) with [configFactory; selfishApp].
    apply list_elem_of_further, list_elem_of_here. }
  assert (provides selfishApp ∈ dependsOn selfishApp) as Hself by apply list_elem_of_here.
  split_and!; [done|done|].
  apply (self_dependency_rejected selfishEntries selfishApp Hin Hself) with [configFactory] [].
  - reflexivity.
  - intros g Hg. apply list_elem_of_singleton in Hg as ->. split.
    + apply not_elem_of_nil.
    + intros k Hk. inversion Hk.
Defined.

(** C4 as stated fails when an earlier factory of the list fails a check:
    the error is that factory's, and it does not name the self-dependent
    one. *)
Lemma self_dependency_error_names_first_violator :
  selfishApp ∈ survivors twoViolations ∧
  provides selfishApp ∈ dependsOn selfishApp ∧
  ∃ message,
    from twoViolations = Throw (Error message) ∧
    mentions (name (provides selfishApp)) message = false.
Proof.
  split_and!.
  - change (survivors twoViolations) with [orphanLogger; selfishApp].
    apply list_elem_of_further, list_elem_of_here.
  - apply list_elem_of_here.
  - eexists. split; vm_compute; reflexivity.
Qed.

Lemma missing_dependencies_reported_witness :
  appFactory ∈ survivors orphanEntries ∧
  ConfigKey ∈ dependsOn appFactory ∧
  ¬ registered ConfigKey (survivors orphanEntries) ∧
  (∃ e, from orphanEntries = Throw e) ∧
  ∃ missing,
    from orphanEntries = Throw (Error (missing_message appFactory missing)) ∧
    (∀ k', k' ∈ missing ↔
           k' ∈ dependsOn appFactory ∧ ¬ registered k' (survivors orphanEntries)) ∧
    (newline_free (name (provides appFactory)) →
     Forall (λ k', newline_free (name k')) missing →
     split_lines (missing_message appFactory missing) =
       (name (provides appFactory) +:+ " will fail because it depends on:")
         :: indent_first (map (λ k', " -> " +:+ name k') missing)).
Proof.
  assert (appFactory ∈ survivors orphanEntries) as Hin.
  { change (survivors orphanEntries) with [appFactory]. apply list_elem_of_here. }
  assert (ConfigKey ∈ dependsOn appFactory) as Hdep by apply list_elem_of_here.
  assert (¬ registered ConfigKey (survivors orphanEntries)) as Hunreg.
  { intros (g & Hg & Hsym). change (survivors orphanEntries) with [appFactory] in Hg.
    apply list_elem_of_singleton in Hg as ->. discriminate Hsym. }
  split_and!; [done|done|done|..].
  - apply (missing_dependencies_reported orphanEntries appFactory ConfigKey Hin Hdep Hunreg).
  - apply (missing_dependencies_reported orphanEntries appFactory ConfigKey Hin Hdep Hunreg)
      with [] []; [reflexivity| |].
    + intros g Hg. inversion Hg.
    + intros Hself. unfold self_dependent in Hself. simpl in Hself.
      repeat (apply elem_of_cons in Hself as [Hself|Hself]; [discriminate Hself|]).
      inversion Hself.
Defined.

(** The message of the end-to-end scenario of the specification, line by
    line. *)
Example missing_message_lines :
  from orphanEntries = Throw (Error (missing_message appFactory [ConfigKey; LoggerKey])) ∧
  split_lines (missing_message appFactory [ConfigKey; LoggerKey]) =
    ["App will fail because it depends on:"; "  -> Config"; " -> Logger"].
Proof. split; vm_compute; reflexivity. Qed.

(** C3 as stated fails when an earlier factory of the list fails a check:
    the error is that factory's; it neither names the later factory nor
    lists what the later factory misses. *)
Lemma missing_dependency_error_names_first_violator :
  orphanApp ∈ survivors twoOrphans ∧
  CacheKey ∈ dependsOn orphanApp ∧
  ¬ registered CacheKey (survivors twoOrphans) ∧
  ∃ message,
    from twoOrphans = Throw (Error message) ∧
    mentions (name (provides orphanApp)) message = false ∧
    mentions (name CacheKey) message = false.
Proof.
  split_and!.
  - change (survivors twoOrphans) with [orphanLogger; orphanApp].
    apply list_elem_of_further, list_elem_of_here.
  - apply list_elem_of_here.
  - intros (g & Hg & Hsym). change (survivors twoOrphans) with [orphanLogger; orphanApp] in Hg.
    repeat (apply elem_of_cons in Hg as [->|Hg]; [discriminate Hsym|]). inversion Hg.
  - eexists. split_and!; vm_compute; reflexivity.
Qed.

Lemma from_validates_survivors_only_witness :
  (∀ f, f ∈ survivors repairedEntries → valid_in (survivors repairedEntries) f) ∧
  self_dependent brokenConfig ∧
  ¬ registered CacheKey (flatten repairedEntries) ∧
  from repairedEntries = Normal {| factories := [configOverride] |}.
Proof.
  assert (∀ f, f ∈ survivors repairedEntries → valid_in (survivors repairedEntries) f) as Hvalid.
  { change (survivors repairedEntries) with [configOverride].
    intros f Hf. apply list_elem_of_singleton in Hf as ->. split.
    - apply not_elem_of_nil.
    - intros k Hk. inversion Hk. }
  split_and!; [done| | |].
  - apply list_elem_of_here.
  - intros (g & Hg & Hsym). simpl in Hg.
    repeat (apply elem_of_cons in Hg as [->|Hg]; [discriminate Hsym|]). inversion Hg.
  - apply (from_validates_survivors_only repairedEntries Hvalid).
Defined.



Lemma get_terminates_witness :
  coherent (empty_sys 0) ∧
  acyclic (factories readmeModule) ∧
  registered AppKey (factories readmeModule) ∧
  (length (factories readmeModule) < 4)%nat ∧
  ∃ p sys1,
    get 4 readmeModule AppKey (empty_sys 0) = Some (p, sys1) ∧
    ∃ st, status_of (promises (event_loop (work sys1) sys1)) p = Some st ∧ is_settled st.
Proof.
  assert (registered AppKey (factories readmeModule)) as Hreg.
  { exists appFactory. split; [|reflexivity]. simpl. repeat constructor. }
  assert (length (factories readmeModule) < 4)%nat as Hfuel by (simpl; lia).
  split_and!; [apply coherent_empty|apply readmeModule_acyclic|done|done|].
  destruct (get_terminates readmeModule AppKey (empty_sys 0) 4
              (coherent_empty 0) readmeModule_acyclic Hreg Hfuel)
    as (p & sys1 & Hget & _ & Hsettled).
  exists p, sys1. by split.
Defined.

Lemma get_finds_by_symbol_witness :
  from overrideEntries = Normal overrideModule ∧
  (∃ sys',
     get 1 overrideModule CacheKey (empty_sys 0) = Some (0, sys') ∧
     get_within 0 overrideModule CacheKey (empty_sys 0) = (0, sys') ∧
     promises sys' =
       [{| callee := None;
           status := Rejected (Error "Could not find a suitable factory for Cache");
           deps := [] |}] ∧
     resume 0 sys' = None) ∧
  filter (λ g, sym g = symbol ConfigKey) (factories overrideModule) = [configOverride] ∧
  acyclic (factories overrideModule) ∧
  ∃ sys1,
    get 4 overrideModule ConfigKey (empty_sys 0) = Some (0, sys1) ∧
    promises sys1 !! 0%nat =
      Some {| callee := Some configOverride; status := Waiting; deps := [] |}.
Proof.
  assert (from overrideEntries = Normal overrideModule) as Hfrom by (vm_compute; reflexivity).
  split; [done|]. split_and!.
  - destruct (get_finds_by_symbol overrideEntries overrideModule CacheKey (empty_sys 0) Hfrom)
      as [Hnone _].
    destruct Hnone as (sys' & Hget & Hwithin & Hps & Hres & _).
    + intros f Hf. simpl in Hf. repeat (apply elem_of_cons in Hf as [->|Hf]); try discriminate.
      inversion Hf.
    + exists sys'. split_and!; [apply (Hget 0%nat)|apply Hwithin|done|done].
  - destruct (get_finds_by_symbol overrideEntries overrideModule ConfigKey (empty_sys 0) Hfrom)
      as [_ Hsome].
    apply (Hsome configOverride); [|reflexivity]. simpl. repeat constructor.
  - apply overrideModule_acyclic.
  - destruct (get_finds_by_symbol overrideEntries overrideModule ConfigKey (empty_sys 0) Hfrom)
      as [_ Hsome].
    destruct (Hsome configOverride) as (_ & _ & _ & _ & Hexists);
      [simpl; repeat constructor|reflexivity|].
    destruct (Hexists overrideModule_acyclic 4) as (p & sys1 & pr & Hget & _ & Hp & Hc & Hst);
      [simpl; lia|].
    assert (get 4 overrideModule ConfigKey (empty_sys 0)
            = Some (0, called overrideModule ConfigKey (empty_sys 0))) as Hget0
      by (vm_compute; reflexivity).
    rewrite Hget0 in Hget. injection Hget as <- <-.
    exists (called overrideModule ConfigKey (empty_sys 0)). split; [done|].
    vm_compute. reflexivity.
Defined.

(** C1 at the failing input: two resolutions one after the other of a
    singleton whose initializer returns [undefined] run the user initializer
    twice. *)
Theorem singleton_undefined_reinitialized :
  from [FactoryEntry voidFactory] = Normal voidModule ∧
  ∃ sys1 sys2,
    resolve voidModule VoidKey (empty_sys 0) = Some (0, sys1) ∧
    status_of (promises sys1) 0 = Some (Fulfilled JUndefined) ∧
    instances sys1 !! fid voidFactory = Some JUndefined ∧
    resolve voidModule VoidKey sys1 = Some (1, sys2) ∧
    status_of (promises sys2) 1 = Some (Fulfilled JUndefined) ∧
    log sys2 =
      [EvInitialize 0 10 []; EvUserInit 0 10 [] (Normal JUndefined);
       EvInitialize 1 10 []; EvUserInit 1 10 [] (Normal JUndefined)] ∧
    world sys2 = 2.
Proof.
  split; [vm_compute; reflexivity|].
  eexists _, _. split_and!; vm_compute; reflexivity.
Qed.

Ltac concrete_promise Hq :=
  vm_compute in Hq; first [discriminate Hq | injection Hq as <-].

Lemma afterFailure_stable : stable storeFactory (JObj 2) afterFailure.
Proof.
  split_and!; [exact I|vm_compute; reflexivity|discriminate| |].
  - intros q pr f Hq Hc Hfid.
    do 4 (destruct q as [|q];
          [concrete_promise Hq; simpl in Hc; injection Hc as <-;
           first [reflexivity | discriminate Hfid]|]).
    concrete_promise Hq.
  - intros q pr r Hq Hc.
    do 4 (destruct q as [|q]; [concrete_promise Hq; simpl; discriminate|]).
    concrete_promise Hq.
Qed.

Lemma afterFailure_quiescent : quiescent afterFailure.
Proof. quiet. Qed.

Lemma initializer_failure_propagates_witness :
  coherent (empty_sys 0) ∧
  NoDup (fid <$> factories flakyModule) ∧
  resolvable (factories flakyModule) ∧
  acyclic (factories flakyModule) ∧
  registered MainKey (factories flakyModule) ∧
  (length (factories flakyModule) < 5)%nat ∧
  get 5 flakyModule MainKey (empty_sys 0) = Some (3, called flakyModule MainKey (empty_sys 0)) ∧
  run failingSchedule (called flakyModule MainKey (empty_sys 0)) = Some afterFailure ∧
  EvUserInit 2 (fid badFactory) [] (Throw (Thrown (JStr "boom"))) ∈ log afterFailure ∧
  rtc (awaits (promises afterFailure)) 3 2 ∧
  failed_with (Thrown (JStr "boom")) afterFailure 2 ∧
  doomed (promises afterFailure) 3 ∧
  (∀ c args, EvInitialize 3 c args ∉ log afterFailure) ∧
  quiescent afterFailure ∧
  rejection (promises afterFailure) 3 = Some (Thrown (JStr "boom")) ∧
  (∀ sys3, moves flakyModule afterFailure sys3 → fulfilled_value (promises sys3) 3 = None) ∧
  ∀ fuel' (p' : nat) sys3 sys4,
    get fuel' flakyModule StoreKey afterFailure = Some (p', sys3) →
    steps sys3 sys4 →
    instance storeFactory sys4 = JObj 2 ∧
    ∀ (q : nat) args r, EvUserInit q (fid storeFactory) args r ∈ log sys4 →
                EvUserInit q (fid storeFactory) args r ∈ log afterFailure.
Proof.
  assert (resolvable (factories flakyModule)) as Hres.
  { apply (from_resolvable flakyEntries). vm_compute. reflexivity. }
  assert (NoDup (fid <$> factories flakyModule)) as Hnd by compute_done.
  assert (registered MainKey (factories flakyModule)) as Hreg.
  { exists mainFactory. split; [|reflexivity]. simpl. repeat constructor. }
  assert (length (factories flakyModule) < 5)%nat as Hfuel by (simpl; lia).
  assert (get 5 flakyModule MainKey (empty_sys 0)
          = Some (3, called flakyModule MainKey (empty_sys 0))) as Hget0
    by (vm_compute; reflexivity).
  assert (run failingSchedule (called flakyModule MainKey (empty_sys 0)) = Some afterFailure)
    as Hrun by (vm_compute; reflexivity).
  assert (EvUserInit 2 (fid badFactory) [] (Throw (Thrown (JStr "boom"))) ∈ log afterFailure)
    as Hev by (vm_compute; repeat constructor).
  destruct (initializer_failure_propagates flakyModule MainKey 5 (empty_sys 0)
              (coherent_empty 0) Hnd) as (Hlater & _ & Hexists).
  destruct (Hexists Hres flakyModule_acyclic Hreg Hfuel) as (p & sys1 & Hget & _ & Htree).
  rewrite Hget0 in Hget. injection Hget as <- <-.
  pose proof (steps_moves flakyModule _ _ (run_steps _ _ _ Hrun)) as Hmoves.
  destruct (Htree _ Hmoves) as [Hpath _]. specialize (Hpath 2%nat ltac:(simpl; lia)).
  destruct (Hlater afterFailure) as [Hforward Hcache].
  { eapply rtc_l; [|exact Hmoves]. by eapply move_get. }
  destruct (Hforward 3%nat 2%nat _ _ _ Hev ltac:(simpl; lia) Hpath)
    as (Hfailed & _ & Hdoomed & Habort & Hafter).
  split_and!; [apply coherent_empty|done|done|apply flakyModule_acyclic|done..| | | | |].
  - by apply Habort.
  - apply afterFailure_quiescent.
  - vm_compute. reflexivity.
  - intros sys3 Hmoves3. by apply Hafter.
  - intros fuel' p' sys3 sys4 Hget' Hsteps'.
    destruct (Hcache storeFactory (JObj 2) fuel' p' sys3 sys4 afterFailure_stable eq_refl
                Hget' Hsteps') as (Hinst & Hlog & _).
    by split.
Defined.

(** C8 as stated fails when the cached sibling has a dependency that does
    not resolve a second time: the resolution of the sibling's key is
    rejected although the sibling holds its instance.  The probe succeeds
    once; the first resolution fails on another service while the store is
    cached; the second resolution of the store can only run the probe again,
    which throws. *)
Lemma cached_sibling_resolution_rejected :
  from flakyEntries = Normal flakyModule ∧
  get 5 flakyModule MainKey (empty_sys 0) = Some (3, called flakyModule MainKey (empty_sys 0)) ∧
  run failingSchedule (called flakyModule MainKey (empty_sys 0)) = Some afterFailure ∧
  Forall (λ pr, is_settled (status pr)) (promises afterFailure) ∧
  status_of (promises afterFailure) 3 = Some (Rejected (Thrown (JStr "boom"))) ∧
  status_of (promises afterFailure) 1 = Some (Fulfilled (JObj 2)) ∧
  stable storeFactory (JObj 2) afterFailure ∧
  get 5 flakyModule StoreKey afterFailure = Some (5, called flakyModule StoreKey afterFailure) ∧
  (∀ schedule sys,
     run schedule (called flakyModule StoreKey afterFailure) = Some sys →
     fulfilled_value (promises sys) 5 = None) ∧
  status_of (promises (resolved flakyModule StoreKey afterFailure)) 5
    = Some (Rejected (Thrown (JStr "unavailable"))) ∧
  instance storeFactory (resolved flakyModule StoreKey afterFailure) = JObj 2.
Proof.
  split_and!; try (vm_compute; reflexivity);
    [vm_compute; repeat constructor|apply afterFailure_stable|].
  assert (∀ q sys, resume q (called flakyModule StoreKey afterFailure) = Some sys → q = 4)
    as Hfirst.
  { intros q sys Hres.
    do 6 (destruct q as [|q]; [first [reflexivity | vm_compute in Hres; discriminate Hres]|]).
    vm_compute in Hres. discriminate Hres. }
  intros schedule sys Hrun.
  destruct schedule as [|q1 schedule]; simpl in Hrun.
  { injection Hrun as <-. vm_compute. reflexivity. }
  destruct (resume q1 _) as [sys1|] eqn:H1; [|discriminate Hrun].
  pose proof (Hfirst q1 sys1 H1) as ->. vm_compute in H1. injection H1 as <-.
  destruct schedule as [|q2 schedule]; simpl in Hrun.
  { injection Hrun as <-. vm_compute. reflexivity. }
  destruct (resume q2 _) as [sys2|] eqn:H2; [|discriminate Hrun].
  assert (q2 = 5) as ->.
  { do 6 (destruct q2 as [|q2]; [first [reflexivity | vm_compute in H2; discriminate H2]|]).
    vm_compute in H2. discriminate H2. }
  vm_compute in H2. injection H2 as <-.
  destruct schedule as [|q3 schedule]; simpl in Hrun.
  { injection Hrun as <-. vm_compute. reflexivity. }
  destruct (resume q3 _) as [sys3|] eqn:H3; [|discriminate Hrun].
  exfalso.
  do 6 (destruct q3 as [|q3]; [vm_compute in H3; discriminate H3|]).
  vm_compute in H3. discriminate H3.
Qed.

(** The race of the specification, section 5, inside one resolution: two
    calls on the same singleton both find the cache empty, the user
    initializer runs twice, the application receives the first instance and
    the logger was built on the second, which is the one that stays cached. *)
Example shared_singleton_initialized_twice :
  ∃ sys,
    run racingSchedule (called readmeModule AppKey (empty_sys 0)) = Some sys ∧
    log sys =
      [EvInitialize 0 0 []; EvUserInit 0 0 [] (Normal (JObj 0));
       EvInitialize 1 0 []; EvUserInit 1 0 [] (Normal (JObj 1));
       EvInitialize 2 1 [JObj 1]; EvUserInit 2 1 [JObj 1] (Normal (JObj 2));
       EvInitialize 3 2 [JObj 0; JObj 2]; EvUserInit 3 2 [JObj 0; JObj 2] (Normal (JObj 3))] ∧
    instance configFactory sys = JObj 1.
Proof. eexists. split_and!; vm_compute; reflexivity. Qed.

Lemma scopedDisposed_sole : sole 3 requestFactory (called scopedModule ConfigKey scopedDisposed).
Proof.
  split_and!; [exact I| |].
  - intros q pr f Hq Hc Hfid.
    do 4 (destruct q as [|q];
          [concrete_promise Hq; simpl in Hc; injection Hc as <-;
           first [reflexivity | discriminate Hfid]|]).
    concrete_promise Hq.
  - intros q pr Hq Hc Hne.
    do 4 (destruct q as [|q]; [first [done | concrete_promise Hq; exact I]|]).
    concrete_promise Hq.
Qed.

Lemma dispose_scoped_witness :
  NoDup (fid <$> factories scopedModule) ∧
  dispose scopedModule (Some requestScope) scopedResolved = (Normal tt, scopedDisposed) ∧
  promises scopedDisposed = promises scopedResolved ∧
  log scopedDisposed = log scopedResolved ++ [EvUserDispose 30 (JObj 0)] ∧
  instance requestFactory scopedDisposed = JUndefined ∧
  instance sessionFactory scopedDisposed = JObj 1 ∧
  (∀ v, EvUserDispose (fid sessionFactory) v ∉ log scopedDisposed) ∧
  get 4 scopedModule ConfigKey scopedDisposed
    = Some (3, called scopedModule ConfigKey scopedDisposed) ∧
  instance requestFactory (resolved scopedModule ConfigKey scopedDisposed) = JObj 103 ∧
  ∃ args, EvUserInit 3 (fid requestFactory) args (Normal (JObj 103))
            ∈ log (resolved scopedModule ConfigKey scopedDisposed).
Proof.
  assert (NoDup (fid <$> factories scopedModule)) as Hnd by compute_done.
  assert (dispose scopedModule (Some requestScope) scopedResolved
          = (Normal tt, scopedDisposed)) as Hdisp by (vm_compute; reflexivity).
  destruct (dispose_scoped scopedModule (Some requestScope) scopedResolved scopedDisposed
              Hnd Hdisp) as (Hps & Hlog & Hsel & Hother & Hfresh).
  assert (sessionFactory ∈ factories scopedModule) as Hsession by (simpl; repeat constructor).
  assert (requestFactory ∈ factories scopedModule) as Hrequest by (simpl; repeat constructor).
  assert (¬ (selected (Some requestScope) sessionFactory ∧ is_singleton sessionFactory ∧
             instance sessionFactory scopedResolved ≠ JUndefined)) as Hnot.
  { intros [Hscope _]. discriminate Hscope. }
  assert (get 4 scopedModule ConfigKey scopedDisposed
          = Some (3, called scopedModule ConfigKey scopedDisposed)) as Hget
    by (vm_compute; reflexivity).
  assert (steps (called scopedModule ConfigKey scopedDisposed)
                (resolved scopedModule ConfigKey scopedDisposed)) as Hsteps.
  { assert (resolved scopedModule ConfigKey scopedDisposed
            = event_loop 8 (called scopedModule ConfigKey scopedDisposed)) as ->
      by (vm_compute; reflexivity).
    apply steps_event_loop. }
  assert (promises (resolved scopedModule ConfigKey scopedDisposed) !! 3
          = Some {| callee := Some requestFactory; status := Fulfilled (JObj 103);
                    deps := [] |}) as Hp by (vm_compute; reflexivity).
  assert (find (isSuitable ConfigKey) (factories scopedModule) = Some requestFactory) as Hfind
    by (vm_compute; reflexivity).
  destruct (Hfresh requestFactory ConfigKey 4 3 _ _ _ (JObj 103) Hrequest eq_refl I Hfind Hget
              scopedDisposed_sole Hsteps Hp eq_refl) as (_ & Hinst & Hev).
  split_and!; [done|done|done| | | | |done|done|done].
  - rewrite Hlog. apply (f_equal (app _)). vm_compute. reflexivity.
  - by apply Hsel.
  - destruct (Hother sessionFactory Hsession Hnot) as [-> _]. vm_compute. reflexivity.
  - intros v Hv. destruct (Hother sessionFactory Hsession Hnot) as [_ Hold].
    apply Hold in Hv. apply list_elem_of_In in Hv. vm_compute in Hv.
    repeat (destruct Hv as [Hv|Hv]; [discriminate Hv|]). exact Hv.
Defined.

(** ** The further statements at concrete inputs *)

Lemma escapeDotString_injective_witness :
  escapeDotString oddName = escapeDotString ("a" +:+ quote +:+ "b" +:+ backslash +:+ newline +:+ "c") ∧
  oddName = "a" +:+ quote +:+ "b" +:+ backslash +:+ newline +:+ "c".
Proof.
  split; [reflexivity|]. apply escapeDotString_injective. reflexivity.
Defined.

Lemma createDotGraph_lines_witness :
  newline_free "Service Dependency Graph" ∧
  split_lines (createDotGraph readmeModule None) =
    preamble defaultOptions
      ++ [ "  node0 [label=" +:+ quote +:+ "Config" +:+ quote +:+ "]" +:+ leaf_style +:+ ";";
           "  node1 [label=" +:+ quote +:+ "Logger" +:+ quote +:+ "];";
           "  node2 [label=" +:+ quote +:+ "App" +:+ quote +:+ "]" +:+ root_style +:+ ";" ]
      ++ [""]
      ++ [ "  node1 -> node0;"; "  node2 -> node0;"; "  node2 -> node1;" ]
      ++ ["}"].
Proof.
  assert (newline_free "Service Dependency Graph") as Htitle by (by compute).
  split; [exact Htitle|].
  rewrite (createDotGraph_lines readmeModule None Htitle). vm_compute. reflexivity.
Defined.

Lemma createDotGraph_edges_follow_resolution_witness :
  from readmeEntries = Normal readmeModule ∧
  NoDup (service_name <$> factories readmeModule) ∧
  ∃ edges,
    split_lines (createDotGraph readmeModule None) =
      preamble defaultOptions
        ++ imap (node_line defaultOptions (factories readmeModule)) (factories readmeModule)
        ++ [""] ++ edges ++ ["}"] ∧
    Forall2 (λ '(i, k) line, ∃ (j : nat) g,
               factories readmeModule !! j = Some g ∧
               find (isSuitable k) (factories readmeModule) = Some g ∧
               line = edge_line i j)
            [(1%nat, ConfigKey); (2%nat, ConfigKey); (2%nat, LoggerKey)] edges.
Proof.
  assert (from readmeEntries = Normal readmeModule) as Hfrom by (vm_compute; reflexivity).
  assert (NoDup (service_name <$> factories readmeModule)) as Hnd by compute_done.
  split_and!; [done|done|].
  apply (createDotGraph_edges_follow_resolution readmeEntries readmeModule None Hfrom Hnd).
  - intros f g k Hf Hg Hk Hsym. simpl in Hf, Hg.
    repeat (apply elem_of_cons in Hf as [->|Hf]); try (by apply elem_of_nil in Hf);
      simpl in Hk;
      repeat (apply elem_of_cons in Hk as [->|Hk]); try (by apply elem_of_nil in Hk);
      repeat (apply elem_of_cons in Hg as [->|Hg]); try (by apply elem_of_nil in Hg);
      first [discriminate Hsym | reflexivity].
  - by compute.
Defined.

Lemma createDotGraph_partial_options_witness :
  newline_free "Services" ∧
  split_lines (createDotGraph readmeModule (Some titleOnly)) !! 1%nat =
    Some ("  label=" +:+ quote +:+ "Services" +:+ quote +:+ ";") ∧
  split_lines (createDotGraph readmeModule (Some titleOnly)) !! 4%nat =
    Some "  rankdir=undefined;" ∧
  split_lines (createDotGraph readmeModule (Some titleOnly)) !! 20%nat =
    Some ("  node0 [label=" +:+ quote +:+ "Config" +:+ quote +:+ "];").
Proof.
  assert (newline_free (template_string (title titleOnly))) as Htitle by (by compute).
  destruct (createDotGraph_partial_options readmeModule titleOnly Htitle)
    as (_ & Hdirection & Hnodes).
  split_and!; [exact Htitle|vm_compute; reflexivity|exact (Hdirection eq_refl)|].
  exact (Hnodes eq_refl eq_refl 0%nat configFactory eq_refl).
Defined.

Lemma from_flattens_modules_witness :
  from readmeEntries = Normal readmeModule ∧
  from [ModuleEntry readmeModule; FactoryEntry configOverride] =
    from (readmeEntries ++ [FactoryEntry configOverride]) ∧
  from [ModuleEntry readmeModule; FactoryEntry configOverride] = Normal overrideModule ∧
  from [ModuleEntry readmeModule] = Normal readmeModule.
Proof.
  assert (from readmeEntries = Normal readmeModule) as Hfrom by (vm_compute; reflexivity).
  destruct (from_flattens_modules readmeEntries readmeModule [] [FactoryEntry configOverride]
              Hfrom) as [Hflat Hsame].
  split_and!; [done|exact Hflat|vm_compute; reflexivity|exact Hsame].
Defined.

Lemma from_keeps_first_position_witness :
  from overrideEntries = Normal overrideModule ∧
  sym <$> flatten overrideEntries = [1; 2; 3; 1]%positive ∧
  Forall2 (λ s f, sym f = s ∧
                  last (filter (λ g, sym g = s) (flatten overrideEntries)) = Some f)
          [1; 2; 3]%positive [configOverride; loggerFactory; appFactory].
Proof.
  assert (from overrideEntries = Normal overrideModule) as Hfrom by (vm_compute; reflexivity).
  split_and!; [done|reflexivity|].
  exact (from_keeps_first_position overrideEntries overrideModule Hfrom).
Defined.

Lemma get_on_cycle_rejected_witness :
  coherent (empty_sys 0) ∧
  from cyclicEntries = Normal cyclicModule ∧
  tc (depends (factories cyclicModule)) (symbol PingKey) (symbol PingKey) ∧
  ∃ sys1 sys2,
    get_within 1 cyclicModule PingKey (empty_sys 0) = (1%nat, sys1) ∧
    promises sys1 =
      [{| callee := Some pongFactory; status := Rejected stack_overflow; deps := [] |};
       {| callee := Some pingFactory; status := Waiting; deps := [0%nat] |}] ∧
    run [1%nat] sys1 = Some sys2 ∧
    quiescent sys2 ∧
    rejection (promises sys2) 1 = Some stack_overflow ∧
    log sys2 = [] ∧
    (∀ c args, EvInitialize 1 c args ∉ log sys2).
Proof.
  assert (from cyclicEntries = Normal cyclicModule) as Hfrom by (vm_compute; reflexivity).
  split_and!; [apply coherent_empty|done|apply cyclicModule_cycle|].
  destruct (get_on_cycle_rejected cyclicEntries cyclicModule PingKey 1 (empty_sys 0)
              (coherent_empty 0) Hfrom cyclicModule_cycle) as (p & sys1 & Hget & _ & Hlater).
  assert (get_within 1 cyclicModule PingKey (empty_sys 0)
          = (1%nat, (get_within 1 cyclicModule PingKey (empty_sys 0)).2)) as Hget0
    by (vm_compute; reflexivity).
  rewrite Hget0 in Hget. injection Hget as <- <-.
  set (sys1 := (get_within 1 cyclicModule PingKey (empty_sys 0)).2) in *.
  assert (run [1%nat] sys1 = Some (ran [1%nat] sys1)) as Hrun by (vm_compute; reflexivity).
  destruct (Hlater _ (run_steps _ _ _ Hrun)) as (_ & Hnone & _).
  exists sys1, (ran [1%nat] sys1).
  split_and!; [done|vm_compute; reflexivity|done| |vm_compute; reflexivity|
               vm_compute; reflexivity|done].
  quiet.
Defined.

Lemma get_finds_every_dependency_witness :
  from readmeEntries = Normal readmeModule ∧
  registered AppKey (factories readmeModule) ∧
  get 4 readmeModule AppKey (empty_sys 0) = Some (3, called readmeModule AppKey (empty_sys 0)) ∧
  ∃ f, callee <$> promises (resolved readmeModule AppKey (empty_sys 0)) !! 1%nat = Some (Some f) ∧
       f ∈ factories readmeModule.
Proof.
  assert (from readmeEntries = Normal readmeModule) as Hfrom by (vm_compute; reflexivity).
  assert (registered AppKey (factories readmeModule)) as Hreg.
  { exists appFactory. split; [|reflexivity]. simpl. repeat constructor. }
  assert (get 4 readmeModule AppKey (empty_sys 0)
          = Some (3, called readmeModule AppKey (empty_sys 0))) as Hget
    by (vm_compute; reflexivity).
  assert (steps (called readmeModule AppKey (empty_sys 0))
                (resolved readmeModule AppKey (empty_sys 0))) as Hsteps.
  { apply (steps_event_loop 8). }
  assert (promises (resolved readmeModule AppKey (empty_sys 0)) !! 1%nat
          = Some {| callee := Some configFactory; status := Fulfilled (JObj 0); deps := [] |})
    as Hp by (vm_compute; reflexivity).
  split_and!; [done|done|done|].
  destruct (get_finds_every_dependency readmeEntries readmeModule AppKey 4 (empty_sys 0)
              _ _ 3 1 _ Hfrom Hreg Hget Hsteps (Nat.le_0_l _) Hp) as (f & Hf & Hin).
  exists f. split; [|done]. rewrite Hp. simpl in *. by rewrite Hf.
Defined.

Lemma dispose_twice_witness :
  NoDup (fid <$> factories scopedModule) ∧
  dispose scopedModule (Some requestScope) scopedResolved = (Normal tt, scopedDisposed) ∧
  dispose scopedModule (Some requestScope) scopedDisposed = (Normal tt, scopedDisposed).
Proof.
  assert (NoDup (fid <$> factories scopedModule)) as Hnd by compute_done.
  assert (dispose scopedModule (Some requestScope) scopedResolved
          = (Normal tt, scopedDisposed)) as Hdisp by (vm_compute; reflexivity).
  split_and!; [done|done|].
  exact (dispose_twice scopedModule (Some requestScope) scopedResolved scopedDisposed Hnd Hdisp).
Defined.

Lemma dispose_stops_at_throwing_teardown_witness :
  NoDup (fid <$> factories lockedModule) ∧
  filter (selected None) (factories lockedModule)
    = [sessionFactory] ++ lockedFactory :: [cacheFactory; lockedApp] ∧
  instance lockedFactory lockedResolved = JObj 1 ∧
  ∃ sys',
    dispose lockedModule None lockedResolved = (Throw (Thrown (JStr "busy")), sys') ∧
    instance lockedFactory sys' = JObj 1 ∧
    instance sessionFactory sys' = JUndefined ∧
    instance cacheFactory sys' = instance cacheFactory lockedResolved ∧
    log sys' = log lockedResolved ++ [EvUserDispose 31 (JObj 0); EvUserDispose 33 (JObj 1)].
Proof.
  assert (NoDup (fid <$> factories lockedModule)) as Hnd by compute_done.
  assert (filter (selected None) (factories lockedModule)
          = [sessionFactory] ++ lockedFactory :: [cacheFactory; lockedApp]) as Hsel.
  { simpl. by rewrite !filter_cons_True by done. }
  assert (instance lockedFactory lockedResolved = JObj 1) as Hinst by (vm_compute; reflexivity).
  split_and!; [done..|].
  pose proof (surjective_pairing (dispose_each [sessionFactory] lockedResolved)) as Hbefore.
  assert ((dispose_each [sessionFactory] lockedResolved).1 = Normal tt) as Hr
    by (vm_compute; reflexivity).
  rewrite Hr in Hbefore.
  destruct (dispose_stops_at_throwing_teardown lockedModule None lockedResolved
              [sessionFactory] lockedFactory [cacheFactory; lockedApp] busy_teardown
              _ (Thrown (JStr "busy"))
              (S (world (dispose_each [sessionFactory] lockedResolved).2))
              Hnd Hsel Hbefore eq_refl)
    as (sys' & Hdisp & Hkept & _ & _ & Hlog & Hcleared & Hafter).
  - rewrite Hinst. discriminate.
  - reflexivity.
  - exists sys'. split_and!; [done|by rewrite Hkept| | |].
    + apply Hcleared; [apply list_elem_of_here|exact I].
    + apply Hafter. apply list_elem_of_here.
    + rewrite Hlog. vm_compute. reflexivity.
Defined.

Lemma dispose_misses_initialization_in_flight_witness :
  promises initializing !! 0%nat =
    Some {| callee := Some configFactory; status := Initializing (Normal (JObj 0));
            deps := [] |} ∧
  instance configFactory initializing = JUndefined ∧
  ∃ sys' sys'',
    dispose readmeModule None initializing = (Normal tt, sys') ∧
    log sys' = log initializing ∧
    resume 0 sys' = Some sys'' ∧
    instance configFactory sys'' = JObj 0.
Proof.
  assert (promises initializing !! 0%nat =
            Some {| callee := Some configFactory; status := Initializing (Normal (JObj 0));
                    deps := [] |}) as Hp by (vm_compute; reflexivity).
  assert (instance configFactory initializing = JUndefined) as Hinst
    by (vm_compute; reflexivity).
  split_and!; [done|done|].
  pose proof (surjective_pairing (dispose readmeModule None initializing)) as Hdisp.
  assert ((dispose readmeModule None initializing).1 = Normal tt) as Hr
    by (vm_compute; reflexivity).
  rewrite Hr in Hdisp.
  assert (log (dispose readmeModule None initializing).2 = log initializing) as Hlog
    by (vm_compute; reflexivity).
  destruct (dispose_misses_initialization_in_flight readmeModule None initializing _ _ 0 _
              configFactory (JObj 0) Hp eq_refl eq_refl Hinst Hdisp)
    as (_ & _ & sys'' & Hres & _ & Hstored & _).
  by exists (dispose readmeModule None initializing).2, sys''.
Defined.

Lemma singleton_overlapping_calls_initialize_twice_witness :
  ∃ sys',
    run [0; 1; 0; 1]%nat (called readmeModule AppKey (empty_sys 0)) = Some sys' ∧
    status_of (promises sys') 0 = Some (Fulfilled (JObj 0)) ∧
    status_of (promises sys') 1 = Some (Fulfilled (JObj 1)) ∧
    instance configFactory sys' = JObj 1.
Proof.
  destruct (singleton_overlapping_calls_initialize_twice configFactory
              (called readmeModule AppKey (empty_sys 0)) 0 1
              {| callee := Some configFactory; status := Waiting; deps := [] |}
              {| callee := Some configFactory; status := Waiting; deps := [] |}
              [] [] (JObj 0) (JObj 1) 1 2 no_teardown)
    as (sys' & Hrun & Hp & Hq & Hinst & _); try (vm_compute; reflexivity); [done|].
  by exists sys'.
Defined.

Lemma get_initializes_dependencies_first_witness :
  coherent (empty_sys 0) ∧ ordered (empty_sys 0) ∧
  get 4 readmeModule AppKey (empty_sys 0) = Some (3, called readmeModule AppKey (empty_sys 0)) ∧
  log (resolved readmeModule AppKey (empty_sys 0)) !! 5%nat =
    Some (EvInitialize 3 2 [JObj 0; JObj 1]) ∧
  ∃ (j : nat) c' args',
    (j < 5)%nat ∧
    log (resolved readmeModule AppKey (empty_sys 0)) !! j = Some (EvInitialize 2 c' args').
Proof.
  assert (ordered (empty_sys 0)) as Hord by (intros i p c args pr d Hi; done).
  assert (get 4 readmeModule AppKey (empty_sys 0)
          = Some (3, called readmeModule AppKey (empty_sys 0))) as Hget
    by (vm_compute; reflexivity).
  assert (steps (called readmeModule AppKey (empty_sys 0))
                (resolved readmeModule AppKey (empty_sys 0))) as Hsteps.
  { apply (steps_event_loop 8). }
  assert (log (resolved readmeModule AppKey (empty_sys 0)) !! 5%nat =
            Some (EvInitialize 3 2 [JObj 0; JObj 1])) as Hev by (vm_compute; reflexivity).
  assert (promises (resolved readmeModule AppKey (empty_sys 0)) !! 3%nat
          = Some {| callee := Some appFactory; status := Fulfilled (JObj 2); deps := [0; 2] |})
    as Hp by (vm_compute; reflexivity).
  split_and!; [apply coherent_empty|done|done|done|].
  apply (get_initializes_dependencies_first 4 readmeModule AppKey (empty_sys 0) _ _ 3
           (coherent_empty 0) Hord Hget Hsteps 5 3 2 [JObj 0; JObj 1] _ 2 Hev Hp).
  simpl. repeat constructor.
Defined.

Lemma get_fulfilled_when_initializers_return_witness :
  coherent (empty_sys 0) ∧
  from readmeEntries = Normal readmeModule ∧
  acyclic (factories readmeModule) ∧
  registered AppKey (factories readmeModule) ∧
  get 4 readmeModule AppKey (empty_sys 0) = Some (3, called readmeModule AppKey (empty_sys 0)) ∧
  run racingSchedule (called readmeModule AppKey (empty_sys 0)) = Some readmeRaced ∧
  (length racingSchedule ≤ work (called readmeModule AppKey (empty_sys 0)))%nat ∧
  quiescent readmeRaced ∧
  status_of (promises readmeRaced) 3 = Some (Fulfilled (JObj 3)).
Proof.
  assert (from readmeEntries = Normal readmeModule) as Hfrom by (vm_compute; reflexivity).
  assert (registered AppKey (factories readmeModule)) as Hreg.
  { exists appFactory. split; [|reflexivity]. simpl. repeat constructor. }
  assert (get 4 readmeModule AppKey (empty_sys 0)
          = Some (3, called readmeModule AppKey (empty_sys 0))) as Hget0
    by (vm_compute; reflexivity).
  assert (run racingSchedule (called readmeModule AppKey (empty_sys 0)) = Some readmeRaced)
    as Hrun by (vm_compute; reflexivity).
  assert (quiescent readmeRaced) as Hquiet by quiet.
  split_and!; [apply coherent_empty|done|apply readmeModule_acyclic|done|done|done| |done|].
  - destruct (get_fulfilled_when_initializers_return readmeEntries readmeModule AppKey
                (empty_sys 0) (coherent_empty 0) Hfrom readmeModule_acyclic Hreg)
      as (p & sys1 & Hget & _ & Hbound & _ & _).
    + intros f args w Hf. simpl in Hf.
      repeat (apply elem_of_cons in Hf as [->|Hf]); try (by apply elem_of_nil in Hf);
        by exists (JObj w), (S w).
    + change (S (length (factories readmeModule))) with 4%nat in Hget.
      rewrite Hget0 in Hget. injection Hget as <- <-.
      exact (Hbound _ _ Hrun).
  - destruct (get_fulfilled_when_initializers_return readmeEntries readmeModule AppKey
                (empty_sys 0) (coherent_empty 0) Hfrom readmeModule_acyclic Hreg)
      as (p & sys1 & Hget & _ & _ & _ & Hfulfilled).
    + intros f args w Hf. simpl in Hf.
      repeat (apply elem_of_cons in Hf as [->|Hf]); try (by apply elem_of_nil in Hf);
        by exists (JObj w), (S w).
    + change (S (length (factories readmeModule))) with 4%nat in Hget.
      rewrite Hget0 in Hget. injection Hget as <- <-.
      destruct (Hfulfilled _ (run_steps _ _ _ Hrun) Hquiet) as [v Hv].
      rewrite Hv. f_equal. f_equal.
      assert (status_of (promises readmeRaced) 3 = Some (Fulfilled (JObj 3))) as Hv0
        by (vm_compute; reflexivity).
      rewrite Hv0 in Hv. by injection Hv as <-.
Defined.

Lemma resolvedConfig_sole :
  sole 0 configFactory (called readmeModule ConfigKey (empty_sys 0)).
Proof.
  split_and!; [exact I| |].
  - intros q pr f Hq Hc Hfid.
    destruct q as [|q]; [|concrete_promise Hq].
    concrete_promise Hq. simpl in Hc. by injection Hc as <-.
  - intros q pr Hq Hc Hne. destruct q as [|q]; [done|concrete_promise Hq].
Qed.

Lemma singleton_get_sequential_witness :
  NoDup (fid <$> factories readmeModule) ∧
  get 4 readmeModule ConfigKey (empty_sys 0)
    = Some (0%nat, called readmeModule ConfigKey (empty_sys 0)) ∧
  status_of (promises (resolved readmeModule ConfigKey (empty_sys 0))) 0
    = Some (Fulfilled (JObj 0)) ∧
  get 4 readmeModule ConfigKey (resolved readmeModule ConfigKey (empty_sys 0))
    = Some (1%nat, called readmeModule ConfigKey (resolved readmeModule ConfigKey (empty_sys 0))) ∧
  status_of
    (promises (resolved readmeModule ConfigKey (resolved readmeModule ConfigKey (empty_sys 0))))
    1 = Some (Fulfilled (JObj 0)) ∧
  ∀ q args r,
    EvUserInit q (fid configFactory) args r
      ∈ log (resolved readmeModule ConfigKey (resolved readmeModule ConfigKey (empty_sys 0))) →
    EvUserInit q (fid configFactory) args r
      ∈ log (resolved readmeModule ConfigKey (empty_sys 0)).
Proof.
  assert (NoDup (fid <$> factories readmeModule)) as Hnd by compute_done.
  assert (get 4 readmeModule ConfigKey (empty_sys 0)
          = Some (0%nat, called readmeModule ConfigKey (empty_sys 0))) as Hget1
    by (vm_compute; reflexivity).
  assert (steps (called readmeModule ConfigKey (empty_sys 0))
                (resolved readmeModule ConfigKey (empty_sys 0))) as Hsteps1.
  { assert (resolved readmeModule ConfigKey (empty_sys 0)
            = event_loop 2 (called readmeModule ConfigKey (empty_sys 0))) as ->
      by (vm_compute; reflexivity).
    apply steps_event_loop. }
  assert (promises (resolved readmeModule ConfigKey (empty_sys 0)) !! 0%nat
          = Some {| callee := Some configFactory; status := Fulfilled (JObj 0); deps := [] |})
    as Hp1 by (vm_compute; reflexivity).
  assert (get 4 readmeModule ConfigKey (resolved readmeModule ConfigKey (empty_sys 0))
          = Some (1%nat, called readmeModule ConfigKey
                           (resolved readmeModule ConfigKey (empty_sys 0)))) as Hget2
    by (vm_compute; reflexivity).
  assert (steps (called readmeModule ConfigKey (resolved readmeModule ConfigKey (empty_sys 0)))
                (resolved readmeModule ConfigKey
                   (resolved readmeModule ConfigKey (empty_sys 0)))) as Hsteps2.
  { assert (resolved readmeModule ConfigKey (resolved readmeModule ConfigKey (empty_sys 0))
            = event_loop 2 (called readmeModule ConfigKey
                              (resolved readmeModule ConfigKey (empty_sys 0)))) as ->
      by (vm_compute; reflexivity).
    apply steps_event_loop. }
  assert (promises (resolved readmeModule ConfigKey
                      (resolved readmeModule ConfigKey (empty_sys 0))) !! 1%nat
          = Some {| callee := Some configFactory; status := Fulfilled (JObj 0); deps := [] |})
    as Hp2 by (vm_compute; reflexivity).
  destruct (singleton_get_sequential readmeModule ConfigKey configFactory 4 4
              (empty_sys 0) _ _ _ _ 0 1 _ _ (JObj 0) (JObj 0)
              Hnd I eq_refl eq_refl Hget1 resolvedConfig_sole Hsteps1 Hp1 eq_refl
              ltac:(discriminate) Hget2 Hsteps2 Hp2 eq_refl)
    as (_ & _ & _ & Hlog).
  split_and!; [done|done| |done| |exact Hlog].
  - unfold status_of. by rewrite Hp1.
  - unfold status_of. by rewrite Hp2.
Defined.

Lemma singleton_failed_initialization_retried_witness :
  ∃ sys1,
    initialize_begin 0 downFactory [] (empty_sys 0)
      = (Initializing (Throw (Thrown (JStr "down"))), sys1) ∧
    instance downFactory sys1 = JUndefined ∧
    ∃ r sys3,
      initialize_begin 1 downFactory [] sys1 = (Initializing r, sys3) ∧
      EvUserInit 1 (fid downFactory) [] r ∈ log sys3.
Proof.
  eexists. split; [reflexivity|].
  destruct (singleton_failed_initialization_retried 0 downFactory [] (empty_sys 0) _
              (Thrown (JStr "down")) I eq_refl) as (_ & Hinst & Hagain).
  split; [exact Hinst|]. exact (Hagain 1%nat []).
Defined.

Lemma get_fails_fast_witness :
  status_of (promises halfFailed) 1 = Some Waiting ∧
  rejection (promises halfFailed) 2 = Some (Thrown (JStr "boom")) ∧
  ∃ sys',
    resume 3 halfFailed = Some sys' ∧
    status_of (promises sys') 3 = Some (Rejected (Thrown (JStr "boom"))) ∧
    log sys' = log halfFailed ∧
    promises sys' !! 1%nat = promises halfFailed !! 1%nat.
Proof.
  split_and!; [vm_compute; reflexivity|vm_compute; reflexivity|].
  destruct (get_fails_fast 3 2 halfFailed
              {| callee := Some mainFactory; status := Waiting; deps := [1; 2] |}
              mainFactory (Thrown (JStr "boom")))
    as (e' & d' & sys' & Hd' & He' & Hres & Hst & Hlog & _ & _ & Hothers);
    [vm_compute; reflexivity|reflexivity|reflexivity|simpl; repeat constructor
    |vm_compute; reflexivity|].
  assert (e' = Thrown (JStr "boom")) as ->.
  { simpl in Hd'. repeat (apply elem_of_cons in Hd' as [->|Hd']).
    - vm_compute in He'. discriminate He'.
    - vm_compute in He'. by injection He' as <-.
    - by apply elem_of_nil in Hd'. }
  exists sys'. split_and!; [done|done|done|]. by apply Hothers.
Defined.

Lemma createDotGraph_reads_names_only_witness :
  from readmeEntries = Normal readmeModule ∧
  from twinEntries = Normal twinModule ∧
  names_of <$> factories readmeModule = names_of <$> factories twinModule ∧
  createDotGraph readmeModule None = createDotGraph twinModule None.
Proof.
  assert (names_of <$> factories readmeModule = names_of <$> factories twinModule) as Hnames
    by reflexivity.
  split_and!; [vm_compute; reflexivity|vm_compute; reflexivity|done|].
  exact (createDotGraph_reads_names_only readmeModule twinModule None Hnames).
Defined.

Lemma createDotGraph_same_name_shares_node_witness :
  from homonymEntries = Normal homonymModule ∧
  find (isSuitable ConfigKey) (factories homonymModule) = Some configFactory ∧
  ∃ edges,
    split_lines (createDotGraph homonymModule None) =
      preamble defaultOptions
        ++ imap (node_line defaultOptions (factories homonymModule)) (factories homonymModule)
        ++ [""] ++ edges ++ ["}"] ∧
    edges = ["  node1 -> node2;"] ∧
    ∀ a b : nat, edge_line a b ∈ edges → a ≠ 0%nat ∧ b ≠ 0%nat.
Proof.
  split_and!; [vm_compute; reflexivity|reflexivity|].
  destruct (createDotGraph_same_name_shares_node homonymModule None 0 2 configFactory twinConfig)
    as (edges & Hlines & Hedges); [by compute|reflexivity|reflexivity|lia|reflexivity|].
  exists edges. split_and!; [done| |done].
  assert (split_lines (createDotGraph homonymModule None) =
          preamble defaultOptions
            ++ imap (node_line defaultOptions (factories homonymModule))
                 (factories homonymModule)
            ++ [""] ++ ["  node1 -> node2;"] ++ ["}"]) as Hcomputed
    by (vm_compute; reflexivity).
  rewrite Hcomputed in Hlines.
  apply app_inv_head, app_inv_head, app_inv_head in Hlines.
  apply app_inv_tail in Hlines. done.
Defined.

Lemma dispose_selects_scope_by_identity_witness :
  scope requestFactory = Some (new_ServiceScope "request" 1).1 ∧
  instance requestFactory scopedResolved = JObj 0 ∧
  dispose scopedModule (Some (new_ServiceScope "request" 3).1) scopedResolved
    = (Normal tt, scopedResolved).
Proof.
  split_and!; [reflexivity|vm_compute; reflexivity|].
  apply (dispose_selects_scope_by_identity scopedModule scopedResolved "request" 3).
  intros f s Hf Hs. simpl in Hf.
  repeat (apply elem_of_cons in Hf as [->|Hf]); try (by apply elem_of_nil in Hf);
    simpl in Hs; first [discriminate Hs | injection Hs as <-; by compute].
Defined.
